(** * KisaanConnect: the file watcher, its polling listener and brace expansion

    A shallow embedding of the watcher orchestrator ([FSWatcher] with
    [_emit], [_throttle], [_awaitWriteFinish], [_handleError], [add],
    [close]), of the [fs.watchFile] listener of the per-directory backend and
    of the brace expander ([expand], [exceedsLimit]), followed by the
    properties of the specification that concern them.

    JavaScript objects that are mutated in place become explicit state: the
    watcher is a record that every method takes and returns, timers and
    [process.nextTick] callbacks are queues inside that record, and the
    results of [fs.stat] and of the clock are inputs of the step that
    consumes them. *)

From stdpp Require Import gmap strings list pretty.
From Stdlib Require Import ZArith QArith Lia Ascii.

Set Warnings "-register-all".

Local Close Scope Q_scope.
Local Open Scope Z_scope.

(** ** Values that travel with events *)

Module Stats.
(** The fields of [fs.Stats] the watcher compares. Both are JavaScript
    numbers that the code only orders and tests for equality. *)
Record t := mk { size : Z; mtimeMs : Z }.
End Stats.

(** An error object; [code] is [undefined] for errors that carry none. *)
Record JsError := mkError { code : option string }.

(** An argument of [emit]: the event name, the path, a stat record, an
    error, or a hole left by an [undefined] positional argument. *)
Inductive Val :=
| VUndef
| VStr (s : string)
| VStats (st : Stats.t)
| VErr (e : JsError).

Definition is_undefined (v : Val) : bool :=
  match v with VUndef => true | _ => false end.

(** Modelled from the spec: [lib/constants] is not part of the sources; the
    channel names are those of the public [on(event, handler)] interface. *)
Definition EV_ALL : string := "all".
Definition EV_READY : string := "ready".
Definition EV_ADD : string := "add".
Definition EV_CHANGE : string := "change".
Definition EV_UNLINK : string := "unlink".
Definition EV_ADD_DIR : string := "addDir".
Definition EV_UNLINK_DIR : string := "unlinkDir".
Definition EV_RAW : string := "raw".
Definition EV_ERROR : string := "error".

(** One call of [EventEmitter.emit]: the channel, the arguments handed to the
    handlers, and whether a handler was registered on the channel then. *)
Record Emission := mkEmission {
  channel : string;
  payload : list Val;
  heard : bool
}.

(** The completion of a call that may [throw]; the name is that of the
    exception's constructor. Mutations made before a [throw] stay in place,
    so a method of the watcher returns its completion together with the
    watcher. *)
Inductive Completion (A : Type) :=
| Normal (a : A)
| Throw (name : string).
Arguments Normal {A} a.
Arguments Throw {A} name.

(** ** Insertion-ordered maps

    [_pendingUnlinks] is iterated with [forEach], so the order of insertion
    is observable; it is kept as an association list with the semantics of a
    JavaScript [Map]: [set] on a present key keeps the key's position. *)

Section OrderedMap.
Context {V : Type}.

Fixpoint omap_get (k : string) (m : list (string * V)) : option V :=
  match m with
  | [] => None
  | (k', v) :: m' => if String.eqb k k' then Some v else omap_get k m'
  end.

Fixpoint omap_set (k : string) (v : V) (m : list (string * V)) : list (string * V) :=
  match m with
  | [] => [(k, v)]
  | (k', v') :: m' =>
      if String.eqb k k' then (k', v) :: m' else (k', v') :: omap_set k v m'
  end.

Fixpoint omap_delete (k : string) (m : list (string * V)) : list (string * V) :=
  match m with
  | [] => []
  | (k', v') :: m' =>
      if String.eqb k k' then m' else (k', v') :: omap_delete k m'
  end.

Definition omap_has (k : string) (m : list (string * V)) : bool :=
  match omap_get k m with Some _ => true | None => false end.
End OrderedMap.

(** ** The watcher *)

Module Watcher.

(** *** Options, as frozen at the end of the constructor *)

Record AwfOptions := mkAwf { stabilityThreshold : Z; pollInterval : Z }.

(** [opts.atomic] is a boolean or a delay in milliseconds. *)
Inductive AtomicOption :=
| AtomicBool (b : bool)
| AtomicNumber (ms : Z).

Definition atomic_truthy (a : AtomicOption) : bool :=
  match a with
  | AtomicBool b => b
  | AtomicNumber ms => negb (ms =? 0)
  end.

(** [typeof opts.atomic === 'number' ? opts.atomic : 100] *)
Definition atomic_delay (a : AtomicOption) : Z :=
  match a with
  | AtomicNumber ms => ms
  | AtomicBool _ => 100
  end.

Record Options := mkOptions {
  cwd : option string;
  atomic : AtomicOption;
  awaitWriteFinish : option AwfOptions;
  alwaysStat : bool;
  ignorePermissionErrors : bool;
  ignoreInitial : bool;
  persistent : bool;
  useFsEvents : bool;
  disableGlobbing : bool
}.

(** [if (opts.cwd)]: an absent or empty working directory is falsy. *)
Definition cwd_truthy (o : Options) : option string :=
  match cwd o with
  | Some c => if String.eqb c "" then None else Some c
  | None => None
  end.

(** What the user may pass as [awaitWriteFinish], and the constructor's
    normalisation of it: [true] becomes [{}], and a falsy threshold or
    interval takes its default. *)
Inductive UserAwf :=
| AwfFalsy
| AwfTrue
| AwfObject (threshold interval : option Z).

Definition default_if_falsy (d : Z) (v : option Z) : Z :=
  match v with
  | Some n => if n =? 0 then d else n
  | None => d
  end.

Definition normalize_awf (u : UserAwf) : option AwfOptions :=
  match u with
  | AwfFalsy => None
  | AwfTrue => Some (mkAwf 2000 100)
  | AwfObject t i => Some (mkAwf (default_if_falsy 2000 t) (default_if_falsy 100 i))
  end.

(** *** Slots, timers and suspended calls *)

(** A throttle slot [{ timeoutObject, clear, count }]; [clear] is the
    function [throttle_clear] below, closed over the slot's map and path. *)
Record Throttle := mkThrottle { timeoutObject : nat; count : Z }.

(** A pending-write slot [{ lastChange, cancelWait }]. [cancelWait] is closed
    over the invocation of [_awaitWriteFinish] that made the slot (its
    [timeoutHandle] variable) and over the event it withholds. *)
Record PendingWrite := mkPendingWrite {
  lastChange : Z;
  cancel_invocation : nat;
  cancel_event : string
}.

(** The variables one invocation of [_awaitWriteFinish] closes over. *)
Record AwfCtx := mkAwfCtx {
  invocation : nat;
  awf_path : string;
  awf_fullPath : string;
  awf_threshold : Z;
  awf_pollInterval : Z;
  awf_event : string;
  awf_args : list Val
}.

(** The callbacks handed to [setTimeout]. *)
Inductive Task :=
| DrainUnlinks
| ThrottleClear (map : nat) (path : string)
| Poll (ctx : AwfCtx) (prevStat : option Stats.t).

Record Timer := mkTimer { tid : nat; due : Z; task : Task }.

(** The callbacks handed to [process.nextTick]. *)
Inductive Tick := TickEmitReady.

(** [this._emitReady] holds either the closure made by the constructor or
    [EMPTY_FN]; callers may keep a copy of whichever they read. *)
Inductive ReadyFn := ReadyClosure | EMPTY_FN.

(** Calls suspended on an [fs.stat]. *)
Inductive Pending :=
| PendPoll (ctx : AwfCtx) (prevStat : option Stats.t)
| PendEmit (event : string) (args : list Val)
| PendAddToNodeFs (pathArg : string) (ready : ReadyFn).

Inductive StatResult :=
| StatErr (e : JsError)
| StatOk (st : Stats.t).

(** *** The watcher object

    [_throttled] maps an action type to a [Map] object; those objects live in
    [throttleMaps] under their identity, because [close] empties
    [_throttled] while timers already armed keep a reference to the old
    [Map]. [_pendingUnlinks] and [_pendingWrites] are created by the
    constructor exactly when [atomic], respectively [awaitWriteFinish], is
    truthy, and the code reaches them only under the same test of the frozen
    options; they are kept here unconditionally. [released] logs the closers
    that were invoked, [emitted] the calls of [emit]. *)

Record FSWatcher := mkFSWatcher {
  closed : bool;
  options : Options;
  _watched : gmap string (gset string);
  _closers : gmap string (list nat);
  _ignoredPaths : gset string;
  _throttled : gmap string nat;
  throttleMaps : gmap nat (gmap string Throttle);
  _symlinkPaths : gmap string string;
  _streams : gset nat;
  _pendingUnlinks : list (string * list Val);
  _pendingWrites : gmap string PendingWrite;
  _userIgnored : option (gset string);
  _readyCount : option Z;
  readyCalls : Z;
  _readyEmitted : bool;
  _emitReady : ReadyFn;
  listeners : gset string;
  timers : list Timer;
  ticks : list Tick;
  inflight : list Pending;
  released : list nat;
  nextId : nat;
  emitted : list Emission
}.

(** Field updates, one per mutable field ([options] is frozen by the
    constructor and has none). *)

Definition set_closed (v : bool) (s : FSWatcher) : FSWatcher :=
  mkFSWatcher v (options s) (_watched s) (_closers s) (_ignoredPaths s)
    (_throttled s) (throttleMaps s) (_symlinkPaths s) (_streams s)
    (_pendingUnlinks s) (_pendingWrites s) (_userIgnored s) (_readyCount s)
    (readyCalls s) (_readyEmitted s) (_emitReady s) (listeners s) (timers s)
    (ticks s) (inflight s) (released s) (nextId s) (emitted s).

Definition set_watched (v : gmap string (gset string)) (s : FSWatcher) : FSWatcher :=
  mkFSWatcher (closed s) (options s) v (_closers s) (_ignoredPaths s)
    (_throttled s) (throttleMaps s) (_symlinkPaths s) (_streams s)
    (_pendingUnlinks s) (_pendingWrites s) (_userIgnored s) (_readyCount s)
    (readyCalls s) (_readyEmitted s) (_emitReady s) (listeners s) (timers s)
    (ticks s) (inflight s) (released s) (nextId s) (emitted s).

Definition set_closers (v : gmap string (list nat)) (s : FSWatcher) : FSWatcher :=
  mkFSWatcher (closed s) (options s) (_watched s) v (_ignoredPaths s)
    (_throttled s) (throttleMaps s) (_symlinkPaths s) (_streams s)
    (_pendingUnlinks s) (_pendingWrites s) (_userIgnored s) (_readyCount s)
    (readyCalls s) (_readyEmitted s) (_emitReady s) (listeners s) (timers s)
    (ticks s) (inflight s) (released s) (nextId s) (emitted s).

Definition set_ignoredPaths (v : gset string) (s : FSWatcher) : FSWatcher :=
  mkFSWatcher (closed s) (options s) (_watched s) (_closers s) v (_throttled
    s) (throttleMaps s) (_symlinkPaths s) (_streams s) (_pendingUnlinks s)
    (_pendingWrites s) (_userIgnored s) (_readyCount s) (readyCalls s)
    (_readyEmitted s) (_emitReady s) (listeners s) (timers s) (ticks s)
    (inflight s) (released s) (nextId s) (emitted s).

Definition set_throttled (v : gmap string nat) (s : FSWatcher) : FSWatcher :=
  mkFSWatcher (closed s) (options s) (_watched s) (_closers s)
    (_ignoredPaths s) v (throttleMaps s) (_symlinkPaths s) (_streams s)
    (_pendingUnlinks s) (_pendingWrites s) (_userIgnored s) (_readyCount s)
    (readyCalls s) (_readyEmitted s) (_emitReady s) (listeners s) (timers s)
    (ticks s) (inflight s) (released s) (nextId s) (emitted s).

Definition set_throttleMaps (v : gmap nat (gmap string Throttle)) (s : FSWatcher) : FSWatcher :=
  mkFSWatcher (closed s) (options s) (_watched s) (_closers s)
    (_ignoredPaths s) (_throttled s) v (_symlinkPaths s) (_streams s)
    (_pendingUnlinks s) (_pendingWrites s) (_userIgnored s) (_readyCount s)
    (readyCalls s) (_readyEmitted s) (_emitReady s) (listeners s) (timers s)
    (ticks s) (inflight s) (released s) (nextId s) (emitted s).

Definition set_symlinkPaths (v : gmap string string) (s : FSWatcher) : FSWatcher :=
  mkFSWatcher (closed s) (options s) (_watched s) (_closers s)
    (_ignoredPaths s) (_throttled s) (throttleMaps s) v (_streams s)
    (_pendingUnlinks s) (_pendingWrites s) (_userIgnored s) (_readyCount s)
    (readyCalls s) (_readyEmitted s) (_emitReady s) (listeners s) (timers s)
    (ticks s) (inflight s) (released s) (nextId s) (emitted s).

Definition set_streams (v : gset nat) (s : FSWatcher) : FSWatcher :=
  mkFSWatcher (closed s) (options s) (_watched s) (_closers s)
    (_ignoredPaths s) (_throttled s) (throttleMaps s) (_symlinkPaths s) v
    (_pendingUnlinks s) (_pendingWrites s) (_userIgnored s) (_readyCount s)
    (readyCalls s) (_readyEmitted s) (_emitReady s) (listeners s) (timers s)
    (ticks s) (inflight s) (released s) (nextId s) (emitted s).

Definition set_pendingUnlinks (v : list (string * list Val)) (s : FSWatcher) : FSWatcher :=
  mkFSWatcher (closed s) (options s) (_watched s) (_closers s)
    (_ignoredPaths s) (_throttled s) (throttleMaps s) (_symlinkPaths s)
    (_streams s) v (_pendingWrites s) (_userIgnored s) (_readyCount s)
    (readyCalls s) (_readyEmitted s) (_emitReady s) (listeners s) (timers s)
    (ticks s) (inflight s) (released s) (nextId s) (emitted s).

Definition set_pendingWrites (v : gmap string PendingWrite) (s : FSWatcher) : FSWatcher :=
  mkFSWatcher (closed s) (options s) (_watched s) (_closers s)
    (_ignoredPaths s) (_throttled s) (throttleMaps s) (_symlinkPaths s)
    (_streams s) (_pendingUnlinks s) v (_userIgnored s) (_readyCount s)
    (readyCalls s) (_readyEmitted s) (_emitReady s) (listeners s) (timers s)
    (ticks s) (inflight s) (released s) (nextId s) (emitted s).

Definition set_userIgnored (v : option (gset string)) (s : FSWatcher) : FSWatcher :=
  mkFSWatcher (closed s) (options s) (_watched s) (_closers s)
    (_ignoredPaths s) (_throttled s) (throttleMaps s) (_symlinkPaths s)
    (_streams s) (_pendingUnlinks s) (_pendingWrites s) v (_readyCount s)
    (readyCalls s) (_readyEmitted s) (_emitReady s) (listeners s) (timers s)
    (ticks s) (inflight s) (released s) (nextId s) (emitted s).

Definition set_readyCount (v : option Z) (s : FSWatcher) : FSWatcher :=
  mkFSWatcher (closed s) (options s) (_watched s) (_closers s)
    (_ignoredPaths s) (_throttled s) (throttleMaps s) (_symlinkPaths s)
    (_streams s) (_pendingUnlinks s) (_pendingWrites s) (_userIgnored s) v
    (readyCalls s) (_readyEmitted s) (_emitReady s) (listeners s) (timers s)
    (ticks s) (inflight s) (released s) (nextId s) (emitted s).

Definition set_readyCalls (v : Z) (s : FSWatcher) : FSWatcher :=
  mkFSWatcher (closed s) (options s) (_watched s) (_closers s)
    (_ignoredPaths s) (_throttled s) (throttleMaps s) (_symlinkPaths s)
    (_streams s) (_pendingUnlinks s) (_pendingWrites s) (_userIgnored s)
    (_readyCount s) v (_readyEmitted s) (_emitReady s) (listeners s) (timers
    s) (ticks s) (inflight s) (released s) (nextId s) (emitted s).

Definition set_readyEmitted (v : bool) (s : FSWatcher) : FSWatcher :=
  mkFSWatcher (closed s) (options s) (_watched s) (_closers s)
    (_ignoredPaths s) (_throttled s) (throttleMaps s) (_symlinkPaths s)
    (_streams s) (_pendingUnlinks s) (_pendingWrites s) (_userIgnored s)
    (_readyCount s) (readyCalls s) v (_emitReady s) (listeners s) (timers s)
    (ticks s) (inflight s) (released s) (nextId s) (emitted s).

Definition set_emitReady (v : ReadyFn) (s : FSWatcher) : FSWatcher :=
  mkFSWatcher (closed s) (options s) (_watched s) (_closers s)
    (_ignoredPaths s) (_throttled s) (throttleMaps s) (_symlinkPaths s)
    (_streams s) (_pendingUnlinks s) (_pendingWrites s) (_userIgnored s)
    (_readyCount s) (readyCalls s) (_readyEmitted s) v (listeners s) (timers
    s) (ticks s) (inflight s) (released s) (nextId s) (emitted s).

Definition set_listeners (v : gset string) (s : FSWatcher) : FSWatcher :=
  mkFSWatcher (closed s) (options s) (_watched s) (_closers s)
    (_ignoredPaths s) (_throttled s) (throttleMaps s) (_symlinkPaths s)
    (_streams s) (_pendingUnlinks s) (_pendingWrites s) (_userIgnored s)
    (_readyCount s) (readyCalls s) (_readyEmitted s) (_emitReady s) v
    (timers s) (ticks s) (inflight s) (released s) (nextId s) (emitted s).

Definition set_timers (v : list Timer) (s : FSWatcher) : FSWatcher :=
  mkFSWatcher (closed s) (options s) (_watched s) (_closers s)
    (_ignoredPaths s) (_throttled s) (throttleMaps s) (_symlinkPaths s)
    (_streams s) (_pendingUnlinks s) (_pendingWrites s) (_userIgnored s)
    (_readyCount s) (readyCalls s) (_readyEmitted s) (_emitReady s)
    (listeners s) v (ticks s) (inflight s) (released s) (nextId s) (emitted
    s).

Definition set_ticks (v : list Tick) (s : FSWatcher) : FSWatcher :=
  mkFSWatcher (closed s) (options s) (_watched s) (_closers s)
    (_ignoredPaths s) (_throttled s) (throttleMaps s) (_symlinkPaths s)
    (_streams s) (_pendingUnlinks s) (_pendingWrites s) (_userIgnored s)
    (_readyCount s) (readyCalls s) (_readyEmitted s) (_emitReady s)
    (listeners s) (timers s) v (inflight s) (released s) (nextId s) (emitted
    s).

Definition set_inflight (v : list Pending) (s : FSWatcher) : FSWatcher :=
  mkFSWatcher (closed s) (options s) (_watched s) (_closers s)
    (_ignoredPaths s) (_throttled s) (throttleMaps s) (_symlinkPaths s)
    (_streams s) (_pendingUnlinks s) (_pendingWrites s) (_userIgnored s)
    (_readyCount s) (readyCalls s) (_readyEmitted s) (_emitReady s)
    (listeners s) (timers s) (ticks s) v (released s) (nextId s) (emitted s).

Definition set_released (v : list nat) (s : FSWatcher) : FSWatcher :=
  mkFSWatcher (closed s) (options s) (_watched s) (_closers s)
    (_ignoredPaths s) (_throttled s) (throttleMaps s) (_symlinkPaths s)
    (_streams s) (_pendingUnlinks s) (_pendingWrites s) (_userIgnored s)
    (_readyCount s) (readyCalls s) (_readyEmitted s) (_emitReady s)
    (listeners s) (timers s) (ticks s) (inflight s) v (nextId s) (emitted s).

Definition set_nextId (v : nat) (s : FSWatcher) : FSWatcher :=
  mkFSWatcher (closed s) (options s) (_watched s) (_closers s)
    (_ignoredPaths s) (_throttled s) (throttleMaps s) (_symlinkPaths s)
    (_streams s) (_pendingUnlinks s) (_pendingWrites s) (_userIgnored s)
    (_readyCount s) (readyCalls s) (_readyEmitted s) (_emitReady s)
    (listeners s) (timers s) (ticks s) (inflight s) (released s) v (emitted
    s).

Definition set_emitted (v : list Emission) (s : FSWatcher) : FSWatcher :=
  mkFSWatcher (closed s) (options s) (_watched s) (_closers s)
    (_ignoredPaths s) (_throttled s) (throttleMaps s) (_symlinkPaths s)
    (_streams s) (_pendingUnlinks s) (_pendingWrites s) (_userIgnored s)
    (_readyCount s) (readyCalls s) (_readyEmitted s) (_emitReady s)
    (listeners s) (timers s) (ticks s) (inflight s) (released s) (nextId s)
    v.

(** *** What the watcher takes from its platform

    Node's [path] functions, the platform flag, and the string predicates
    that are compiled from regular expressions of [lib/constants] or come
    from the glob packages. [normalizePathToUnix] is the source's
    composition [toUnix (sysPath.normalize (toUnix p))]; [dotfile] is
    [DOT_RE.test]; [anymatch ignored p] is the matcher [_isIgnored] builds
    from the ignore set and [options.ignored], applied to [p]. *)
Record Platform := mkPlatform {
  isWindows : bool;
  sysPath_normalize : string -> string;
  sysPath_relative : string -> string -> string;
  sysPath_join : string -> string -> string;
  sysPath_isAbsolute : string -> bool;
  normalizePathToUnix : string -> string;
  normalizePath : string -> string;
  isGlob : string -> bool;
  dotfile : string -> bool;
  anymatch : gset string -> string -> bool
}.

(** The [paths_] argument of [add]: a value or an array of such. *)
Inductive PathsArg :=
| PUndefined
| PString (s : string)
| POther (tag : nat)
| PArray (items : list PathsArg).

Section Methods.
Variable P : Platform.

(** **** The event emitter *)

(** [this.emit(ch, ...pl)] *)
Definition emit (ch : string) (pl : list Val) (s : FSWatcher) : FSWatcher :=
  set_emitted (emitted s ++ [mkEmission ch pl (bool_decide (ch ∈ listeners s))]) s.

(** [this.emit(...args)]: the first element names the channel. *)
Definition emit_spread (args : list Val) (s : FSWatcher) : FSWatcher :=
  match args with
  | VStr ch :: pl => emit ch pl s
  | _ => s
  end.

(** [this.on(ch, handler)] *)
Definition on (ch : string) (s : FSWatcher) : FSWatcher :=
  set_listeners ({[ch]} ∪ listeners s) s.

(** Node's emitter throws when [error] is emitted while no handler listens
    on it. The call is logged all the same, with [heard = false]; what the
    caller would have done next does not happen. *)
Definition emit_throws (ch : string) (s : FSWatcher) : bool :=
  String.eqb ch EV_ERROR && negb (bool_decide (EV_ERROR ∈ listeners s)).

Definition spread_throws (args : list Val) (s : FSWatcher) : bool :=
  match args with
  | VStr ch :: _ => emit_throws ch s
  | _ => false
  end.

(** [emitWithAll(event, args)]; a throw of the first [emit] leaves through
    the caller, for which this call is the last thing it does. *)
Definition emitWithAll (event : string) (args : list Val) (s : FSWatcher) : FSWatcher :=
  let s1 := emit_spread args s in
  if spread_throws args s then s1
  else if String.eqb event EV_ERROR then s1 else emit EV_ALL args s1.

(** [this._emitRaw = (...args) => this.emit(EV_RAW, ...args)] *)
Definition _emitRaw (args : list Val) (s : FSWatcher) : FSWatcher :=
  emit EV_RAW args s.

(** **** Errors *)

Definition code_is (c : string) (e : JsError) : bool :=
  match code e with
  | Some c' => String.eqb c' c
  | None => false
  end.

(** The test of [_handleError] on a truthy [error]. *)
Definition surfaced (o : Options) (e : JsError) : bool :=
  negb (code_is "ENOENT" e) && negb (code_is "ENOTDIR" e) &&
  (negb (ignorePermissionErrors o) ||
   (negb (code_is "EPERM" e) && negb (code_is "EACCES" e))).

(** [_handleError(error)]; the result is the truthiness of
    [error || this.closed], unless the emission throws: the exception is the
    error itself, recorded under the name of the base class. *)
Definition _handleError (error : option JsError) (s : FSWatcher)
  : Completion bool * FSWatcher :=
  match error with
  | Some e =>
      if surfaced (options s) e
      then (if emit_throws EV_ERROR s then Throw "Error" else Normal true,
            emit EV_ERROR [VErr e] s)
      else (Normal true, s)
  | None => (Normal (closed s), s)
  end.

(** **** Readiness *)

(** The body of the closure the constructor stores in [_emitReady].
    [readyCalls >= this._readyCount] is false while [_readyCount] is not a
    number. *)
Definition readyClosure (s : FSWatcher) : FSWatcher :=
  let calls := readyCalls s + 1 in
  let s1 := set_readyCalls calls s in
  match _readyCount s1 with
  | Some target =>
      if target <=? calls
      then set_ticks (ticks s1 ++ [TickEmitReady])
             (set_readyEmitted true (set_emitReady EMPTY_FN s1))
      else s1
  | None => s1
  end.

(** Calling a function value that was read from [_emitReady]. *)
Definition call_ready (f : ReadyFn) (s : FSWatcher) : FSWatcher :=
  match f with
  | ReadyClosure => readyClosure s
  | EMPTY_FN => s
  end.

(** [this._emitReady()]: read the field, then call. *)
Definition call_emitReady (s : FSWatcher) : FSWatcher :=
  call_ready (_emitReady s) s.

(** [this._readyCount++]; on a non-number the result is [NaN], again not a
    number. *)
Definition _incrReadyCount (s : FSWatcher) : FSWatcher :=
  set_readyCount (option_map (fun n => n + 1) (_readyCount s)) s.

(** Running one [process.nextTick] callback. *)
Definition run_tick (s : FSWatcher) : FSWatcher :=
  match ticks s with
  | TickEmitReady :: rest => emit EV_READY [] (set_ticks rest s)
  | [] => s
  end.

(** **** Timers *)

Definition clearTimeout (id : nat) (s : FSWatcher) : FSWatcher :=
  set_timers (filter (fun t => tid t ≠ id) (timers s)) s.

(** [setTimeout(task, delay)] at time [now]; returns the handle. *)
Definition setTimeout (now : Z) (tk : Task) (delay : Z) (s : FSWatcher) : nat * FSWatcher :=
  let id := nextId s in
  (id, set_nextId (S id) (set_timers (timers s ++ [mkTimer id (now + delay) tk]) s)).

(** **** The throttle table *)

Definition actionMap_of (m : nat) (s : FSWatcher) : gmap string Throttle :=
  default ∅ (throttleMaps s !! m).

(** The [clear] closure of a slot, over its map [m], its [path] and its own
    timer [own]; returns the slot's count. *)
Definition throttle_clear (m : nat) (path : string) (own : nat) (s : FSWatcher) : Z * FSWatcher :=
  let item := actionMap_of m s !! path in
  let cnt := match item with Some i => count i | None => 0 end in
  let s1 := set_throttleMaps (<[m := delete path (actionMap_of m s)]> (throttleMaps s)) s in
  let s2 := clearTimeout own s1 in
  let s3 := match item with Some i => clearTimeout (timeoutObject i) s2 | None => s2 end in
  (cnt, s3).

(** [_throttle(actionType, path, timeout)] at time [now]. The result is the
    fresh slot together with the identity of its map and its timer, or
    [None] for [false]. *)
Definition _throttle (now : Z) (actionType path : string) (timeout : Z) (s : FSWatcher)
  : option (nat * Throttle) * FSWatcher :=
  let '(m, s1) :=
    match _throttled s !! actionType with
    | Some m => (m, s)
    | None =>
        let m := nextId s in
        (m, set_nextId (S m)
              (set_throttled (<[actionType := m]> (_throttled s))
                 (set_throttleMaps (<[m := ∅]> (throttleMaps s)) s)))
    end in
  let actionMap := actionMap_of m s1 in
  match actionMap !! path with
  | Some existing =>
      (None,
       set_throttleMaps
         (<[m := <[path := mkThrottle (timeoutObject existing) (count existing + 1)]> actionMap]>
            (throttleMaps s1)) s1)
  | None =>
      let '(t, s2) := setTimeout now (ThrottleClear m path) timeout s1 in
      let thr := mkThrottle t 0 in
      (Some (m, thr),
       set_throttleMaps (<[m := <[path := thr]> actionMap]> (throttleMaps s2)) s2)
  end.

(** The slot currently held for [(actionType, path)], if any. *)
Definition throttle_slot (actionType path : string) (s : FSWatcher) : option Throttle :=
  match _throttled s !! actionType with
  | Some m => actionMap_of m s !! path
  | None => None
  end.

(** **** The write-settle tracker *)

(** [awfEmit(err)] of [_emit]: the event becomes an error event whose second
    argument is the error. The array always holds the event and the path, so
    both positions exist. *)
Definition awfEmit_error (args : list Val) (err : JsError) (s : FSWatcher) : FSWatcher :=
  emitWithAll EV_ERROR (<[1%nat := VErr err]> (<[0%nat := VStr EV_ERROR]> args)) s.

(** [awfEmit(undefined, stats)] of [_emit]: the stat record takes the third
    position of the arguments. *)
Definition awfEmit_stats (event : string) (args : list Val) (st : Stats.t) (s : FSWatcher) : FSWatcher :=
  let args' :=
    if (2 <? length args)%nat then <[2%nat := VStats st]> args else args ++ [VStats st] in
  emitWithAll event args' s.



(** [_awaitWriteFinish(path, threshold, event, awfEmit)] at time [now];
    [awf] is [this.options.awaitWriteFinish], which the caller has tested,
    and [args] is the array [awfEmit] closes over. *)
Definition _awaitWriteFinish (now : Z) (awf : AwfOptions) (path : string) (threshold : Z)
    (event : string) (args : list Val) (s : FSWatcher) : FSWatcher :=
  let fullPath :=
    match cwd_truthy (options s) with
    | Some c => if sysPath_isAbsolute P path then path else sysPath_join P c path
    | None => path
    end in
  match _pendingWrites s !! path with
  | Some _ => s
  | None =>
      let inv := nextId s in
      let ctx := mkAwfCtx inv path fullPath threshold (pollInterval awf) event args in
      let s1 := set_nextId (S inv) s in
      let s2 := set_pendingWrites
                  (<[path := mkPendingWrite now inv event]> (_pendingWrites s1)) s1 in
      snd (setTimeout now (Poll ctx None) (pollInterval awf) s2)
  end.

(** The callback [poll] passes to [fs.stat], run at time [nowNum] with the
    outcome [res] of the stat. *)
Definition poll_callback (ctx : AwfCtx) (prevStat : option Stats.t) (res : StatResult)
    (nowNum : Z) (s : FSWatcher) : FSWatcher :=
  match res with
  | StatErr err =>
      if negb (code_is "ENOENT" err) then awfEmit_error (awf_args ctx) err s else s
  | StatOk curStat =>
      match _pendingWrites s !! awf_path ctx with
      | None => s
      | Some pw0 =>
          let pw :=
            match prevStat with
            | Some prev =>
                if negb (Stats.size curStat =? Stats.size prev)
                then mkPendingWrite nowNum (cancel_invocation pw0) (cancel_event pw0)
                else pw0
            | None => pw0
            end in
          let dt := nowNum - lastChange pw in
          if awf_threshold ctx <=? dt
          then awfEmit_stats (awf_event ctx) (awf_args ctx) curStat
                 (set_pendingWrites (delete (awf_path ctx) (_pendingWrites s)) s)
          else snd (setTimeout nowNum (Poll ctx (Some curStat)) (awf_pollInterval ctx)
                      (set_pendingWrites (<[awf_path ctx := pw]> (_pendingWrites s)) s))
      end
  end.

(** **** Pending unlinks *)

(** The callback armed by an [unlink] under [atomic]: every slot present
    when it runs is emitted on its channel and on [all], then removed; a
    throwing [emit] ends the callback. *)
Fixpoint drain_entries (entries : list (string * list Val)) (s : FSWatcher) : FSWatcher :=
  match entries with
  | [] => s
  | (pth, entry) :: rest =>
      let s1 := emit_spread entry s in
      if spread_throws entry s then s1 else
      let s2 := emit EV_ALL entry s1 in
      drain_entries rest (set_pendingUnlinks (omap_delete pth (_pendingUnlinks s2)) s2)
  end.

Definition drain_unlinks (s : FSWatcher) : FSWatcher :=
  drain_entries (_pendingUnlinks s) s.

(** **** The emission pipeline *)

(** The path as reported to the user. *)
Definition user_path (o : Options) (path : string) : string :=
  let path := if isWindows P then sysPath_normalize P path else path in
  match cwd_truthy o with
  | Some c => sysPath_relative P c path
  | None => path
  end.

(** The values pushed after the event and the path: those up to the last
    defined one. *)
Definition extra_args (val1 val2 val3 : Val) : list Val :=
  if negb (is_undefined val3) then [val1; val2; val3]
  else if negb (is_undefined val2) then [val1; val2]
  else if negb (is_undefined val1) then [val1]
  else [].

Definition build_args (event path : string) (val1 val2 val3 : Val) : list Val :=
  [VStr event; VStr path] ++ extra_args val1 val2 val3.

(** [_emit] either returns, or is suspended on the [stat] of [alwaysStat];
    the suspended call is queued in [inflight] and resumed by
    [_emit_resume]. *)
Definition wants_stat (o : Options) (event : string) (val1 : Val) : bool :=
  alwaysStat o && is_undefined val1 &&
  (String.eqb event EV_ADD || String.eqb event EV_ADD_DIR || String.eqb event EV_CHANGE).

(** Steps of [_emit] from the throttle on. *)
Definition _emit_tail (now : Z) (event path : string) (args : list Val) (val1 : Val)
    (s : FSWatcher) : FSWatcher :=
  let '(isThrottled, s1) :=
    if String.eqb event EV_CHANGE
    then match _throttle now EV_CHANGE path 50 s with
         | (Some _, s') => (false, s')
         | (None, s') => (true, s')
         end
    else (false, s) in
  if isThrottled then s1
  else if wants_stat (options s1) event val1
  then set_inflight (inflight s1 ++ [PendEmit event args]) s1
  else emitWithAll event args s1.

(** Steps of [_emit] after the atomic block. *)
Definition _emit_settle (now : Z) (event path : string) (args : list Val) (val1 : Val)
    (s : FSWatcher) : FSWatcher :=
  match awaitWriteFinish (options s) with
  | Some awf =>
      if (String.eqb event EV_ADD || String.eqb event EV_CHANGE) && _readyEmitted s
      then _awaitWriteFinish now awf path (stabilityThreshold awf) event args s
      else _emit_tail now event path args val1 s
  | None => _emit_tail now event path args val1 s
  end.

(** The atomic block of [_emit] and what follows it. *)
Definition _emit_atomic (now : Z) (event path : string) (args : list Val) (val1 : Val)
    (s : FSWatcher) : FSWatcher :=
  let opts := options s in
  if atomic_truthy (atomic opts) then
    if String.eqb event EV_UNLINK then
      let s1 := set_pendingUnlinks (omap_set path args (_pendingUnlinks s)) s in
      snd (setTimeout now DrainUnlinks (atomic_delay (atomic opts)) s1)
    else if String.eqb event EV_ADD && omap_has path (_pendingUnlinks s) then
      _emit_settle now EV_CHANGE path (<[0%nat := VStr EV_CHANGE]> args) val1
        (set_pendingUnlinks (omap_delete path (_pendingUnlinks s)) s)
    else _emit_settle now event path args val1 s
  else _emit_settle now event path args val1 s.

Definition _emit (now : Z) (event path : string) (val1 val2 val3 : Val) (s : FSWatcher)
  : FSWatcher :=
  if closed s then s else
  let opts := options s in
  let path := user_path opts path in
  let args := build_args event path val1 val2 val3 in
  match awaitWriteFinish opts, _pendingWrites s !! path with
  | Some _, Some pw =>
      set_pendingWrites
        (<[path := mkPendingWrite now (cancel_invocation pw) (cancel_event pw)]>
           (_pendingWrites s)) s
  | _, _ => _emit_atomic now event path args val1 s
  end.

(** The rest of [_emit] once the [stat] of [alwaysStat] has settled;
    a rejected [stat] leaves [stats] undefined. *)
Definition _emit_resume (event : string) (args : list Val) (res : StatResult) (s : FSWatcher)
  : FSWatcher :=
  match res with
  | StatErr _ => s
  | StatOk st => if closed s then s else emitWithAll event (args ++ [VStats st]) s
  end.

(** **** Ignoring *)

(** [_isIgnored(path)]; the composite matcher is built from the ignore set on
    first use and cached in [_userIgnored] until that is reset. *)
Definition _isIgnored (path : string) (s : FSWatcher) : bool * FSWatcher :=
  if atomic_truthy (atomic (options s)) && dotfile P path then (true, s)
  else
    match _userIgnored s with
    | Some snapshot => (anymatch P snapshot path, s)
    | None =>
        (anymatch P (_ignoredPaths s) path,
         set_userIgnored (Some (_ignoredPaths s)) s)
    end.

(** **** [add] *)

(** [flatten(arrify(paths_))] *)
Fixpoint flatten_item (x : PathsArg) : list PathsArg :=
  match x with
  | PArray items =>
      (fix go (l : list PathsArg) : list PathsArg :=
         match l with
         | [] => []
         | y :: l' => flatten_item y ++ go l'
         end) items
  | _ => [x]
  end.

Definition arrify (val : PathsArg) : list PathsArg :=
  match val with
  | PUndefined => []
  | PArray items => items
  | _ => [val]
  end.

Definition flatten (l : list PathsArg) : list PathsArg :=
  concat (map flatten_item l).

Definition string_of (x : PathsArg) : option string :=
  match x with
  | PString s => Some s
  | _ => None
  end.

Definition unifyPaths (paths_ : PathsArg) : Completion (list string) :=
  let paths := flatten (arrify paths_) in
  if forallb (fun p => bool_decide (is_Some (string_of p))) paths
  then Normal (normalizePathToUnix P <$> omap string_of paths)
  else Throw "TypeError".

(** [p.startsWith(BANG)] with [p.slice(1)]; [BANG] is the negation mark
    ['!'], and [SLASH_GLOBSTAR] below is ['/**']. *)
Definition negated (p : string) : option string :=
  match p with
  | String c rest => if Ascii.eqb c "!"%char then Some rest else None
  | EmptyString => None
  end.

Definition getAbsolutePath (path cwd : string) : string :=
  if sysPath_isAbsolute P path then path
  else match negated path with
       | Some rest => String.append "!" (sysPath_join P cwd rest)
       | None => sysPath_join P cwd path
       end.

(** The [filter] over the paths of [add]: a negated path goes to the ignore
    set; any other path is taken off it and resets the cached matcher. *)
Fixpoint filter_negated (paths : list string) (s : FSWatcher) : list string * FSWatcher :=
  match paths with
  | [] => ([], s)
  | p :: rest =>
      match negated p with
      | Some q =>
          filter_negated rest (set_ignoredPaths ({[q]} ∪ _ignoredPaths s) s)
      | None =>
          let s1 := set_userIgnored None
                      (set_ignoredPaths (_ignoredPaths s ∖ {[p]} ∖ {[String.append p "/**"]}) s) in
          let '(kept, s2) := filter_negated rest s1 in
          (p :: kept, s2)
      end
  end.

(** The synchronous start of [_addToNodeFs(pathArg, ...)], up to its first
    [await]: the handler keeps the function it reads from [_emitReady], calls
    it at once for an ignored path or a closed watcher, and is otherwise
    suspended on the [stat] of the path. *)
Definition _addToNodeFs_start (pathArg : string) (s : FSWatcher) : FSWatcher :=
  let ready := _emitReady s in
  let '(ign, s1) := _isIgnored pathArg s in
  if ign || closed s1 then call_ready ready s1
  else set_inflight (inflight s1 ++ [PendAddToNodeFs pathArg ready]) s1.

Definition not_a_number_or_zero (n : option Z) : bool :=
  match n with
  | Some k => k =? 0
  | None => true
  end.

(** [add(paths_)], synchronous part. The asynchronous continuation of each
    path is resumed by [_addToNodeFs_settle]; under the native-event backend
    the per-path work belongs to that backend and only the readiness target
    is set here. *)
Definition add (paths_ : PathsArg) (s : FSWatcher) : Completion (list string) * FSWatcher :=
  let s0 := set_closed false s in
  match unifyPaths paths_ with
  | Throw e => (Throw e, s0)
  | Normal paths =>
      let paths :=
        match cwd_truthy (options s0) with
        | Some c =>
            (fun p =>
               let absPath := getAbsolutePath p c in
               if disableGlobbing (options s0) || negb (isGlob P p) then absPath
               else normalizePath P absPath) <$> paths
        | None => paths
        end in
      let '(paths, s1) := filter_negated paths s0 in
      let n := Z.of_nat (length paths) in
      if useFsEvents (options s1) then
        let c0 := if not_a_number_or_zero (_readyCount s1) then n
                  else default 0 (_readyCount s1) in
        let c1 := if persistent (options s1) then c0 + n else c0 in
        (Normal paths, set_readyCount (Some c1) s1)
      else
        let c0 := if not_a_number_or_zero (_readyCount s1) then 0
                  else default 0 (_readyCount s1) in
        let s2 := set_readyCount (Some (c0 + n)) s1 in
        (Normal paths, foldl (fun acc p => _addToNodeFs_start p acc) s2 paths)
  end.

Definition _addPathCloser (path : string) (closer : option nat) (s : FSWatcher) : FSWatcher :=
  match closer with
  | None => s
  | Some c => set_closers (<[path := default [] (_closers s !! path) ++ [c]]> (_closers s)) s
  end.

(** How the suspended part of [_addToNodeFs] goes on: the [stat] rejects;
    or it resolves and the path turns out ignored; or it resolves and a
    handler sets the watch up, yielding a closer. The handlers' own calls
    into the watcher ([_emit], [_throttle], readiness calls for discovered
    directories) are separate steps. *)
Inductive AddOutcome :=
| AddStatRejected (err : JsError)
| AddIgnored
| AddHandled (closer : option nat).

(** The rest of [_addToNodeFs] and of the [async] arrow of [add] that awaits
    it: a truthy result (the path, after a rejected [stat]) makes [add] call
    [this._emitReady()] once more. When [_handleError] throws inside the
    [catch] block the promise rejects and neither readiness call is made. *)
Definition _addToNodeFs_settle (pathArg : string) (ready : ReadyFn) (o : AddOutcome)
    (s : FSWatcher) : FSWatcher :=
  match o with
  | AddStatRejected err =>
      match _handleError (Some err) s with
      | (Normal truthy, s1) =>
          if truthy then call_emitReady (call_ready ready s1) else s1
      | (Throw _, s1) => s1
      end
  | AddIgnored =>
      if closed s then s else call_ready ready s
  | AddHandled closer =>
      if closed s then s else _addPathCloser pathArg closer (call_ready ready s)
  end.

(** **** [close] *)

Definition close (s : FSWatcher) : FSWatcher :=
  if closed s then s else
  let s1 := set_listeners ∅ (set_closed true s) in
  let s2 := set_released (released s1 ++ concat (snd <$> map_to_list (_closers s1))) s1 in
  let s3 := set_readyEmitted false (set_readyCount (Some 0) (set_userIgnored None s2)) in
  set_throttled ∅
    (set_symlinkPaths ∅ (set_streams ∅ (set_watched ∅ (set_closers ∅ s3)))).

(** **** The constructor *)

Definition new_FSWatcher (o : Options) : FSWatcher :=
  mkFSWatcher false o ∅ ∅ ∅ ∅ ∅ ∅ ∅ [] ∅ None None 0 false ReadyClosure ∅ [] [] [] [] 0%nat [].

(** **** The event loop

    One step is a call from outside (a backend handing an event to [_emit],
    the user calling [add], [close] or [on]), a timer firing, a
    [process.nextTick] callback, or the settling of a suspended call. *)
Inductive Op :=
| OpEmit (now : Z) (event path : string) (val1 val2 val3 : Val)
| OpEmitRaw (args : list Val)
| OpAdd (paths_ : PathsArg)
| OpClose
| OpOn (ch : string)
| OpHandleError (error : option JsError)
| OpEmitReady
| OpIncrReadyCount
| OpTick
| OpFire (id : nat)
| OpStat (i : nat) (res : StatResult) (now : Z)
| OpAddSettle (i : nat) (o : AddOutcome).

Definition fire (id : nat) (s : FSWatcher) : FSWatcher :=
  match List.find (fun t => Nat.eqb (tid t) id) (timers s) with
  | None => s
  | Some t =>
      let s1 := clearTimeout id s in
      match task t with
      | DrainUnlinks => drain_unlinks s1
      | ThrottleClear m path => snd (throttle_clear m path id s1)
      | Poll ctx prevStat => set_inflight (inflight s1 ++ [PendPoll ctx prevStat]) s1
      end
  end.

Definition settle_stat (i : nat) (res : StatResult) (now : Z) (s : FSWatcher) : FSWatcher :=
  match inflight s !! i with
  | Some (PendPoll ctx prevStat) =>
      poll_callback ctx prevStat res now (set_inflight (delete i (inflight s)) s)
  | Some (PendEmit event args) =>
      _emit_resume event args res (set_inflight (delete i (inflight s)) s)
  | _ => s
  end.

Definition settle_add (i : nat) (o : AddOutcome) (s : FSWatcher) : FSWatcher :=
  match inflight s !! i with
  | Some (PendAddToNodeFs pathArg ready) =>
      _addToNodeFs_settle pathArg ready o (set_inflight (delete i (inflight s)) s)
  | _ => s
  end.

Definition step (op : Op) (s : FSWatcher) : FSWatcher :=
  match op with
  | OpEmit now event path val1 val2 val3 => _emit now event path val1 val2 val3 s
  | OpEmitRaw args => _emitRaw args s
  | OpAdd paths_ => snd (add paths_ s)
  | OpClose => close s
  | OpOn ch => on ch s
  | OpHandleError error => snd (_handleError error s)
  | OpEmitReady => call_emitReady s
  | OpIncrReadyCount => _incrReadyCount s
  | OpTick => run_tick s
  | OpFire id => fire id s
  | OpStat i res now => settle_stat i res now s
  | OpAddSettle i o => settle_add i o s
  end.

Definition run (ops : list Op) (s : FSWatcher) : FSWatcher :=
  foldl (fun acc op => step op acc) s ops.

End Methods.

End Watcher.

(** ** The polling listener of the per-directory backend *)

Module Polling.

(** A handler slot of a container: one function, or a [Set] of them in
    insertion order. Functions are named by a number. *)
Inductive SetOrValue :=
| Value (fn : nat)
| SetOf (fns : list nat).

Definition forEachSetOrValue {B : Type} (value : SetOrValue) (callback : nat -> B) : list B :=
  match value with
  | SetOf fns => callback <$> fns
  | Value fn => [callback fn]
  end.

(** [addAsSet(obj, prop, value)] on the slot [obj[prop]]. *)
Definition addAsSet (slot : SetOrValue) (value : nat) : SetOrValue :=
  let fns := match slot with SetOf fns => fns | Value fn => [fn] end in
  SetOf (if bool_decide (value ∈ fns) then fns else fns ++ [value]).

Record WatchOptions := mkWatchOptions { persistent : bool; interval : Z }.

(** The container of one watched file. [pathArg] and [fullPath] are the
    variables the [fs.watchFile] callback closes over: those of the call that
    created the container. *)
Record Container := mkContainer {
  listeners : SetOrValue;
  rawEmitters : SetOrValue;
  options : WatchOptions;
  pathArg : string;
  fullPath : string
}.

(** What the callback does: calls of raw emitters and of listeners. *)
Inductive Call :=
| RawCall (fn : nat) (event path : string) (curr prev : Stats.t)
| ListenerCall (fn : nat) (path : string) (curr : Stats.t).

(** The test of the callback on the two stat records. *)
Definition changed (curr prev : Stats.t) : bool :=
  let currTime := Stats.mtimeMs curr in
  negb (Stats.size curr =? Stats.size prev) ||
  (Stats.mtimeMs prev <? currTime) ||
  (currTime =? 0).

(** The callback [(curr, prev) => ...] given to [fs.watchFile]. *)
Definition watchFile_callback (container : Container) (curr prev : Stats.t) : list Call :=
  forEachSetOrValue (rawEmitters container)
    (fun fn => RawCall fn EV_CHANGE (fullPath container) curr prev) ++
  (if changed curr prev
   then forEachSetOrValue (listeners container)
          (fun fn => ListenerCall fn (pathArg container) curr)
   else []).

Definition lower (a b : bool) : bool := negb a && b.

(** [setFsWatchFileListener(pathArg, fullPath, options, handlers)] on the
    table of containers: an existing container is joined, unless the new
    options ask for persistence or a shorter interval, in which case a new
    container replaces it. *)
Definition setFsWatchFileListener (path full : string) (opts : WatchOptions)
    (listener rawEmitter : nat) (instances : gmap string Container) : gmap string Container :=
  let fresh := mkContainer (Value listener) (Value rawEmitter) opts path full in
  match instances !! full with
  | Some container =>
      if lower (persistent (options container)) (persistent opts) ||
         (interval opts <? interval (options container))
      then <[full := fresh]> instances
      else <[full := mkContainer (addAsSet (listeners container) listener)
                       (addAsSet (rawEmitters container) rawEmitter)
                       (options container) (pathArg container) (fullPath container)]>
             instances
  | None => <[full := fresh]> instances
  end.

Definition is_listener_call (c : Call) : bool :=
  match c with
  | ListenerCall _ _ _ => true
  | RawCall _ _ _ _ _ => false
  end.

Definition listener_calls (calls : list Call) : list Call :=
  List.filter is_listener_call calls.

End Polling.

(** ** Brace expansion *)

Module Braces.

(** *** JavaScript numbers and the values [exceedsLimit] receives *)

(** A number is an IEEE 754 double: [NaN], an infinity, a zero with its
    sign, or a finite number other than zero, kept as the rational it is. *)
Inductive Num :=
| NaN
| Infinity (negative : bool)
| Zero (negative : bool)
| Fin (q : Q).

(** **** Rounding

    The result of an arithmetic operation is the exact result rounded to
    the nearest double, ties going to the even significand. *)

(** [n / d] rounded to the nearest integer, ties to even; [d] is positive. *)
Definition rne (n d : Z) : Z :=
  let f := n / d in
  match 2 * (n mod d) ?= d with
  | Lt => f
  | Gt => f + 1
  | Eq => if Z.even f then f else f + 1
  end.

(** The exponent [E] with [2^E <= n/d < 2^(E+1)], for positive [n] and
    [d]. *)
Definition exponent (n d : Z) : Z :=
  if d <=? n then Z.log2 (n / d) else - Z.log2_up ((d + n - 1) / n).

(** The double nearest to the positive rational [n/d]. With [e] the
    exponent of the unit in the last place of a 53-bit significand, not
    below that of the subnormal numbers, the significand is [n/d/2^e]
    rounded to even; a result of [2^1024] or more is infinite, a significand
    of zero gives zero. *)
Definition round_pos (n d : Z) : Num :=
  let e := Z.max (exponent n d - 52) (-1074) in
  if 0 <=? e then
    let m := rne n (d * 2 ^ e) in
    if 2 ^ 1024 <=? m * 2 ^ e then Infinity false else Fin (inject_Z (m * 2 ^ e))
  else
    let m := rne (n * 2 ^ (- e)) d in
    if m =? 0 then Zero false else Fin (m # Z.to_pos (2 ^ (- e))).

Definition num_opp (a : Num) : Num :=
  match a with
  | NaN => NaN
  | Infinity n => Infinity (negb n)
  | Zero n => Zero (negb n)
  | Fin q => Fin (- q)
  end.

(** The double nearest to an exact result. *)
Definition round (q : Q) : Num :=
  let r := Qred q in
  match Qnum r with
  | Z0 => Zero false
  | Zpos n => round_pos (Zpos n) (Zpos (Qden r))
  | Zneg n => num_opp (round_pos (Zpos n) (Zpos (Qden r)))
  end.

(** The sign bit. *)
Definition negative (a : Num) : bool :=
  match a with
  | NaN => false
  | Infinity n | Zero n => n
  | Fin q => Qnum q <? 0
  end.

(** [Number.isInteger] *)
Definition is_integer (n : Num) : bool :=
  match n with
  | Zero _ => true
  | Fin q => (Qnum q mod Z.pos (Qden q) =? 0)
  | _ => false
  end.

(** [a - b]; equal finite operands give [+0]. *)
Definition num_sub (a b : Num) : Num :=
  match a, b with
  | NaN, _ | _, NaN => NaN
  | Infinity n, Infinity m => if Bool.eqb n m then NaN else Infinity n
  | Infinity n, _ => Infinity n
  | _, Infinity m => Infinity (negb m)
  | Zero n, Zero m => Zero (n && negb m)
  | Zero _, Fin y => Fin (- y)
  | Fin x, Zero _ => Fin x
  | Fin x, Fin y => if Qeq_bool x y then Zero false else round (x - y)
  end.

(** [a / b] *)
Definition num_div (a b : Num) : Num :=
  match a, b with
  | NaN, _ | _, NaN => NaN
  | Infinity _, Infinity _ => NaN
  | Zero _, Zero _ => NaN
  | Infinity n, _ => Infinity (xorb n (negative b))
  | _, Zero m => Infinity (xorb (negative a) m)
  | _, Infinity m => Zero (xorb (negative a) m)
  | Zero n, Fin _ => Zero (xorb n (negative b))
  | Fin x, Fin y => round (x / y)
  end.

(** [a >= b] *)
Definition num_geb (a b : Num) : bool :=
  match a, b with
  | NaN, _ | _, NaN => false
  | Infinity false, _ => true
  | _, Infinity true => true
  | Infinity true, _ => false
  | _, Infinity false => false
  | Zero _, Zero _ => true
  | Zero _, Fin y => Qle_bool y 0
  | Fin x, Zero _ => Qle_bool 0 x
  | Fin x, Fin y => Qle_bool y x
  end.
Inductive JsVal :=
| JUndefined
| JBool (b : bool)
| JString (s : string)
| JNumber (n : Num).

(** *** The syntax tree of [parse] *)

Record Attr := mkAttr {
  type : string;
  value : option string;
  invalid : bool;
  dollar : bool;
  open : bool;
  close : bool;
  commas : Z;
  ranges : Z
}.

(** A node; [nodes] is [None] for a leaf, which has no [nodes] property. *)
Inductive Node :=
| mkNode (a : Attr) (nodes : option (list Node)).

Definition attr (n : Node) : Attr := match n with mkNode a _ => a end.
Definition nodes (n : Node) : option (list Node) := match n with mkNode _ ns => ns end.

(** *** Queue values: strings, numbers produced by a range, nested arrays *)

Inductive QV :=
| QStr (s : string)
| QNum (n : Z)
| QArr (items : list QV).

Fixpoint to_string (v : QV) : string :=
  match v with
  | QStr s => s
  | QNum n => pretty n
  | QArr items =>
      (fix join (l : list QV) : string :=
         match l with
         | [] => ""
         | [x] => to_string x
         | x :: l' => String.append (to_string x) (String.append "," (join l'))
         end) items
  end.

(** [item + val] *)
Definition js_add (item val : QV) : QV :=
  match item, val with
  | QNum x, QNum y => QNum (x + y)
  | _, _ => QStr (String.append (to_string item) (to_string val))
  end.

(** [`{${val}}`] *)
Definition wrap (val : QV) : QV :=
  QStr (String.append "{" (String.append (to_string val) "}")).

(** [[].concat(x)] *)
Definition to_array (x : QV) : list QV :=
  match x with
  | QArr items => items
  | _ => [x]
  end.

(** [utils.flatten] on an array. *)
Fixpoint flatten_value (v : QV) : list QV :=
  match v with
  | QArr items =>
      (fix go (l : list QV) : list QV :=
         match l with
         | [] => []
         | x :: l' => flatten_value x ++ go l'
         end) items
  | _ => [v]
  end.

Definition flatten (l : list QV) : list QV := flatten_value (QArr l).

Section Expand.

(** [Number(s)] on a string, and [s.trim() === ''], as the language defines
    them. *)
Variable Number_of_string : string -> Num.
Variable blank : string -> bool.

(** [fill(...args, options)] of the range-fill package, with the options of
    the current expansion: an array, or an exception of its own. *)
Variable fill : list string -> option (list QV).

Definition to_number (v : JsVal) : Num :=
  match v with
  | JUndefined => NaN
  | JBool true => Fin 1
  | JBool false => Zero false
  | JString s => Number_of_string s
  | JNumber n => n
  end.

(** [utils.isInteger] *)
Definition isInteger (num : JsVal) : bool :=
  match num with
  | JNumber n => is_integer n
  | JString s => negb (blank s) && is_integer (Number_of_string s)
  | _ => false
  end.

(** [utils.exceedsLimit(min, max, step = 1, limit)] *)
Definition exceedsLimit (min max step limit : JsVal) : bool :=
  let step := match step with JUndefined => JNumber (Fin 1) | _ => step end in
  match limit with
  | JBool false => false
  | _ =>
      if negb (isInteger min) || negb (isInteger max) then false
      else
        let total := num_div (num_sub (to_number max) (to_number min)) (to_number step) in
        num_geb total (to_number limit)
  end.

(** [utils.exceedsLimit(...args, options.step, rangeLimit)]: the arguments
    are bound by position. *)
Definition exceedsLimit_spread (args : list string) (step rangeLimit : JsVal) : bool :=
  let actuals := (JString <$> args) ++ [step; rangeLimit] in
  exceedsLimit (default JUndefined (actuals !! 0%nat)) (default JUndefined (actuals !! 1%nat))
    (default JUndefined (actuals !! 2%nat)) (default JUndefined (actuals !! 3%nat)).

Record Options := mkOptions {
  rangeLimit : JsVal;
  step : JsVal;
  escapeInvalid : bool
}.

Variable options : Options.

(** *** [stringify] *)

Definition is_type (t : string) (a : Attr) : bool := String.eqb (type a) t.

Definition isInvalidBrace (parent : option Attr) : bool :=
  match parent with
  | None => false
  | Some a =>
      if negb (is_type "brace" a) then false
      else if invalid a || dollar a then true
      else if commas a + ranges a =? 0 then true
      else negb (open a) || negb (close a)
  end.

Definition isOpenOrClose (a : Attr) : bool :=
  is_type "open" a || is_type "close" a || open a || close a.

Definition truthy_value (a : Attr) : option string :=
  match value a with
  | Some v => if String.eqb v "" then None else Some v
  | None => None
  end.

Fixpoint stringify_node (parent : option Attr) (node : Node) : string :=
  match node with
  | mkNode a ns =>
      let blockIsInvalid := escapeInvalid options && isInvalidBrace parent in
      let nodeIsInvalid := escapeInvalid options && invalid a in
      match truthy_value a with
      | Some v =>
          if (blockIsInvalid || nodeIsInvalid) && isOpenOrClose a
          then String.append "\" v else v
      | None =>
          match ns with
          | Some children =>
              (fix go (l : list Node) : string :=
                 match l with
                 | [] => ""
                 | child :: l' => String.append (stringify_node (Some a) child) (go l')
                 end) children
          | None => ""
          end
      end
  end.

Definition stringify (ast : Node) : string := stringify_node None ast.

(** *** [append] *)

(** What one non-array [item] of the queue contributes for one element
    [val] of the stash, after the final [flatten]. *)
Fixpoint append_leaf (enclose : bool) (item : QV) (val : QV) : list QV :=
  match val with
  | QArr vals =>
      match vals with
      | [] => [item]
      | _ =>
          (fix go (l : list QV) : list QV :=
             match l with
             | [] => []
             | v :: l' => append_leaf enclose item v ++ go l'
             end) vals
      end
  | QStr _ => [js_add item (if enclose then wrap val else val)]
  | QNum _ => [js_add item val]
  end.

(** The result of [append] on an empty queue, flattened. *)
Definition append_base (enclose : bool) (stash : list QV) : list QV :=
  if enclose then wrap <$> flatten stash else flatten stash.

(** What one element of the queue contributes, after the final [flatten].
    With [as_queue] the element is the [queue] argument of a nested call of
    [append] (an array stands for its elements, an empty one for an empty
    queue); without it the element is an item of the loop. *)
Fixpoint append_item (enclose : bool) (stash : list QV) (as_queue : bool) (item : QV)
  : list QV :=
  match item with
  | QArr values =>
      match as_queue, values with
      | true, [] => append_base enclose stash
      | _, _ =>
          (fix go (l : list QV) : list QV :=
             match l with
             | [] => []
             | v :: l' => append_item enclose stash (negb as_queue) v ++ go l'
             end) values
      end
  | _ => concat (append_leaf enclose item <$> stash)
  end.

(** [append(queue, stash, enclose)] *)
Definition append (queue stash : QV) (enclose : bool) : list QV :=
  let queue := to_array queue in
  let stash := to_array stash in
  match stash, queue with
  | [], _ => queue
  | _, [] => if enclose then wrap <$> flatten stash else stash
  | _, _ => concat (append_item enclose stash false <$> queue)
  end.

(** [q.push(append(q.pop(), stash, enclose))]; [pop] on an empty array gives
    [undefined], for which [append] takes its default [''] . *)
Definition pop (q : list QV) : QV * list QV :=
  (default (QStr "") (last q), removelast q).

Definition push_append (q : list QV) (stash : QV) (enclose : bool) : list QV :=
  let '(x, q') := pop q in
  q' ++ [QArr (append x stash enclose)].

(** *** [expand] *)

(** [utils.reduce(node.nodes)]: the values of the text nodes. *)
Definition reduce (children : list Node) : list string :=
  omap (fun n => if is_type "text" (attr n) then Some (default "" (value (attr n))) else None)
    children.

(** [utils.encloseBrace] *)
Definition encloseBrace (a : Attr) : bool :=
  is_type "brace" a && (commas a + ranges a =? 0).

Definition effective_rangeLimit : JsVal :=
  match rangeLimit options with
  | JUndefined => JNumber (Fin 1000)
  | l => l
  end.

(** The queues a node works on: [q], the queue of the enclosing brace or
    root, and the node's block queue, which is its own for a brace or the
    root and is [q] itself for any other node. *)
Record Queues := mkQueues { outer : list QV; own : option (list QV) }.

Definition block_queue (st : Queues) : list QV := default (outer st) (own st).

Definition update_block (f : list QV -> list QV) (st : Queues) : Queues :=
  match own st with
  | Some queue => mkQueues (outer st) (Some (f queue))
  | None => mkQueues (f (outer st)) None
  end.

(** The loop of [walk] over the children of a node with attributes [a];
    [rec] is [walk] itself, called on the children that have children. *)
Definition walk_children (rec : Node -> list QV -> Completion (list QV * list QV))
    (a : Attr) (enclose : bool) : list Node -> nat -> Queues -> Completion Queues :=
  fix loop (l : list Node) (i : nat) (st : Queues) : Completion Queues :=
    match l with
    | [] => Normal st
    | child :: l' =>
        let c := attr child in
        if is_type "comma" c && is_type "brace" a then
          loop l' (S i)
            (update_block
               (fun queue =>
                  (if Nat.eqb i 1 then queue ++ [QStr ""] else queue) ++ [QStr ""]) st)
        else if is_type "close" c then
          let '(x, q1) := pop (outer st) in
          let queue := default q1 (own st) in
          loop l' (S i)
            (mkQueues (q1 ++ [QArr (append x (QArr queue) enclose)]) (own st))
        else
          match truthy_value c, is_type "open" c with
          | Some v, false =>
              loop l' (S i)
                (update_block (fun queue => push_append queue (QStr v) false) st)
          | _, _ =>
              match nodes child with
              | Some _ =>
                  match rec child (block_queue st) with
                  | Throw e => Throw e
                  | Normal (q', _) => loop l' (S i) (update_block (fun _ => q') st)
                  end
              | None => loop l' (S i) st
              end
          end
    end.

(** The range branch of [walk] on the children of a range node; [literal]
    is [stringify(node, options)]. *)
Definition walk_range (children : list Node) (literal : string) (q : list QV)
  : Completion (list QV * list QV) :=
  let args := reduce children in
  if exceedsLimit_spread args (step options) effective_rangeLimit
  then Throw "RangeError"
  else
    match fill args with
    | None => Throw "fill"
    | Some range =>
        let range := match range with
                     | [] => QStr literal
                     | _ => QArr range
                     end in
        Normal (push_append q range false, [])
    end.

(** [walk(node, parent)] with [q] found from [parent]; returns [q] and the
    queue [walk] returns. *)
Fixpoint walk (node : Node) (q : list QV) {struct node} : Completion (list QV * list QV) :=
  match node with
  | mkNode a ns =>
      if invalid a || dollar a
      then Normal (push_append q (QStr (stringify node)) false, [])
      else if is_type "brace" a && negb (invalid a) &&
              bool_decide (length (default [] ns) = 2%nat)
      then Normal (push_append q (QArr [QStr "{}"]) false, [])
      else
        match ns with
        | None => Throw "TypeError"
        | Some children =>
            if 0 <? ranges a then walk_range children (stringify node) q
            else
              let st0 :=
                if is_type "brace" a || is_type "root" a
                then mkQueues q (Some []) else mkQueues q None in
              match walk_children walk a (encloseBrace a) children 0%nat st0 with
              | Throw e => Throw e
              | Normal st => Normal (outer st, block_queue st)
              end
        end
  end.

(** [expand(ast, options)]. The root has no enclosing queue; it never
    touches one, having no [close] child. *)
Definition expand (ast : Node) : Completion (list QV) :=
  match walk ast [] with
  | Throw e => Throw e
  | Normal (_, queue) => Normal (flatten queue)
  end.

End Expand.

End Braces.

(** ** Concrete settings used by the examples *)

Module Scenarios.
Import Watcher.

(** A POSIX platform on which the example paths are already normal. *)
Definition posix : Platform :=
  mkPlatform false
    (fun p => p)
    (fun _ p => p)
    (fun a b => String.append a (String.append "/" b))
    (fun p => match p with String "/" _ => true | _ => false end)
    (fun p => p)
    (fun p => p)
    (fun _ => false)
    (fun p => match p with String "." _ => true | _ => false end)
    (fun ignored p => bool_decide (p ∈ ignored)).

(** The per-directory backend with nothing else set. *)
Definition plain : Options :=
  mkOptions None (AtomicBool false) None false false false true false false.

Definition with_atomic : Options :=
  mkOptions None (AtomicBool true) None false false false true false false.

Definition with_awf (threshold interval : Z) : Options :=
  mkOptions None (AtomicBool false) (Some (mkAwf threshold interval))
    false false false true false false.

Definition with_atomic_awf (threshold interval : Z) : Options :=
  mkOptions None (AtomicBool true) (Some (mkAwf threshold interval))
    false false false true false false.

Definition ENOENT : JsError := mkError (Some "ENOENT").

Definition emit_at (now : Z) (event path : string) : Op :=
  OpEmit now event path VUndef VUndef VUndef.

(** A watcher on one file that has become ready. *)
Definition ready_on (o : Options) (path : string) : FSWatcher :=
  run posix [OpAdd (PString path); OpAddSettle 0 (AddHandled None); OpTick] (new_FSWatcher o).

(** An editor's save under [atomic] shortly after a change of the same
    file: [change T/c], then [unlink T/c] and [add T/c]. *)
Definition save_after_change : FSWatcher :=
  run posix [emit_at 0 EV_CHANGE "T/c"; emit_at 10 EV_UNLINK "T/c"] (ready_on with_atomic "T").


(** A watcher with threshold 200 and poll interval 50 that withheld an [add]
    at time 0 and has polled at 50, 100 and 150, finding the same size each
    time; the poll due at 200 has fired and its stat is in flight. *)
Definition settling_ops : list Op :=
  [OpAdd (PString "T"); OpAddSettle 0 (AddHandled None); OpTick;
   emit_at 0 EV_ADD "T/big";
   OpFire 1; OpStat 0 (StatOk (Stats.mk 10 0)) 50;
   OpFire 2; OpStat 0 (StatOk (Stats.mk 10 0)) 100;
   OpFire 3; OpStat 0 (StatOk (Stats.mk 10 0)) 150;
   OpFire 4].

Definition settling : FSWatcher :=
  run posix settling_ops (new_FSWatcher (with_awf 200 50)).

(** A watcher with two pending slots and their timers, then closed. *)
Definition closed_with_pending : FSWatcher :=
  run posix [emit_at 0 EV_ADD "T/b"; emit_at 5 EV_UNLINK "T/a"; OpClose]
    (ready_on (with_atomic_awf 200 50) "T").




(** [watch(['/t/m1', '/t/m2'])] on the per-directory backend when neither
    path exists: each [stat] is rejected with [ENOENT]. *)
Definition two_missing_paths : FSWatcher :=
  run posix [OpAdd (PArray [PString "/t/m1"; PString "/t/m2"]);
             OpAddSettle 0 (AddStatRejected ENOENT); OpTick;
             OpAddSettle 0 (AddStatRejected ENOENT); OpTick]
    (new_FSWatcher plain).

(** For brace expansion: [Number] on optionally signed decimal integer
    literals, surrounded by white space or not (every other spelling:
    fractions, exponents, other radixes, [Infinity], reads as [NaN] here);
    blank strings; and syntax trees as [parse] builds them. *)
Definition is_space (c : ascii) : bool :=
  let n := nat_of_ascii c in
  ((9 <=? n) && (n <=? 13))%nat || (n =? 32)%nat.

Fixpoint trim_start (s : string) : string :=
  match s with
  | String c rest => if is_space c then trim_start rest else s
  | EmptyString => EmptyString
  end.

Fixpoint trim_end (s : string) : string :=
  match s with
  | EmptyString => EmptyString
  | String c rest =>
      let rest' := trim_end rest in
      if is_space c && String.eqb rest' "" then EmptyString else String c rest'
  end.

Fixpoint digits (s : string) (acc : Z) : option Z :=
  match s with
  | EmptyString => Some acc
  | String c rest =>
      let n := Z.of_nat (nat_of_ascii c) in
      if (48 <=? n) && (n <=? 57) then digits rest (10 * acc + (n - 48)) else None
  end.

Definition unsigned_Number (s : string) : Braces.Num :=
  match s, digits s 0 with
  | String _ _, Some n => if n =? 0 then Braces.Zero false else Braces.round (inject_Z n)
  | _, _ => Braces.NaN
  end.

Definition decimal_Number (s : string) : Braces.Num :=
  match trim_end (trim_start s) with
  | EmptyString => Braces.Zero false
  | String "+" rest => unsigned_Number rest
  | String "-" rest => Braces.num_opp (unsigned_Number rest)
  | t => unsigned_Number t
  end.

Definition blank (s : string) : bool := String.eqb (trim_start s) "".

(** No range is filled in the examples. *)
Definition fill_unused : list string -> option (list Braces.QV) := fun _ => None.

Definition default_options : Braces.Options :=
  Braces.mkOptions Braces.JUndefined Braces.JUndefined false.

Definition leaf (type : string) (value : option string) : Braces.Node :=
  Braces.mkNode (Braces.mkAttr type value false false false false 0 0) None.

Definition text (value : string) : Braces.Node := leaf "text" (Some value).

Definition comma : Braces.Node := leaf "comma" (Some ",").

(** A closed brace with the given counts of commas and ranges. *)
Definition brace (commas ranges : Z) (inner : list Braces.Node) : Braces.Node :=
  Braces.mkNode (Braces.mkAttr "brace" None false false true true commas ranges)
    (Some ([leaf "open" (Some "{")] ++ inner ++ [leaf "close" (Some "}")])).

Definition root (inner : list Braces.Node) : Braces.Node :=
  Braces.mkNode (Braces.mkAttr "root" None false false false false 0 0)
    (Some ([leaf "bos" None] ++ inner ++ [leaf "eos" None])).

(** The tree of [{a,b}]. *)
Definition a_or_b : Braces.Node := brace 1 0 [text "a"; comma; text "b"].

(** The tree of [{a,b}{a,b}{a,b}{a,b}{a,b}{a,b}{a,b}{a,b}{a,b}{a,b}]. *)
Definition ten_alternations : Braces.Node := root (replicate 10 a_or_b).

(** The children of the brace of [{min..max}]. *)
Definition range_children (min max : string) : list Braces.Node :=
  [leaf "open" (Some "{"); text min; leaf "range" (Some ".."); text max;
   leaf "close" (Some "}")].

Definition range_attr : Braces.Attr :=
  Braces.mkAttr "brace" None false false true true 0 1.

End Scenarios.

(** ** Vocabulary of the properties *)

Module Vocabulary.
Import Watcher.

(** The [error] event [_handleError] emits for [e]. *)
Definition error_emission (s : FSWatcher) (e : JsError) : Emission :=
  mkEmission EV_ERROR [VErr e] (bool_decide (EV_ERROR ∈ listeners s)).

(** The emissions on [ready]. *)
Definition ready_emissions (s : FSWatcher) : list Emission :=
  List.filter (fun e => String.eqb (channel e) EV_READY) (emitted s).

(** Timer handles are allocated from [nextId]. *)
Definition handles_allocated (s : FSWatcher) : Prop :=
  Forall (fun t => (tid t < nextId s)%nat) (timers s).

(** The two emissions of an event for [p] with the extra values [vals]: one
    on the event's channel, one on [all]. *)
Definition event_pair (s : FSWatcher) (event p : string) (vals : list Val) : list Emission :=
  [mkEmission event (VStr p :: vals) (bool_decide (event ∈ listeners s));
   mkEmission EV_ALL (VStr event :: VStr p :: vals) (bool_decide (EV_ALL ∈ listeners s))].



(** The two emissions of a [change] event. *)
Definition change_pair (s : FSWatcher) (p : string) (vals : list Val) : list Emission :=
  event_pair s EV_CHANGE p vals.



(** The extra values of an event once the stat record has taken the first
    place among them. *)
Definition with_stat (vals : list Val) (st : Stats.t) : list Val :=
  match vals with
  | [] => [VStats st]
  | _ :: rest => VStats st :: rest
  end.


(** An argument array that starts with the event name [ev]. *)
Definition headed (ev : string) (args : list Val) : Prop :=
  exists rest, args = VStr ev :: rest.








(** The double [x] is the integer [z]. *)
Definition reads_as (x : Braces.Num) (z : Z) : Prop :=
  match x with
  | Braces.Zero _ => z = 0
  | Braces.Fin q => Qeq q (inject_Z z) /\ z <> 0
  | _ => False
  end.

(** The step [exceedsLimit] divides by for a range of two endpoints:
    [options.step], or 1 when that is undefined. *)
Definition effective_step (o : Braces.Options) : Braces.JsVal :=
  match Braces.step o with
  | Braces.JUndefined => Braces.JNumber (Braces.Fin 1)
  | v => v
  end.

(** [walk] takes neither of its two early exits on such a node. *)
Definition walked (a : Braces.Attr) (children : list Braces.Node) : bool :=
  negb (Braces.invalid a || Braces.dollar a) &&
  negb (Braces.is_type "brace" a && negb (Braces.invalid a) &&
        bool_decide (length children = 2%nat)).

(** [walk] takes the range branch on such a node. *)
Definition takes_range (a : Braces.Attr) (children : list Braces.Node) : bool :=
  walked a children && (0 <? Braces.ranges a).

(** [walk] loops over the children of such a node. *)
Definition loops_over (a : Braces.Attr) (children : list Braces.Node) : bool :=
  walked a children && negb (0 <? Braces.ranges a).

(** The loop of [walk] under a parent with attributes [pa] calls [walk] on
    a child with attributes [c] that has children: the child is neither a
    comma of a brace nor a [close], and has no value unless it is an
    [open]. *)
Definition descends (pa c : Braces.Attr) : bool :=
  negb (Braces.is_type "comma" c && Braces.is_type "brace" pa) &&
  negb (Braces.is_type "close" c) &&
  match Braces.truthy_value c with
  | Some _ => Braces.is_type "open" c
  | None => true
  end.

(** A tree without range nodes. *)
Fixpoint no_range (n : Braces.Node) : bool :=
  match n with
  | Braces.mkNode a ns =>
      negb (0 <? Braces.ranges a) &&
      match ns with
      | Some children =>
          (fix all (l : list Braces.Node) : bool :=
             match l with
             | [] => true
             | child :: l' => no_range child && all l'
             end) children
      | None => true
      end
  end.

(** Every range node of the tree has arguments that satisfy [ok]. *)
Fixpoint ranges_all (ok : list string -> bool) (n : Braces.Node) : bool :=
  match n with
  | Braces.mkNode a ns =>
      match ns with
      | Some children =>
          if 0 <? Braces.ranges a then ok (Braces.reduce children)
          else
            (fix all (l : list Braces.Node) : bool :=
               match l with
               | [] => true
               | child :: l' => ranges_all ok child && all l'
               end) children
      | None => true
      end
  end.

(** The node [rng] lies in the tree at a place [walk] comes to: at each
    level above it, [walk] loops over the children, those before the
    subtree of [rng] hold no range, [walk] descends into that subtree, and
    the children after it satisfy [later]. *)
Inductive on_walk (later : Braces.Node -> bool) (rng : Braces.Node) : Braces.Node -> Prop :=
| on_walk_here : on_walk later rng rng
| on_walk_child (pa : Braces.Attr) (pre post : list Braces.Node) (mid : Braces.Node) :
    loops_over pa (pre ++ mid :: post) = true ->
    Forall (fun n => no_range n = true) pre ->
    Forall (fun n => later n = true) post ->
    descends pa (Braces.attr mid) = true ->
    on_walk later rng mid ->
    on_walk later rng (Braces.mkNode pa (Some (pre ++ mid :: post))).

End Vocabulary.

(** ** Path strings *)

Module Paths.

(** *** [toUnix] of the watcher

    Modelled from the spec: [lib/constants] is not part of the sources.
    [BACK_SLASH_RE] matches every backslash, [DOUBLE_SLASH_RE] the first
    doubled slash, [SLASH] is [/] and [SLASH_SLASH] is [//]: the canonical
    form uses [/] as separator and collapses repeated slashes, except for a
    leading [//]. *)

(** [input.replace(BACK_SLASH_RE, SLASH)] *)
Fixpoint flip_backslashes (s : string) : string :=
  match s with
  | EmptyString => EmptyString
  | String c rest =>
      String (if Ascii.eqb c "\" then "/"%char else c) (flip_backslashes rest)
  end.

(** [s.startsWith(SLASH_SLASH)] *)
Definition starts_with_slashes (s : string) : bool :=
  match s with
  | String c1 (String c2 _) => Ascii.eqb c1 "/" && Ascii.eqb c2 "/"
  | _ => false
  end.

(** [s.replace(DOUBLE_SLASH_RE, SLASH)] when [s.match(DOUBLE_SLASH_RE)]
    succeeds: the first doubled slash becomes a single one. *)
Fixpoint replace_double_slash (s : string) : option string :=
  match s with
  | EmptyString => None
  | String c rest =>
      if Ascii.eqb c "/" && (match rest with
                             | String c' _ => Ascii.eqb c' "/"
                             | EmptyString => false
                             end)
      then Some rest
      else option_map (String c) (replace_double_slash rest)
  end.

(** The [while] loop; every round shortens the string, so its length bounds
    the number of rounds. *)
Fixpoint collapse_slashes (rounds : nat) (s : string) : string :=
  match rounds with
  | O => s
  | S n =>
      match replace_double_slash s with
      | Some s' => collapse_slashes n s'
      | None => s
      end
  end.

Definition toUnix (input : string) : string :=
  let s := flip_backslashes input in
  let preserveLeadingDoubleSlash := starts_with_slashes s in
  let s := collapse_slashes (String.length s) s in
  if preserveLeadingDoubleSlash then String "/" s else s.

(** *** [normalizePath] (the [normalize-path] package) *)

Definition is_separator (c : ascii) : bool :=
  Ascii.eqb c "/" || Ascii.eqb c "\".

(** [path.split(/[/\\]+/)]: the pieces between runs of separators; a leading
    or a trailing run leaves an empty first or last piece. [after] tells that
    the previous character was a separator. *)
Fixpoint split_separators (after : bool) (s : string) : list string :=
  match s with
  | EmptyString => [EmptyString]
  | String c rest =>
      if is_separator c
      then (if after then split_separators true rest
            else EmptyString :: split_separators true rest)
      else match split_separators false rest with
           | seg :: segs => String c seg :: segs
           | [] => [String c EmptyString]
           end
  end.

(** [segments.join('/')] *)
Fixpoint join_slash (segments : list string) : string :=
  match segments with
  | [] => EmptyString
  | [seg] => seg
  | seg :: rest => String.append seg (String "/" (join_slash rest))
  end.

(** [s.slice(n)] *)
Fixpoint slice_from (n : nat) (s : string) : string :=
  match n, s with
  | S n', String _ rest => slice_from n' rest
  | _, _ => s
  end.

(** The test for a Windows device path, [\\?\] or [\\.\]. *)
Definition device_path (path : string) : bool :=
  (4 <? String.length path)%nat &&
  bool_decide (String.get 3 path = Some "\"%char) &&
  (bool_decide (String.get 2 path = Some "?"%char) ||
   bool_decide (String.get 2 path = Some "."%char)) &&
  bool_decide (String.get 0 path = Some "\"%char) &&
  bool_decide (String.get 1 path = Some "\"%char).

(** [normalizePath(path, stripTrailing)] on a string; [stripTrailing] is
    [false] only when the caller passes [false]. *)
Definition normalizePath (path : string) (stripTrailing : bool) : string :=
  if String.eqb path "\" || String.eqb path "/" then "/"
  else if (String.length path <=? 1)%nat then path
  else
    let '(prefix, path) :=
      if device_path path then ("//", slice_from 2 path) else ("", path) in
    let segments := split_separators false path in
    let segments :=
      if stripTrailing && String.eqb (List.last segments "") ""
      then removelast segments else segments in
    String.append prefix (join_slash segments).

End Paths.

(** ** Read permissions *)

Module Permissions.

(** [n.toString(8)] on a non-negative integer: its octal digits, the most
    significant first. Each round produces one digit and divides by 8. *)
Fixpoint octal_digits (rounds : nat) (n : Z) (acc : list Z) : list Z :=
  match rounds with
  | O => acc
  | S k =>
      let acc' := n mod 8 :: acc in
      if n <? 8 then acc' else octal_digits k (n / 8) acc'
  end.

Definition toString8 (n : Z) : list Z :=
  octal_digits (S (Z.to_nat (Z.log2 n))) n [].

(** [_hasReadPermissions(stats)]; [mode] is [stats.mode], an integer from 0
    to [2^32 - 1], and is [None] when [stats] or its [mode] is undefined:
    [undefined & 0o777] and [NaN & 0o777] are [0]. *)
Definition _hasReadPermissions (o : Watcher.Options) (mode : option Z) : bool :=
  if Watcher.ignorePermissionErrors o then true
  else
    let md := default 0 mode in
    let st := Z.land md 511 in
    let ownerPerm := default 0 (head (toString8 st)) in
    negb (Z.land 4 ownerPerm =? 0).

End Permissions.

(** ** The registry of watched directories and of closers *)

Module Registry.
Import Watcher.

(** Modelled from the spec: [ONE_DOT] and [TWO_DOTS] of [lib/constants] are
    the directory entries [.] and [..]. *)
Definition ONE_DOT : string := ".".
Definition TWO_DOTS : string := "..".

(** The methods of [DirEntry] on the [items] of an entry. An entry found in
    [_watched] has not been disposed of: [close] disposes of the entries and
    empties the map at once. *)
Definition DirEntry_add (item : string) (items : gset string) : gset string :=
  if negb (String.eqb item ONE_DOT) && negb (String.eqb item TWO_DOTS)
  then {[item]} ∪ items else items.

Definition DirEntry_has (item : string) (items : gset string) : bool :=
  bool_decide (item ∈ items).


Section Methods.
Variable P : Platform.

(** [sysPath.resolve], [sysPath.dirname] and [sysPath.basename]. *)
Variable sysPath_resolve : string -> string.
Variable sysPath_dirname : string -> string.
Variable sysPath_basename : string -> string.


(** [_closeFile(path)]: the closers of the path are invoked in the order of
    their registration and forgotten. *)
Definition _closeFile (path : string) (s : FSWatcher) : FSWatcher :=
  match _closers s !! path with
  | None => s
  | Some closers =>
      set_closers (delete path (_closers s)) (set_released (released s ++ closers) s)
  end.





End Methods.

End Registry.

(** ** The table of polled files and its closers *)

Module WatchFile.

(** The value of a handler property of a container: [undefined] once it has
    been deleted, one function, or a [Set] in insertion order. A [Set] made
    by [addAsSet] from an [undefined] property holds [undefined] ([None]). *)
Inductive Handlers :=
| HUndefined
| HValue (fn : nat)
| HSet (fns : list (option nat)).

(** A container object. [pathArg] and [fullPath] are the variables its
    [fs.watchFile] callback closes over; [watcher] tells whether the property
    still holds the stat watcher. *)
Record Container := mkContainer {
  listeners : Handlers;
  rawEmitters : Handlers;
  options : option Polling.WatchOptions;
  watcher : bool;
  pathArg : string;
  fullPath : string;
  frozen : bool
}.

(** Calls into [fs]; [cell] names the container whose callback is passed. *)
Inductive FsCall :=
| WatchFileCall (fullPath : string) (opts : Polling.WatchOptions) (cell : nat)
| UnwatchFileCall (fullPath : string).

(** Containers live in a heap under their identity: closers and callbacks
    keep a reference to their container after [FsWatchFileInstances] has
    moved on to another one. *)
Record Store := mkStore {
  heap : gmap nat Container;
  FsWatchFileInstances : gmap string nat;
  fs_calls : list FsCall;
  next : nat
}.

Definition empty : Store := mkStore ∅ ∅ [] 0.

(** [Set.prototype.add] and [delete] on the elements in insertion order. *)
Definition set_add (x : option nat) (fns : list (option nat)) : list (option nat) :=
  if bool_decide (x ∈ fns) then fns else fns ++ [x].

Definition set_delete (x : option nat) (fns : list (option nat)) : list (option nat) :=
  filter (fun y => y <> x) fns.

Definition element_of (h : Handlers) : option nat :=
  match h with
  | HValue fn => Some fn
  | _ => None
  end.

(** [addAsSet(obj, prop, value)] on the property's value: a property that is
    not a [Set] is assigned one, which a frozen object refuses. *)
Definition addAsSet (is_frozen : bool) (h : Handlers) (value : nat) : Completion Handlers :=
  match h with
  | HSet fns => Normal (HSet (set_add (Some value) fns))
  | _ =>
      if is_frozen then Throw "TypeError"
      else Normal (HSet (set_add (Some value) [element_of h]))
  end.

(** [deleteFromSet(obj, prop, value)]: [delete obj[prop]] is refused by a
    frozen object. *)
Definition deleteFromSet (is_frozen : bool) (h : Handlers) (value : nat) : Completion Handlers :=
  match h with
  | HSet fns => Normal (HSet (set_delete (Some value) fns))
  | HValue fn =>
      if Nat.eqb fn value
      then (if is_frozen then Throw "TypeError" else Normal HUndefined)
      else Normal h
  | HUndefined => Normal h
  end.

Definition isSetEmpty (h : Handlers) : bool :=
  match h with
  | HSet fns => bool_decide (fns = [])
  | HValue _ => false
  | HUndefined => true
  end.

(** [forEachSetOrValue(value, fn => fn(...))]: the calls made, and the
    [TypeError] of calling [undefined], which ends the iteration. *)
Fixpoint call_each {B : Type} (fns : list (option nat)) (call : nat -> B) : list B * option string :=
  match fns with
  | [] => ([], None)
  | Some fn :: rest =>
      let '(calls, thrown) := call_each rest call in (call fn :: calls, thrown)
  | None :: _ => ([], Some "TypeError")
  end.

Definition forEachSetOrValue {B : Type} (h : Handlers) (call : nat -> B)
  : list B * option string :=
  match h with
  | HSet fns => call_each fns call
  | HValue fn => ([call fn], None)
  | HUndefined => ([], Some "TypeError")
  end.

(** The callback given to [fs.watchFile] by the call that created the
    container [cell]. *)
Definition callback (cell : nat) (curr prev : Stats.t) (st : Store)
  : list Polling.Call * option string :=
  match heap st !! cell with
  | None => ([], None)
  | Some container =>
      let '(raws, thrown) :=
        forEachSetOrValue (rawEmitters container)
          (fun fn => Polling.RawCall fn EV_CHANGE (fullPath container) curr prev) in
      match thrown with
      | Some e => (raws, Some e)
      | None =>
          if Polling.changed curr prev
          then
            let '(calls, thrown) :=
              forEachSetOrValue (listeners container)
                (fun fn => Polling.ListenerCall fn (pathArg container) curr) in
            (raws ++ calls, thrown)
          else (raws, None)
      end
  end.

(** What a closer closes over. *)
Record Closer := mkCloser {
  closer_cell : nat;
  closer_fullPath : string;
  closer_listener : nat;
  closer_rawEmitter : nat
}.

Definition update (cell : nat) (c : Container) (st : Store) : Store :=
  mkStore (<[cell := c]> (heap st)) (FsWatchFileInstances st) (fs_calls st) (next st).

(** [setFsWatchFileListener(pathArg, fullPath, options, handlers)]; the
    result is the closer it returns. *)
Definition setFsWatchFileListener (path full : string) (opts : Polling.WatchOptions)
    (listener rawEmitter : nat) (st : Store) : Completion Closer * Store :=
  let found :=
    match FsWatchFileInstances st !! full with
    | Some cell => option_map (pair cell) (heap st !! cell)
    | None => None
    end in
  let upgrade :=
    match found with
    | Some (_, container) =>
        match options container with
        | Some existingOpts =>
            Polling.lower (Polling.persistent existingOpts) (Polling.persistent opts) ||
            (Polling.interval opts <? Polling.interval existingOpts)
        | None => false
        end
    | None => false
    end in
  let st1 :=
    if upgrade
    then mkStore (heap st) (FsWatchFileInstances st) (fs_calls st ++ [UnwatchFileCall full])
           (next st)
    else st in
  match (if upgrade then None else found) with
  | Some (cell, container) =>
      match addAsSet (frozen container) (listeners container) listener with
      | Throw e => (Throw e, st1)
      | Normal ls =>
          let c1 := mkContainer ls (rawEmitters container) (options container)
                      (watcher container) (pathArg container) (fullPath container)
                      (frozen container) in
          match addAsSet (frozen container) (rawEmitters container) rawEmitter with
          | Throw e => (Throw e, update cell c1 st1)
          | Normal rs =>
              let c2 := mkContainer ls rs (options container) (watcher container)
                          (pathArg container) (fullPath container) (frozen container) in
              (Normal (mkCloser cell full listener rawEmitter), update cell c2 st1)
          end
      end
  | None =>
      let cell := next st1 in
      let container :=
        mkContainer (HValue listener) (HValue rawEmitter) (Some opts) true path full false in
      (Normal (mkCloser cell full listener rawEmitter),
       mkStore (<[cell := container]> (heap st1))
         (<[full := cell]> (FsWatchFileInstances st1))
         (fs_calls st1 ++ [WatchFileCall full opts cell])
         (S cell))
  end.

(** Calling a closer. *)
Definition close (k : Closer) (st : Store) : Completion unit * Store :=
  match heap st !! closer_cell k with
  | None => (Normal tt, st)
  | Some container =>
      match deleteFromSet (frozen container) (listeners container) (closer_listener k) with
      | Throw e => (Throw e, st)
      | Normal ls =>
          let c1 := mkContainer ls (rawEmitters container) (options container)
                      (watcher container) (pathArg container) (fullPath container)
                      (frozen container) in
          match deleteFromSet (frozen container) (rawEmitters container)
                  (closer_rawEmitter k) with
          | Throw e => (Throw e, update (closer_cell k) c1 st)
          | Normal rs =>
              let c2 := mkContainer ls rs (options container) (watcher container)
                          (pathArg container) (fullPath container) (frozen container) in
              let st2 := update (closer_cell k) c2 st in
              if isSetEmpty ls
              then
                let st3 :=
                  mkStore (heap st2) (delete (closer_fullPath k) (FsWatchFileInstances st2))
                    (fs_calls st2 ++ [UnwatchFileCall (closer_fullPath k)]) (next st2) in
                if frozen container then (Throw "TypeError", st3)
                else
                  (Normal tt,
                   update (closer_cell k)
                     (mkContainer ls rs None false (pathArg container)
                        (fullPath container) true) st3)
              else (Normal tt, st2)
          end
      end
  end.

(** The callbacks [fs] still invokes for a file: those passed to
    [fs.watchFile] since the last [fs.unwatchFile] of the file. *)
Fixpoint polled (full : string) (calls : list FsCall) (acc : list nat) : list nat :=
  match calls with
  | [] => acc
  | WatchFileCall f _ cell :: rest =>
      polled full rest (if String.eqb f full then acc ++ [cell] else acc)
  | UnwatchFileCall f :: rest =>
      polled full rest (if String.eqb f full then [] else acc)
  end.

Definition polling (full : string) (st : Store) : list nat :=
  polled full (fs_calls st) [].

End WatchFile.

(** ** Further settings used by the examples *)

Module Settings.
Import Watcher.





(** A watcher on the per-directory backend that tracks [/t/a] and [/t/b]
    and holds two closers for [/t/a]. *)
Definition tracking : FSWatcher :=
  _addPathCloser "/t/a" (Some 8%nat)
    (_addPathCloser "/t/a" (Some 7%nat)
       (set_watched {[ "/t" := {[ "a"; "b" ]} ]} (new_FSWatcher Scenarios.plain))).

(** The per-directory backend with [alwaysStat]. *)
Definition with_stat : Options :=
  mkOptions None (AtomicBool false) None true false false true false false.

End Settings.

(** ** Vocabulary of the further properties *)

Module Terms.

(** A string without path separators. *)
Fixpoint separator_free (s : string) : Prop :=
  match s with
  | EmptyString => True
  | String c rest => Paths.is_separator c = false /\ separator_free rest
  end.

(** Pieces of a path after the first one: none is empty, except possibly
    the last. *)
Fixpoint inner_pieces (l : list string) : Prop :=
  match l with
  | [] => True
  | [x] => separator_free x
  | x :: l' => separator_free x /\ x <> EmptyString /\ inner_pieces l'
  end.

(** Every character of the string satisfies [Q]. *)
Fixpoint every_char (Q : ascii -> Prop) (s : string) : Prop :=
  match s with
  | EmptyString => True
  | String c rest => Q c /\ every_char Q rest
  end.

Fixpoint last_char (s : string) : option ascii :=
  match s with
  | EmptyString => None
  | String c EmptyString => Some c
  | String _ rest => last_char rest
  end.

(** The string does not start with a slash. *)
Definition head_not_slash (s : string) : Prop :=
  match s with
  | EmptyString => True
  | String c _ => c <> "/"%char
  end.

(** Whether the leading octal digit of a file mode's permission bits has
    the read bit, and whether the first permission class with any bit set
    (owner, then group, then others) has its read bit set. *)
Definition leading_digit_reads (st : Z) : bool :=
  negb (Z.land 4 (default 0 (head (Permissions.toString8 st))) =? 0).

Definition first_class_reads (st : Z) : bool :=
  if Z.land st 448 =? 0
  then (if Z.land st 56 =? 0 then Z.testbit st 2 else Z.testbit st 5)
  else Z.testbit st 8.


(** The two emissions the drain makes for one pending unlink [kv]: the
    stored arguments on their own channel, then on [all]. *)
Definition unlink_pair (s : Watcher.FSWatcher) (kv : string * list Val) : list Emission :=
  [mkEmission EV_UNLINK (tail (snd kv)) (bool_decide (EV_UNLINK ∈ Watcher.listeners s));
   mkEmission EV_ALL (snd kv) (bool_decide (EV_ALL ∈ Watcher.listeners s))].

End Terms.

(** * Properties *)

Import Watcher Vocabulary.

(** Reduction of the fields of a watcher and of a store of polled files. *)
Ltac fields :=
  cbn [closed options _watched _closers _ignoredPaths _throttled throttleMaps
       _symlinkPaths _streams _pendingUnlinks _pendingWrites _userIgnored _readyCount
       readyCalls _readyEmitted _emitReady listeners timers ticks inflight released
       nextId emitted
       set_closed set_watched set_closers set_ignoredPaths set_throttled
       set_throttleMaps set_symlinkPaths set_streams set_pendingUnlinks
       set_pendingWrites set_userIgnored set_readyCount set_readyCalls
       set_readyEmitted set_emitReady set_listeners set_timers set_ticks
       set_inflight set_released set_nextId set_emitted
       emit clearTimeout fst snd].

Ltac store_fields :=
  cbn [WatchFile.FsWatchFileInstances WatchFile.heap WatchFile.next WatchFile.fs_calls
       WatchFile.listeners WatchFile.rawEmitters WatchFile.options WatchFile.watcher
       WatchFile.pathArg WatchFile.fullPath WatchFile.frozen
       WatchFile.closer_cell WatchFile.closer_fullPath WatchFile.closer_listener
       WatchFile.closer_rawEmitter WatchFile.update option_map fst snd].

(** ** Auxiliary facts *)

Lemma code_is_spec (c : string) (e : JsError) :
  code_is c e = true <-> code e = Some c.
Proof.
  unfold code_is. destruct (code e) as [c'|]; [|split; discriminate].
  rewrite String.eqb_eq. split; [intros ->; reflexivity | congruence].
Qed.

Lemma code_is_false (c : string) (e : JsError) :
  code_is c e = false <-> code e <> Some c.
Proof.
  rewrite <- code_is_spec. destruct (code_is c e); split; congruence.
Qed.

Lemma app_one_neq {A : Type} (l : list A) (x : A) : l ++ [x] <> l.
Proof.
  intros H. apply (f_equal length) in H. rewrite length_app in H. simpl in H. lia.
Qed.

Lemma emitted_emit (ch : string) (pl : list Val) (s : FSWatcher) :
  emitted (emit ch pl s) =
  emitted s ++ [mkEmission ch pl (bool_decide (ch ∈ listeners s))].
Proof. reflexivity. Qed.

Lemma emitWithAll_event (event : string) (rest : list Val) (s : FSWatcher) :
  event <> EV_ERROR ->
  emitWithAll event (VStr event :: rest) s =
  emit EV_ALL (VStr event :: rest) (emit event rest s).
Proof.
  intros Hne. unfold emitWithAll, spread_throws, emit_throws.
  destruct (String.eqb_spec event EV_ERROR) as [E|_]; [contradiction|]. reflexivity.
Qed.




Lemma surfaced_spec (o : Options) (e : JsError) :
  surfaced o e = true <->
  code e <> Some "ENOENT" /\ code e <> Some "ENOTDIR" /\
  (ignorePermissionErrors o = true -> code e <> Some "EPERM" /\ code e <> Some "EACCES").
Proof.
  unfold surfaced.
  rewrite !andb_true_iff, orb_true_iff, andb_true_iff, !negb_true_iff, !code_is_false.
  destruct (ignorePermissionErrors o); intuition congruence.
Qed.

(** ** Error policy *)

(** C3: for every error [e] handed to [_handleError], an [error] event is
    emitted if and only if the code of [e] is neither [ENOENT] nor [ENOTDIR]
    and, when [ignorePermissionErrors] is set, neither [EPERM] nor [EACCES];
    otherwise the watcher is left as it was, and so it is for [ENOENT] and
    [ENOTDIR] under every configuration. *)
Theorem C3_error_surfaced_iff (s : FSWatcher) (e : JsError) :
  let s' := snd (_handleError (Some e) s) in
  (emitted s' = emitted s ++ [error_emission s e] <->
   (code e <> Some "ENOENT" /\ code e <> Some "ENOTDIR" /\
    (ignorePermissionErrors (options s) = true ->
     code e <> Some "EPERM" /\ code e <> Some "EACCES"))) /\
  (emitted s' = emitted s ++ [error_emission s e] \/ s' = s) /\
  (code e = Some "ENOENT" \/ code e = Some "ENOTDIR" -> s' = s).
Proof.
  cbn zeta. unfold _handleError.
  rewrite <- surfaced_spec.
  destruct (surfaced (options s) e) eqn:Hs; cbn [snd].
  - rewrite emitted_emit. fold (error_emission s e).
    split; [tauto|]. split; [left; reflexivity|].
    apply surfaced_spec in Hs. intros [H|H]; tauto.
  - split; [|split; [right; reflexivity | reflexivity]].
    split; [|discriminate]. intros H. symmetry in H. apply app_one_neq in H. destruct H.
Qed.

(** ** The polling listener *)

(** C7, as the code has it: the listeners of a polled file are called, each
    with the path and the fresh stat record, if and only if the size differs
    from the previous stat's, or [mtimeMs] is greater than the previous
    [mtimeMs], or [mtimeMs] is zero; the raw emitters are called in every
    case. *)
Theorem C7_poll_change_iff (c : Polling.Container) (curr prev : Stats.t) :
  let calls := Polling.watchFile_callback c curr prev in
  let signalled :=
    Stats.size curr <> Stats.size prev \/
    Stats.mtimeMs prev < Stats.mtimeMs curr \/
    Stats.mtimeMs curr = 0 in
  (signalled ->
   Polling.listener_calls calls =
   Polling.forEachSetOrValue (Polling.listeners c)
     (fun fn => Polling.ListenerCall fn (Polling.pathArg c) curr)) /\
  (~ signalled -> Polling.listener_calls calls = []).
Proof.
  cbn zeta. unfold Polling.watchFile_callback, Polling.listener_calls.
  rewrite List.filter_app.
  assert (Hraw : forall v, List.filter Polling.is_listener_call
            (Polling.forEachSetOrValue v
               (fun fn => Polling.RawCall fn EV_CHANGE (Polling.fullPath c) curr prev)) = []).
  { intros [fn|fns]; cbn; [reflexivity|]. induction fns; cbn; auto. }
  assert (Hlis : forall v, List.filter Polling.is_listener_call
            (Polling.forEachSetOrValue v
               (fun fn => Polling.ListenerCall fn (Polling.pathArg c) curr)) =
            Polling.forEachSetOrValue v
               (fun fn => Polling.ListenerCall fn (Polling.pathArg c) curr)).
  { intros [fn|fns]; cbn; [reflexivity|]. induction fns; cbn; [reflexivity|].
    f_equal. exact IHfns. }
  rewrite Hraw. cbn [app].
  unfold Polling.changed.
  destruct (Stats.size curr =? Stats.size prev) eqn:Hsz;
    destruct (Stats.mtimeMs prev <? Stats.mtimeMs curr) eqn:Hmt;
    destruct (Stats.mtimeMs curr =? 0) eqn:Hz; cbn;
    rewrite ?Hlis; split; intros H; try reflexivity; try lia.
  all: exfalso; apply H; lia.
Qed.

(** C7, counterexample to the claim as stated: the modification time goes
    back from 2000 to 1000 with the size unchanged, so [mtimeMs] differs from
    the previous one, and no listener is called. *)
Lemma C7_counterexample :
  let c := Polling.mkContainer (Polling.Value 1%nat) (Polling.Value 2%nat)
             (Polling.mkWatchOptions true 100) "T/y" "/abs/T/y" in
  let curr := Stats.mk 10 1000 in
  let prev := Stats.mk 10 2000 in
  Stats.mtimeMs curr <> Stats.mtimeMs prev /\
  Polling.listener_calls (Polling.watchFile_callback c curr prev) = [].
Proof. cbn. split; [discriminate | reflexivity]. Qed.

(** ** Invalid arguments of [add] *)

Lemma unifyPaths_non_string (P : Platform) (paths_ : PathsArg) (x : PathsArg) :
  x ∈ flatten (arrify paths_) -> string_of x = None ->
  unifyPaths P paths_ = Throw "TypeError".
Proof.
  intros Hin Hx. unfold unifyPaths.
  destruct (forallb _ _) eqn:Hall; [|reflexivity].
  rewrite forallb_forall in Hall.
  apply list_elem_of_In in Hin. specialize (Hall x Hin).
  rewrite Hx in Hall. apply bool_decide_eq_true in Hall.
  destruct Hall as [? Hsome]. discriminate.
Qed.

(** C8, as the code has it: when the flattened paths of [add] hold a
    non-string, [add] throws a [TypeError]; no path is added and the ignore
    set is not mutated, but the closed flag has been reset to [false] before
    the check: the watcher is the one before the call with [closed] cleared. *)
Theorem C8_add_invalid_argument (P : Platform) (paths_ : PathsArg) (x : PathsArg)
    (s : FSWatcher) :
  x ∈ flatten (arrify paths_) -> string_of x = None ->
  let r := add P paths_ s in
  fst r = Throw "TypeError" /\
  snd r = set_closed false s /\
  closed (snd r) = false /\
  _ignoredPaths (snd r) = _ignoredPaths s /\
  _readyCount (snd r) = _readyCount s /\
  inflight (snd r) = inflight s /\
  _watched (snd r) = _watched s /\
  emitted (snd r) = emitted s.
Proof.
  intros Hin Hx. cbn zeta. unfold add.
  rewrite (unifyPaths_non_string P paths_ x Hin Hx). cbn.
  repeat split; reflexivity.
Qed.

(** C8, an instance: a path list holding the number 42, on a closed
    watcher. *)
Lemma C8_add_invalid_argument_witness :
  let s := close (new_FSWatcher Scenarios.plain) in
  let r := add Scenarios.posix (PArray [PString "a"; POther 42]) s in
  fst r = Throw "TypeError" /\
  snd r = set_closed false s /\
  closed (snd r) = false /\
  _ignoredPaths (snd r) = _ignoredPaths s /\
  _readyCount (snd r) = _readyCount s /\
  inflight (snd r) = inflight s /\
  _watched (snd r) = _watched s /\
  emitted (snd r) = emitted s.
Proof.
  apply (C8_add_invalid_argument Scenarios.posix (PArray [PString "a"; POther 42])
           (POther 42)).
  - cbn. set_solver.
  - reflexivity.
Defined.

(** C8, counterexample to the claim as stated: on a closed watcher the
    failing [add] does not keep the closed flag: it was [true] and is
    [false] once the [TypeError] has been thrown. *)
Lemma C8_counterexample :
  let s := close (new_FSWatcher Scenarios.plain) in
  let r := add Scenarios.posix (PArray [POther 42]) s in
  closed s = true /\ fst r = Throw "TypeError" /\ closed (snd r) = false.
Proof. cbn. repeat split; reflexivity. Qed.

(** ** Readiness *)

(** C4, evaluated on [watch(['/t/m1', '/t/m2'])] with the per-directory
    backend when neither path exists: [ready] is emitted twice. Each
    [_addToNodeFs] read [_emitReady] before its [stat]; the first path to
    settle calls its copy and then, through [add], the field, which reaches
    the target of 2 and emits [ready]; the second path then calls its copy,
    the closure that [EMPTY_FN] has replaced in the field only, and the
    closure emits [ready] again. *)
Theorem C4_ready_emitted_twice :
  _readyCount Scenarios.two_missing_paths = Some 2 /\
  readyCalls Scenarios.two_missing_paths = 3 /\
  _emitReady Scenarios.two_missing_paths = EMPTY_FN /\
  length (ready_emissions Scenarios.two_missing_paths) = 2%nat.
Proof. vm_compute. repeat split; reflexivity. Qed.

(** The closure has no guard of its own: whenever the call count reaches the
    target it schedules [ready], whatever the field [_emitReady] holds. *)
Lemma readyClosure_refires (s : FSWatcher) (target : Z) :
  _readyCount s = Some target -> target <= readyCalls s + 1 ->
  ticks (call_ready ReadyClosure s) = ticks s ++ [TickEmitReady].
Proof.
  intros Hc Hle. cbn. unfold readyClosure. cbn. rewrite Hc.
  destruct (target <=? readyCalls s + 1) eqn:E; [reflexivity | lia].
Qed.

(** Through the field, a watcher that has emitted [ready] stays silent. *)
Lemma call_emitReady_after_ready (s : FSWatcher) :
  _emitReady s = EMPTY_FN -> call_emitReady s = s.
Proof. intros H. unfold call_emitReady. rewrite H. reflexivity. Qed.

(** The guard of the field: the call through the field that reaches the
    target schedules [ready] and replaces the field, after which any number
    of calls through the field change nothing. *)
Lemma call_emitReady_fires_once (s : FSWatcher) (target : Z) :
  _emitReady s = ReadyClosure ->
  _readyCount s = Some target -> target <= readyCalls s + 1 ->
  ticks (call_emitReady s) = ticks s ++ [TickEmitReady] /\
  _emitReady (call_emitReady s) = EMPTY_FN /\
  forall n, Nat.iter n call_emitReady (call_emitReady s) = call_emitReady s.
Proof.
  intros Hf Hc Hle.
  assert (Hempty : _emitReady (call_emitReady s) = EMPTY_FN).
  { unfold call_emitReady. rewrite Hf. cbn. unfold readyClosure. cbn. rewrite Hc.
    destruct (Z.leb_spec target (readyCalls s + 1)); [reflexivity | lia]. }
  split; [|split; [exact Hempty|]].
  - unfold call_emitReady. rewrite Hf. exact (readyClosure_refires s target Hc Hle).
  - induction n as [|n IH]; [reflexivity|].
    rewrite Nat.iter_succ, IH. apply call_emitReady_after_ready. exact Hempty.
Qed.

(** ** Closing *)

(** C5, as the code has it: [close] on an open watcher sets the closed flag,
    removes every listener and empties the throttle table, so that every
    candidate event handed to [_emit] afterwards is discarded and an
    emission finds no handler; it cancels no timer and leaves the
    pending-write and pending-unlink slots in place. *)
Theorem C5_close_effect (P : Platform) (s : FSWatcher) :
  closed s = false ->
  let s' := close s in
  closed s' = true /\
  listeners s' = ∅ /\
  _throttled s' = ∅ /\
  (forall kind path, throttle_slot kind path s' = None) /\
  timers s' = timers s /\
  _pendingWrites s' = _pendingWrites s /\
  _pendingUnlinks s' = _pendingUnlinks s /\
  emitted s' = emitted s /\
  (forall now event path val1 val2 val3,
      _emit P now event path val1 val2 val3 s' = s') /\
  (forall ch pl, emitted (emit ch pl s') = emitted s' ++ [mkEmission ch pl false]).
Proof.
  intros Hopen. cbn zeta.
  assert (Hc : closed (close s) = true).
  { unfold close. rewrite Hopen. reflexivity. }
  assert (Hl : listeners (close s) = ∅).
  { unfold close. rewrite Hopen. reflexivity. }
  assert (Ht : _throttled (close s) = ∅).
  { unfold close. rewrite Hopen. reflexivity. }
  split; [exact Hc|]. split; [exact Hl|]. split; [exact Ht|].
  split.
  { intros kind path. unfold throttle_slot. rewrite Ht, lookup_empty. reflexivity. }
  split; [unfold close; rewrite Hopen; reflexivity|].
  split; [unfold close; rewrite Hopen; reflexivity|].
  split; [unfold close; rewrite Hopen; reflexivity|].
  split; [unfold close; rewrite Hopen; reflexivity|].
  split.
  { intros. unfold _emit. rewrite Hc. reflexivity. }
  intros ch pl. rewrite emitted_emit, Hl.
  rewrite bool_decide_eq_false_2; [reflexivity | set_solver].
Qed.

(** C5, an instance: closing a ready watcher that holds a pending write and
    a pending unlink. *)
Lemma C5_close_effect_witness :
  let s := run Scenarios.posix
             [Scenarios.emit_at 0 EV_ADD "T/b"; Scenarios.emit_at 5 EV_UNLINK "T/a"]
             (Scenarios.ready_on (Scenarios.with_atomic_awf 200 50) "T") in
  closed s = false /\ closed (close s) = true /\ timers (close s) = timers s.
Proof.
  cbv zeta.
  pose proof (C5_close_effect Scenarios.posix
    (run Scenarios.posix
       [Scenarios.emit_at 0 EV_ADD "T/b"; Scenarios.emit_at 5 EV_UNLINK "T/a"]
       (Scenarios.ready_on (Scenarios.with_atomic_awf 200 50) "T"))
    eq_refl) as H.
  cbv zeta in H. destruct H as (Hc & _ & _ & _ & Ht & _).
  split; [reflexivity | split; [exact Hc | exact Ht]].
Defined.

(** C5, counterexample to the claim as stated: after [close] the poll timer
    of the pending write and the drain timer of the pending unlink are still
    armed and both slots are still there; when the drain timer fires, the
    [unlink] is emitted, and a handler registered after the close hears
    it. *)
Lemma C5_counterexample :
  let s := Scenarios.closed_with_pending in
  closed s = true /\
  length (timers s) = 2%nat /\
  omap_get "T/a" (_pendingUnlinks s) = Some [VStr EV_UNLINK; VStr "T/a"] /\
  _pendingWrites s !! "T/b" = Some (mkPendingWrite 0 0 EV_ADD) /\
  emitted (run Scenarios.posix [OpOn EV_UNLINK; OpFire 2] s) =
  emitted s ++ [mkEmission EV_UNLINK [VStr "T/a"] true;
                mkEmission EV_ALL [VStr EV_UNLINK; VStr "T/a"] false].
Proof. vm_compute. repeat split; reflexivity. Qed.

(** ** Stages of the emission pipeline *)

(** An open watcher without a pending write for the path goes on to the
    atomic block. *)
Lemma emit_open (P : Platform) (now : Z) (event path : string) (val1 val2 val3 : Val)
    (s : FSWatcher) :
  closed s = false ->
  (awaitWriteFinish (options s) = None \/
   _pendingWrites s !! user_path P (options s) path = None) ->
  _emit P now event path val1 val2 val3 s =
  _emit_atomic P now event (user_path P (options s) path)
    (build_args event (user_path P (options s) path) val1 val2 val3) val1 s.
Proof.
  intros Hopen Hpw. unfold _emit. rewrite Hopen.
  destruct Hpw as [-> | ->]; [reflexivity|].
  destruct (awaitWriteFinish (options s)); reflexivity.
Qed.

(** Without write-settle, or before [ready], the pipeline goes on to the
    throttle. *)
Lemma emit_settle_skipped (P : Platform) (now : Z) (event path : string) (args : list Val)
    (val1 : Val) (s : FSWatcher) :
  (awaitWriteFinish (options s) = None \/ _readyEmitted s = false) ->
  _emit_settle P now event path args val1 s = _emit_tail now event path args val1 s.
Proof.
  unfold _emit_settle. intros [-> | Hr]; [reflexivity|].
  rewrite Hr, andb_false_r. destruct (awaitWriteFinish (options s)); reflexivity.
Qed.

(** ** The throttle table *)

Lemma throttle_fresh (now : Z) (kind path : string) (window : Z) (s : FSWatcher) :
  throttle_slot kind path s = None ->
  exists m thr s',
    _throttle now kind path window s = (Some (m, thr), s') /\
    count thr = 0 /\
    _throttled s' !! kind = Some m /\
    throttle_slot kind path s' = Some thr /\
    timers s' =
      timers s ++ [mkTimer (timeoutObject thr) (now + window) (ThrottleClear m path)] /\
    emitted s' = emitted s /\
    listeners s' = listeners s /\
    inflight s' = inflight s /\
    options s' = options s /\
    _pendingUnlinks s' = _pendingUnlinks s.
Proof.
  intros Hnone. unfold throttle_slot in Hnone. unfold _throttle.
  destruct (_throttled s !! kind) as [m|] eqn:Hk.
  - rewrite Hnone. cbn.
    eexists m, _, _. split; [reflexivity|]. cbn.
    split; [reflexivity|]. split; [exact Hk|].
    split.
    { unfold throttle_slot. cbn. rewrite Hk. unfold actionMap_of. cbn.
      rewrite lookup_insert_eq. cbn. rewrite lookup_insert_eq. reflexivity. }
    repeat split; reflexivity.
  - unfold actionMap_of at 1. cbn. rewrite lookup_insert_eq. cbn. rewrite lookup_empty. cbn.
    eexists (nextId s), _, _. split; [reflexivity|]. cbn.
    split; [reflexivity|]. split; [apply lookup_insert_eq|].
    split.
    { unfold throttle_slot. cbn. rewrite lookup_insert_eq. unfold actionMap_of. cbn.
      rewrite lookup_insert_eq. cbn. rewrite lookup_insert_eq. reflexivity. }
    repeat split; reflexivity.
Qed.

Lemma throttle_held (now : Z) (kind path : string) (window : Z) (s : FSWatcher)
    (thr : Throttle) :
  throttle_slot kind path s = Some thr ->
  exists s',
    _throttle now kind path window s = (None, s') /\
    throttle_slot kind path s' = Some (mkThrottle (timeoutObject thr) (count thr + 1)) /\
    timers s' = timers s /\
    emitted s' = emitted s /\
    inflight s' = inflight s /\
    _pendingWrites s' = _pendingWrites s /\
    _pendingUnlinks s' = _pendingUnlinks s.
Proof.
  intros Hsome. unfold throttle_slot in Hsome. unfold _throttle.
  destruct (_throttled s !! kind) as [m|] eqn:Hk; [|discriminate].
  rewrite Hsome. eexists. split; [reflexivity|].
  split.
  { unfold throttle_slot. cbn. rewrite Hk. unfold actionMap_of. cbn.
    rewrite lookup_insert_eq. cbn. rewrite lookup_insert_eq. reflexivity. }
  repeat split; reflexivity.
Qed.

Lemma find_fresh_timer (l : list Timer) (n : nat) (d : Z) (tk : Task) :
  Forall (fun t => (tid t < n)%nat) l ->
  List.find (fun t => Nat.eqb (tid t) n) (l ++ [mkTimer n d tk]) = Some (mkTimer n d tk).
Proof.
  induction 1 as [|t l Ht _ IH]; cbn.
  - rewrite Nat.eqb_refl. reflexivity.
  - destruct (Nat.eqb_spec (tid t) n); [lia | exact IH].
Qed.











(** ** Atomic saves *)

Lemma awaitWriteFinish_frame (P : Platform) (now : Z) (awf : AwfOptions) (path : string)
    (threshold : Z) (event : string) (args : list Val) (s : FSWatcher) :
  let s' := _awaitWriteFinish P now awf path threshold event args s in
  emitted s' = emitted s /\ _pendingUnlinks s' = _pendingUnlinks s.
Proof.
  cbn zeta. unfold _awaitWriteFinish.
  destruct (_pendingWrites s !! path); split; reflexivity.
Qed.

Lemma emit_tail_change (now : Z) (p : string) (vals : list Val) (v1 : Val) (s : FSWatcher) :
  let s' := _emit_tail now EV_CHANGE p (VStr EV_CHANGE :: VStr p :: vals) v1 s in
  _pendingUnlinks s' = _pendingUnlinks s /\
  (emitted s' = emitted s \/ emitted s' = emitted s ++ change_pair s p vals) /\
  (throttle_slot EV_CHANGE p s = None -> wants_stat (options s) EV_CHANGE v1 = false ->
   emitted s' = emitted s ++ change_pair s p vals).
Proof.
  cbn zeta. unfold _emit_tail.
  change (String.eqb EV_CHANGE EV_CHANGE) with true. cbv iota.
  destruct (throttle_slot EV_CHANGE p s) as [thr|] eqn:Hslot.
  - destruct (throttle_held now EV_CHANGE p 50 s thr Hslot)
      as (s' & Heq & _ & _ & He & _ & _ & Hu).
    rewrite Heq. split; [exact Hu|]. split; [left; exact He|]. discriminate.
  - destruct (throttle_fresh now EV_CHANGE p 50 s Hslot)
      as (m & thr & s' & Heq & _ & _ & _ & _ & He & Hl & _ & Ho & Hu).
    rewrite Heq. rewrite Ho.
    assert (Hpair : emitted (emitWithAll EV_CHANGE (VStr EV_CHANGE :: VStr p :: vals) s') =
                    emitted s ++ change_pair s p vals).
    { rewrite emitWithAll_event by discriminate.
      rewrite !emitted_emit. cbn [listeners emit set_emitted].
      rewrite He, Hl, <- app_assoc. reflexivity. }
    destruct (wants_stat (options s) EV_CHANGE v1).
    + split; [exact Hu|]. split; [left; exact He|]. discriminate.
    + split; [rewrite emitWithAll_event by discriminate; exact Hu|].
      split; [right; exact Hpair|].
      intros _ _. exact Hpair.
Qed.

Lemma omap_get_delete_nodup {V : Type} (k : string) (m : list (string * V)) :
  NoDup (fst <$> m) -> omap_get k (omap_delete k m) = None.
Proof.
  induction m as [|[k' v] m IH]; cbn; [reflexivity|].
  intros Hnd. apply NoDup_cons in Hnd as [Hnotin Hnd].
  destruct (String.eqb_spec k k') as [->|Hne].
  - clear IH. induction m as [|[k'' v''] m IH]; cbn; [reflexivity|].
    cbn in Hnotin. apply not_elem_of_cons in Hnotin as [Hne Hnotin].
    apply NoDup_cons in Hnd as [_ Hnd].
    destruct (String.eqb_spec k' k''); [congruence|]. apply IH; assumption.
  - cbn. destruct (String.eqb_spec k k'); [congruence|]. apply IH. exact Hnd.
Qed.

(** C1, as the code has it: on an open watcher with [atomic] on and no
    pending-write slot for the path, an [add] for a path with a pending
    unlink removes that slot and goes on as a [change] event. Neither the
    [unlink] nor the [add] is emitted: the call emits nothing or exactly one
    [change] (on [change] and on [all]); and it emits that [change] whenever
    the write-settle tracker does not take the event, no throttle slot is
    held for [(change, path)] and no stat has to be fetched. *)
Theorem C1_atomic_add_collapses (P : Platform) (now : Z) (path : string)
    (val1 val2 val3 : Val) (s : FSWatcher) :
  atomic_truthy (atomic (options s)) = true ->
  closed s = false ->
  (awaitWriteFinish (options s) = None \/
   _pendingWrites s !! user_path P (options s) path = None) ->
  omap_has (user_path P (options s) path) (_pendingUnlinks s) = true ->
  let p := user_path P (options s) path in
  let vals := extra_args val1 val2 val3 in
  let s' := _emit P now EV_ADD path val1 val2 val3 s in
  _pendingUnlinks s' = omap_delete p (_pendingUnlinks s) /\
  (NoDup (fst <$> _pendingUnlinks s) -> omap_get p (_pendingUnlinks s') = None) /\
  (emitted s' = emitted s \/ emitted s' = emitted s ++ change_pair s p vals) /\
  ((awaitWriteFinish (options s) = None \/ _readyEmitted s = false) ->
   throttle_slot EV_CHANGE p s = None ->
   wants_stat (options s) EV_CHANGE val1 = false ->
   emitted s' = emitted s ++ change_pair s p vals).
Proof.
  intros Hatomic Hopen Hpw Hhas. cbn zeta.
  rewrite emit_open; [|exact Hopen|exact Hpw].
  set (p := user_path P (options s) path) in *.
  unfold _emit_atomic. rewrite Hatomic.
  change (String.eqb EV_ADD EV_UNLINK) with false.
  change (String.eqb EV_ADD EV_ADD) with true. rewrite Hhas. cbn [andb].
  change (<[0%nat:=VStr EV_CHANGE]> (build_args EV_ADD p val1 val2 val3))
    with (VStr EV_CHANGE :: VStr p :: extra_args val1 val2 val3).
  set (s1 := set_pendingUnlinks (omap_delete p (_pendingUnlinks s)) s).
  set (vals := extra_args val1 val2 val3).
  assert (Hmain :
    let s' := _emit_settle P now EV_CHANGE p (VStr EV_CHANGE :: VStr p :: vals) val1 s1 in
    _pendingUnlinks s' = omap_delete p (_pendingUnlinks s) /\
    (emitted s' = emitted s \/ emitted s' = emitted s ++ change_pair s p vals) /\
    ((awaitWriteFinish (options s) = None \/ _readyEmitted s = false) ->
     throttle_slot EV_CHANGE p s = None ->
     wants_stat (options s) EV_CHANGE val1 = false ->
     emitted s' = emitted s ++ change_pair s p vals)).
  { cbn zeta.
    pose proof (emit_tail_change now p vals val1 s1) as Htail. cbn zeta in Htail.
    change (_pendingUnlinks s1) with (omap_delete p (_pendingUnlinks s)) in Htail.
    change (emitted s1) with (emitted s) in Htail.
    change (change_pair s1 p vals) with (change_pair s p vals) in Htail.
    change (throttle_slot EV_CHANGE p s1) with (throttle_slot EV_CHANGE p s) in Htail.
    change (options s1) with (options s) in Htail.
    destruct (awaitWriteFinish (options s)) as [awf|] eqn:Hawf.
    - destruct (_readyEmitted s) eqn:Hready.
      + unfold _emit_settle. change (awaitWriteFinish (options s1)) with (awaitWriteFinish (options s)).
        rewrite Hawf. change (_readyEmitted s1) with (_readyEmitted s). rewrite Hready.
        change (String.eqb EV_CHANGE EV_CHANGE) with true. rewrite orb_true_r. cbn [andb].
        destruct (awaitWriteFinish_frame P now awf p (stabilityThreshold awf) EV_CHANGE
                    (VStr EV_CHANGE :: VStr p :: vals) s1) as [He Hu].
        rewrite He, Hu. split; [reflexivity|]. split; [left; reflexivity|].
        intros [Hn|Hn]; discriminate.
      + rewrite emit_settle_skipped; [|right; exact Hready].
        destruct Htail as (Hu & He & Hyes). split; [exact Hu|]. split; [exact He|].
        intros _. exact Hyes.
    - rewrite emit_settle_skipped; [|left; exact Hawf].
      destruct Htail as (Hu & He & Hyes). split; [exact Hu|]. split; [exact He|].
      intros _. exact Hyes. }
  cbn zeta in Hmain. destruct Hmain as (Hu & He & Hyes).
  split; [exact Hu|]. split; [|split; [exact He | exact Hyes]].
  intros Hnd. rewrite Hu. apply omap_get_delete_nodup. exact Hnd.
Qed.

(** C1, an instance: an editor's save with nothing else in the way. *)
Lemma C1_atomic_add_collapses_witness :
  let s := run Scenarios.posix [Scenarios.emit_at 10 EV_UNLINK "T/c"]
             (Scenarios.ready_on Scenarios.with_atomic "T") in
  omap_has "T/c" (_pendingUnlinks s) = true /\
  emitted (_emit Scenarios.posix 20 EV_ADD "T/c" VUndef VUndef VUndef s) =
  emitted s ++ change_pair s "T/c" [].
Proof.
  cbv zeta. split; [reflexivity|].
  exact (proj2 (proj2 (proj2
    (C1_atomic_add_collapses Scenarios.posix 20 "T/c" VUndef VUndef VUndef
       (run Scenarios.posix [Scenarios.emit_at 10 EV_UNLINK "T/c"]
          (Scenarios.ready_on Scenarios.with_atomic "T"))
       eq_refl eq_refl (or_introl eq_refl) eq_refl)))
    (or_introl eq_refl) eq_refl eq_refl).
Defined.

(** C1, counterexample to the claim as stated: the file was changed at time
    0, so the throttle holds a slot for [(change, "T/c")] until 50; the
    editor's [unlink] comes at 10 and its [add] at 20. The [add] cancels the
    pending unlink and becomes a [change], which the throttle drops: no
    event at all is emitted for the save. *)
Lemma C1_counterexample :
  let s := Scenarios.save_after_change in
  let s' := _emit Scenarios.posix 20 EV_ADD "T/c" VUndef VUndef VUndef s in
  atomic_truthy (atomic (options s)) = true /\
  omap_has "T/c" (_pendingUnlinks s) = true /\
  _pendingUnlinks s' = [] /\
  emitted s' = emitted s.
Proof. vm_compute. repeat split; reflexivity. Qed.

(** ** Write-settle *)

Lemma awaitWriteFinish_fresh (P : Platform) (now : Z) (awf : AwfOptions) (path : string)
    (threshold : Z) (event : string) (args : list Val) (s : FSWatcher) :
  _pendingWrites s !! path = None ->
  let s' := _awaitWriteFinish P now awf path threshold event args s in
  emitted s' = emitted s /\
  _pendingWrites s' !! path = Some (mkPendingWrite now (nextId s) event).
Proof.
  intros Hnone. cbn zeta. unfold _awaitWriteFinish. rewrite Hnone. cbn.
  split; [reflexivity | apply lookup_insert_eq].
Qed.

(** The constructor leaves no zero threshold or interval: a falsy value takes
    its default. *)
Lemma normalize_awf_nonzero (u : UserAwf) (awf : AwfOptions) :
  normalize_awf u = Some awf ->
  stabilityThreshold awf <> 0 /\ pollInterval awf <> 0.
Proof.
  assert (Hd : forall d v, d <> 0 -> default_if_falsy d v <> 0).
  { intros d [n|] Hd; cbn; [|exact Hd]. destruct (Z.eqb_spec n 0); assumption. }
  destruct u as [| | t i]; intros H; inversion H; subst; cbn.
  - split; discriminate.
  - split; apply Hd; discriminate.
Qed.






(** ** What a run keeps true *)








































(** ** Write-settle along a run *)




(** ** Mirroring on [all] *)








(** ** Doubles *)

Section Doubles.

Lemma rne_floor (n d : Z) : 0 < d -> n / d <= Braces.rne n d <= n / d + 1.
Proof.
  intros Hd. unfold Braces.rne.
  destruct (2 * (n mod d) ?= d); [destruct (Z.even (n / d))| |]; lia.
Qed.

Lemma rne_lower (n d c : Z) : 0 < d -> c * d <= n -> c <= Braces.rne n d.
Proof.
  intros Hd Hc. pose proof (rne_floor n d Hd).
  assert (c <= n / d) by (apply Z.div_le_lower_bound; lia). lia.
Qed.

Lemma rne_upper (n d : Z) : 0 < d -> 2 * Braces.rne n d * d <= 2 * n + d.
Proof.
  intros Hd. unfold Braces.rne.
  pose proof (Z.div_mod n d ltac:(lia)) as Hdm.
  pose proof (Z.mod_pos_bound n d Hd) as Hm.
  destruct (Z.compare_spec (2 * (n mod d)) d); [destruct (Z.even (n / d))| |]; nia.
Qed.

Lemma rne_exact (n d : Z) : 0 < d -> n mod d = 0 -> Braces.rne n d = n / d.
Proof.
  intros Hd Hm. unfold Braces.rne. rewrite Hm.
  destruct (Z.compare_spec (2 * 0) d); lia.
Qed.

Lemma exponent_spec (n d : Z) :
  0 < n -> 0 < d ->
  let E := Braces.exponent n d in
  (0 <= E -> 2 ^ E * d <= n < 2 ^ (E + 1) * d) /\
  (E < 0 -> d <= n * 2 ^ (- E) /\ n * 2 ^ (- E - 1) < d).
Proof.
  intros Hn Hd. cbn zeta. unfold Braces.exponent.
  destruct (Z.leb_spec d n) as [Hle|Hlt].
  - assert (Hf : 0 < n / d) by (apply Z.div_str_pos; lia).
    pose proof (Z.log2_spec (n / d) Hf) as [Hlo Hhi].
    pose proof (Z.log2_nonneg (n / d)) as Hnn.
    split; [|lia]. intros _.
    pose proof (Z.div_mod n d ltac:(lia)) as Hdm.
    pose proof (Z.mod_pos_bound n d Hd) as Hm.
    replace (Z.succ (Z.log2 (n / d))) with (Z.log2 (n / d) + 1) in Hhi by lia.
    split; nia.
  - set (c := (d + n - 1) / n).
    assert (Hc2 : 2 <= c).
    { unfold c. apply Z.div_le_lower_bound; lia. }
    pose proof (Z.log2_up_spec c ltac:(lia)) as [Hlo Hhi].
    assert (Hj : 0 < Z.log2_up c) by (apply Z.log2_up_pos; lia).
    split; [lia|]. intros _.
    replace (- - Z.log2_up c) with (Z.log2_up c) by lia.
    replace (Z.log2_up c - 1) with (Z.pred (Z.log2_up c)) by lia.
    pose proof (Z.div_mod (d + n - 1) n ltac:(lia)) as Hdm.
    pose proof (Z.mod_pos_bound (d + n - 1) n Hn) as Hm. fold c in Hdm.
    split; nia.
Qed.

Lemma pow2_pos (z : Z) : 0 <= z -> 0 < 2 ^ z.
Proof. intros. apply Z.pow_pos_nonneg; lia. Qed.

Lemma pow2_split (a b : Z) : 0 <= a -> 0 <= b -> 2 ^ (a + b) = 2 ^ a * 2 ^ b.
Proof. intros. apply Z.pow_add_r; assumption. Qed.

(** The scaled quotient lies in the binade of 53-bit significands. *)
Lemma binade_neg (n d : Z) :
  0 < n -> 0 < d ->
  let e := Braces.exponent n d - 52 in
  e < 0 -> 2 ^ 52 * d <= n * 2 ^ (- e).
Proof.
  intros Hn Hd e He. unfold e in *. clear e.
  destruct (exponent_spec n d Hn Hd) as [Hpos Hneg].
  set (E := Braces.exponent n d) in *.
  destruct (Z.le_gt_cases 0 E) as [HE|HE].
  - destruct (Hpos HE) as [Hlo _].
    replace (- (E - 52)) with (52 - E) by lia.
    assert (H52 : 2 ^ 52 = 2 ^ E * 2 ^ (52 - E)).
    { rewrite <- pow2_split by lia. f_equal. lia. }
    rewrite H52. pose proof (pow2_pos (52 - E) ltac:(lia)). nia.
  - destruct (Hneg HE) as [Hlo _].
    replace (- (E - 52)) with (- E + 52) by lia.
    rewrite pow2_split by lia. pose proof (pow2_pos 52 ltac:(lia)). nia.
Qed.

Lemma binade_pos (n d : Z) :
  0 < n -> 0 < d ->
  let e := Braces.exponent n d - 52 in
  0 <= e -> 2 ^ 52 * (d * 2 ^ e) <= n.
Proof.
  intros Hn Hd e He. unfold e in *. clear e.
  destruct (exponent_spec n d Hn Hd) as [Hpos _].
  set (E := Braces.exponent n d) in *.
  destruct (Hpos ltac:(lia)) as [Hlo _].
  assert (HE : 2 ^ E = 2 ^ 52 * 2 ^ (E - 52)).
  { rewrite <- pow2_split by lia. f_equal. lia. }
  rewrite HE in Hlo. lia.
Qed.

Lemma Qle_bool_false (x y : Q) : ~ Qle x y -> Qle_bool x y = false.
Proof.
  intros H. destruct (Qle_bool x y) eqn:E; [|reflexivity].
  apply Qle_bool_iff in E. contradiction.
Qed.

Lemma Qle_bool_true (x y : Q) : Qle x y -> Qle_bool x y = true.
Proof. apply Qle_bool_iff. Qed.

(** A positive quotient rounds to zero, to a positive number or to
    [+Infinity]. *)
Lemma round_pos_nonneg (n d : Z) :
  0 < n -> 0 < d ->
  match Braces.round_pos n d with
  | Braces.Infinity false | Braces.Zero false => True
  | Braces.Fin y => Qle 0 y
  | _ => False
  end.
Proof.
  intros Hn Hd. unfold Braces.round_pos.
  set (e := Z.max (Braces.exponent n d - 52) (-1074)).
  destruct (Z.leb_spec 0 e) as [He|He].
  - pose proof (pow2_pos e He) as Hp.
    pose proof (rne_lower n (d * 2 ^ e) 0 ltac:(nia) ltac:(lia)) as Hm.
    destruct (2 ^ 1024 <=? Braces.rne n (d * 2 ^ e) * 2 ^ e); [exact I|].
    unfold Qle. cbn. nia.
  - pose proof (pow2_pos (- e) ltac:(lia)) as Hp.
    pose proof (rne_lower (n * 2 ^ (- e)) d 0 Hd ltac:(nia)) as Hm.
    destruct (Braces.rne (n * 2 ^ (- e)) d =? 0); [exact I|].
    unfold Qle. cbn. lia.
Qed.

(** A quotient of at least the integer [L] rounds to at least [L]. *)
Lemma round_pos_geb_true (n d L : Z) (Lq : Q) :
  0 < n -> 0 < d -> 1 <= L <= 2 ^ 52 -> L * d <= n -> Qeq Lq (inject_Z L) ->
  Braces.num_geb (Braces.round_pos n d) (Braces.Fin Lq) = true.
Proof.
  intros Hn Hd HL Hle HLq. unfold Braces.round_pos.
  assert (HE : 0 <= Braces.exponent n d).
  { unfold Braces.exponent. destruct (Z.leb_spec d n); [apply Z.log2_nonneg | nia]. }
  pose proof (binade_pos n d Hn Hd) as Hbp. pose proof (binade_neg n d Hn Hd) as Hbn.
  cbn zeta in Hbp, Hbn.
  rewrite Z.max_l by lia.
  set (e := Braces.exponent n d - 52) in *.
  destruct (Z.leb_spec 0 e) as [He|He].
  - pose proof (pow2_pos e He) as Hp.
    pose proof (rne_lower n (d * 2 ^ e) (2 ^ 52) ltac:(nia) (Hbp He)) as Hm.
    destruct (2 ^ 1024 <=? Braces.rne n (d * 2 ^ e) * 2 ^ e); [reflexivity|].
    cbn. apply Qle_bool_true. rewrite HLq. unfold Qle. cbn. nia.
  - pose proof (pow2_pos (- e) ltac:(lia)) as Hp.
    pose proof (rne_lower (n * 2 ^ (- e)) d (L * 2 ^ (- e)) Hd ltac:(nia)) as Hm.
    destruct (Z.eqb_spec (Braces.rne (n * 2 ^ (- e)) d) 0) as [H0|_]; [nia|].
    cbn. apply Qle_bool_true. rewrite HLq. unfold Qle. cbn.
    rewrite Z2Pos.id by exact Hp. lia.
Qed.

(** A quotient [n/d] that stays [1/k] below the integer [L] rounds below
    [L], when [k * L] is at most [2^52]. *)
Lemma round_pos_geb_false (n d k L : Z) (Lq : Q) :
  0 < n -> 0 < d -> 1 <= k -> 1 <= L -> k * L <= 2 ^ 52 ->
  d <= n * k -> n * k + d <= L * d * k -> Qeq Lq (inject_Z L) ->
  Braces.num_geb (Braces.round_pos n d) (Braces.Fin Lq) = false.
Proof.
  intros Hn Hd Hk HL HkL Hlow Hup HLq. unfold Braces.round_pos.
  assert (HnL : n < L * d) by nia.
  destruct (exponent_spec n d Hn Hd) as [Hpos Hneg].
  pose proof (binade_neg n d Hn Hd) as Hbn. cbn zeta in Hbn.
  set (E := Braces.exponent n d) in *.
  assert (HE : -52 <= E < 52).
  { destruct (Z.le_gt_cases 0 E) as [H0|H0].
    - split; [lia|]. destruct (Hpos H0) as [Hlo _].
      assert (H2 : 2 ^ E < 2 ^ 52) by nia.
      apply Z.pow_lt_mono_r_iff in H2; lia.
    - split; [|lia]. destruct (Hneg H0) as [_ Hhi].
      assert (H2 : 2 ^ (- E - 1) < 2 ^ 52).
      { pose proof (pow2_pos (- E - 1) ltac:(lia)). nia. }
      apply Z.pow_lt_mono_r_iff in H2; lia. }
  rewrite Z.max_l by lia.
  destruct (Z.leb_spec 0 (E - 52)) as [He|He]; [lia|].
  specialize (Hbn He).
  set (T := 2 ^ (- (E - 52))) in *.
  assert (HT : 0 < T) by (apply pow2_pos; lia).
  pose proof (rne_upper (n * T) d Hd) as Hm.
  set (m := Braces.rne (n * T) d) in *.
  assert (HkT : k < T).
  { assert (2 ^ 52 < L * T) by nia. nia. }
  assert (Hlt : m < L * T).
  { destruct (Z.lt_ge_cases m (L * T)) as [|Hge]; [assumption|exfalso].
    assert (H1 : 2 * (L * T) * d <= 2 * (n * T) + d) by nia.
    assert (H2 : 2 * T * (n * k) + 2 * T * d <= 2 * T * (L * d * k)) by nia.
    assert (H3 : 2 * (L * T) * d * k <= (2 * (n * T) + d) * k) by nia.
    assert (H4 : 2 * T * d <= d * k) by nia.
    nia. }
  destruct (Z.eqb_spec m 0) as [H0|_].
  - cbn. apply Qle_bool_false. rewrite HLq. unfold Qle. cbn. lia.
  - cbn. apply Qle_bool_false. rewrite HLq. unfold Qle. cbn.
    unfold T at 1. rewrite Z2Pos.id by (fold T; exact HT). fold T. lia.
Qed.

(** An integer up to [2^53] is a double. *)
Lemma round_pos_integer (n : Z) :
  0 < n <= 2 ^ 53 ->
  exists y, Braces.round_pos n 1 = Braces.Fin y /\ Qeq y (inject_Z n).
Proof.
  intros Hn. unfold Braces.round_pos.
  destruct (exponent_spec n 1 ltac:(lia) ltac:(lia)) as [Hpos _].
  assert (HE0 : 0 <= Braces.exponent n 1).
  { unfold Braces.exponent. destruct (Z.leb_spec 1 n); [apply Z.log2_nonneg | lia]. }
  destruct (Hpos HE0) as [Hlo _].
  set (E := Braces.exponent n 1) in *.
  assert (HE : E <= 53).
  { assert (H2 : 2 ^ E < 2 ^ 54).
    { change (2 ^ 54) with (2 * 2 ^ 53). lia. }
    apply Z.pow_lt_mono_r_iff in H2; lia. }
  rewrite Z.max_l by lia.
  destruct (Z.leb_spec 0 (E - 52)) as [He|He].
  - assert (Hcase : E = 52 \/ E = 53) by lia.
    destruct Hcase as [HE'|HE'].
    + rewrite HE'. change (2 ^ (52 - 52)) with 1. rewrite Z.mul_1_r.
      rewrite rne_exact by (try lia; apply Z.mod_1_r). rewrite Z.div_1_r.
      destruct (Z.leb_spec (2 ^ 1024) n) as [Hbig|_].
      { exfalso. assert (2 ^ 53 < 2 ^ 1024) by (apply Z.pow_lt_mono_r; lia). lia. }
      eexists. split; reflexivity.
    + rewrite HE' in Hlo. rewrite Z.mul_1_r in Hlo.
      assert (n = 2 ^ 53) by lia. subst n. rewrite HE'.
      eexists. split; [vm_compute; reflexivity|]. vm_compute. reflexivity.
  - set (T := 2 ^ (- (E - 52))).
    assert (HT : 0 < T) by (apply pow2_pos; lia).
    rewrite rne_exact by (try lia; apply Z.mod_1_r). rewrite Z.div_1_r.
    destruct (Z.eqb_spec (n * T) 0) as [H0|_]; [nia|].
    eexists. split; [reflexivity|]. unfold Qeq. cbn.
    rewrite Z2Pos.id by exact HT. lia.
Qed.

Lemma round_eq (q1 q2 : Q) : Qeq q1 q2 -> Braces.round q1 = Braces.round q2.
Proof. intros H. unfold Braces.round. rewrite (Qred_complete q1 q2 H). reflexivity. Qed.

Lemma round_reduced (q : Q) :
  0 < Qnum q ->
  exists p d, 0 < p /\ 0 < d /\ p * Z.pos (Qden q) = Qnum q * d /\
              Braces.round q = Braces.round_pos p d.
Proof.
  intros Hq. unfold Braces.round.
  pose proof (Qred_correct q) as Hr. unfold Qeq in Hr.
  destruct (Qred q) as [p d]. cbn [Qnum Qden] in *.
  destruct p as [|p|p]; try nia.
  exists (Z.pos p), (Z.pos d). repeat split; try lia.
Qed.

Lemma round_inject (n : Z) : 0 < n -> Braces.round (inject_Z n) = Braces.round_pos n 1.
Proof.
  intros Hn. unfold Braces.round.
  assert (Hred : Qred (inject_Z n) = inject_Z n).
  { unfold inject_Z, Qred.
    pose proof (Z.ggcd_correct_divisors n 1) as H. pose proof (Z.ggcd_gcd n 1) as Hg.
    destruct (Z.ggcd n 1) as [g [aa bb]]. cbn [fst snd] in *. destruct H as [H1 H2].
    rewrite Z.gcd_1_r in Hg. subst g.
    assert (Ha : aa = n) by lia. assert (Hb : bb = 1) by lia.
    rewrite Ha, Hb. reflexivity. }
  rewrite Hred. cbn. destruct n; try lia. reflexivity.
Qed.

Lemma inject_Z_eq (a b : Z) : Qeq (inject_Z a) (inject_Z b) -> a = b.
Proof. unfold Qeq. cbn. lia. Qed.

(** The difference of two doubles that are integers is their exact
    difference, when that is at most [2^53]. *)
Lemma sub_reads (A B : Braces.Num) (a b : Z) :
  reads_as A a -> reads_as B b -> a <= b -> b - a <= 2 ^ 53 ->
  reads_as (Braces.num_sub B A) (b - a).
Proof.
  intros HA HB Hle Hmax.
  destruct B as [|sb|sb|x], A as [|sa|sa|y]; cbn in HA, HB; try contradiction.
  - cbn. lia.
  - destruct HA as [Hy Ha]. subst b. cbn. split; [|lia].
    rewrite Hy. unfold Qeq. cbn. lia.
  - destruct HB as [Hx Hb]. subst a. cbn. split; [|lia].
    rewrite Hx. unfold Qeq. cbn. lia.
  - destruct HA as [Hy Ha], HB as [Hx Hb]. cbn [Braces.num_sub].
    destruct (Qeq_bool x y) eqn:Heq.
    + apply Qeq_bool_iff in Heq. rewrite Hx, Hy in Heq. apply inject_Z_eq in Heq.
      cbn. lia.
    + assert (Hne : b <> a).
      { intros ->. apply Qeq_bool_neq in Heq. apply Heq. rewrite Hx, Hy. reflexivity. }
      assert (Hd : Qeq (x - y) (inject_Z (b - a))).
      { rewrite Hx, Hy. unfold Qeq. cbn. lia. }
      rewrite (round_eq _ _ Hd), round_inject by lia.
      destruct (round_pos_integer (b - a) ltac:(lia)) as (z & -> & Hz).
      cbn. split; [exact Hz | lia].
Qed.

(** The quotient of an integer [n] between 0 and [2^53] by a positive
    integer [k], as doubles, reaches the integer [L] exactly when [n / k]
    does, provided [L * k] is at most [2^52]. *)
Lemma div_geb (R S Lim : Braces.Num) (n k L : Z) :
  reads_as R n -> 0 <= n <= 2 ^ 53 -> reads_as S k -> 1 <= k ->
  reads_as Lim L -> L * k <= 2 ^ 52 ->
  Braces.num_geb (Braces.num_div R S) Lim = (L * k <=? n).
Proof.
  intros HR Hn HS Hk HL HLk.
  destruct S as [|ss|ss|K]; cbn in HS; try contradiction; [lia|].
  destruct HS as [HK _].
  destruct R as [|sr|sr|x]; cbn in HR; try contradiction.
  - subst n. cbn [Braces.num_div].
    destruct Lim as [|sl|sl|Lq]; cbn in HL; try contradiction.
    + subst L. cbn. reflexivity.
    + destruct HL as [HLq HL0]. cbn.
      destruct (Z.leb_spec (L * k) 0).
      * apply Qle_bool_true. rewrite HLq. unfold Qle. cbn. nia.
      * apply Qle_bool_false. rewrite HLq. unfold Qle. cbn. nia.
  - destruct HR as [Hx Hn0]. cbn [Braces.num_div].
    assert (Hq : Qeq (x / K) (n # Z.to_pos k)).
    { rewrite Hx, HK, Qmake_Qdiv. rewrite Z2Pos.id by lia. reflexivity. }
    rewrite (round_eq _ _ Hq).
    destruct (round_reduced (n # Z.to_pos k) ltac:(cbn; lia))
      as (p & d & Hp & Hd & Hpd & ->).
    cbn [Qnum Qden] in Hpd. rewrite Z2Pos.id in Hpd by lia.
    pose proof (round_pos_nonneg p d Hp Hd) as Hnn.
    destruct Lim as [|sl|sl|Lq]; cbn in HL; try contradiction.
    + subst L. destruct (Z.leb_spec (0 * k) n); [|lia].
      destruct (Braces.round_pos p d) as [|[]|[]|y]; try contradiction; try reflexivity.
      cbn. apply Qle_bool_true. exact Hnn.
    + destruct HL as [HLq HL0].
      destruct (Z.le_gt_cases L 0) as [Hneg|Hpos].
      * destruct (Z.leb_spec (L * k) n); [|nia].
        destruct (Braces.round_pos p d) as [|[]|[]|y]; try contradiction; try reflexivity.
        -- cbn. apply Qle_bool_true. rewrite HLq. unfold Qle. cbn. lia.
        -- cbn. apply Qle_bool_true. apply Qle_trans with 0%Q; [|exact Hnn].
           rewrite HLq. unfold Qle. cbn. lia.
      * destruct (Z.leb_spec (L * k) n) as [Hle|Hgt].
        -- apply (round_pos_geb_true p d L Lq); try assumption; nia.
        -- apply (round_pos_geb_false p d k L Lq); try assumption; try lia; nia.
Qed.
End Doubles.

(** The input on which exact arithmetic and doubles part: [9007199254740994
    - (-1)] is not a double and rounds up to [9007199254740996], which
    reaches a limit of that value. *)
Lemma exceedsLimit_rounds :
  Braces.exceedsLimit Scenarios.decimal_Number Scenarios.blank
    (Braces.JString "-1") (Braces.JString "9007199254740994") Braces.JUndefined
    (Braces.JNumber (Braces.Fin (inject_Z 9007199254740996))) = true /\
  (9007199254740994 - -1 < 9007199254740996).
Proof. split; [vm_compute; reflexivity | lia]. Qed.

(** ** The range limit of brace expansion *)

Section BracesFacts.
Variable Number_of_string : string -> Braces.Num.
Variable blank : string -> bool.
Variable fill : list string -> option (list Braces.QV).
Variable o : Braces.Options.

Abbreviation walk := (Braces.walk Number_of_string blank fill o).
Abbreviation exceeds :=
  (fun args => Braces.exceedsLimit_spread Number_of_string blank args
                 (Braces.step o) (Braces.effective_rangeLimit o)).

Lemma expand_RangeError (ast : Braces.Node) :
  Braces.expand Number_of_string blank fill o ast = Throw "RangeError" <->
  walk ast [] = Throw "RangeError".
Proof.
  unfold Braces.expand. destruct (walk ast []) as [[q queue]|e]; split; congruence.
Qed.

Lemma walk_takes_range (a : Braces.Attr) (children : list Braces.Node) (q : list Braces.QV) :
  takes_range a children = true ->
  walk (Braces.mkNode a (Some children)) q =
  Braces.walk_range Number_of_string blank fill o children
    (Braces.stringify o (Braces.mkNode a (Some children))) q.
Proof.
  unfold takes_range, walked. rewrite !andb_true_iff, !negb_true_iff.
  intros [[Hi Hb] Hr]. cbn [Braces.walk].
  change (default [] (Some children)) with children. rewrite Hi, Hb, Hr. reflexivity.
Qed.

Lemma walk_loops_over (a : Braces.Attr) (children : list Braces.Node) (q : list Braces.QV) :
  loops_over a children = true ->
  walk (Braces.mkNode a (Some children)) q =
  match Braces.walk_children walk a (Braces.encloseBrace a) children 0%nat
          (if Braces.is_type "brace" a || Braces.is_type "root" a
           then Braces.mkQueues q (Some []) else Braces.mkQueues q None) with
  | Throw e => Throw e
  | Normal st => Normal (Braces.outer st, Braces.block_queue st)
  end.
Proof.
  unfold loops_over, walked. rewrite !andb_true_iff, !negb_true_iff.
  intros [[Hi Hb] Hr]. cbn [Braces.walk].
  change (default [] (Some children)) with children. rewrite Hi, Hb, Hr. reflexivity.
Qed.

Lemma walk_range_throws (children : list Braces.Node) (literal : string) (q : list Braces.QV) :
  Braces.walk_range Number_of_string blank fill o children literal q = Throw "RangeError" <->
  exceeds (Braces.reduce children) = true.
Proof.
  unfold Braces.walk_range.
  destruct (Braces.exceedsLimit_spread _ _ _ _ _); [tauto|].
  destruct (fill _) as [range|]; split; discriminate.
Qed.

Lemma walk_children_app (rec : Braces.Node -> list Braces.QV ->
                               Completion (list Braces.QV * list Braces.QV))
    (a : Braces.Attr) (enclose : bool) (pre rest : list Braces.Node) :
  forall i st,
  Braces.walk_children rec a enclose (pre ++ rest) i st =
  match Braces.walk_children rec a enclose pre i st with
  | Normal st' => Braces.walk_children rec a enclose rest (i + length pre)%nat st'
  | Throw e => Throw e
  end.
Proof.
  induction pre as [|child pre IH]; intros i st.
  - cbn. rewrite Nat.add_0_r. reflexivity.
  - cbn [app Braces.walk_children length].
    replace (i + S (length pre))%nat with (S i + length pre)%nat by lia.
    destruct (Braces.is_type "comma" (Braces.attr child) && Braces.is_type "brace" a);
      [apply IH|].
    destruct (Braces.is_type "close" (Braces.attr child)).
    { destruct (Braces.pop (Braces.outer st)). apply IH. }
    destruct (Braces.truthy_value (Braces.attr child)) as [v|],
      (Braces.is_type "open" (Braces.attr child)); try apply IH.
    all: destruct (Braces.nodes child); try apply IH.
    all: destruct (rec child (Braces.block_queue st)) as [[q' ?]|e]; [apply IH | reflexivity].
Qed.

Lemma walk_children_Forall (Q : Completion (list Braces.QV * list Braces.QV) -> Prop)
    (R : Completion Braces.Queues -> Prop) (a : Braces.Attr) (enclose : bool)
    (l : list Braces.Node) :
  (forall st, R (Normal st)) ->
  (forall e, Q (Throw e) -> R (Throw e)) ->
  Forall (fun c => Braces.nodes c <> None -> forall q, Q (walk c q)) l ->
  forall i st, R (Braces.walk_children walk a enclose l i st).
Proof.
  intros Hnormal Hthrow. induction 1 as [|child l Hc _ IH]; intros i st;
    cbn [Braces.walk_children]; [apply Hnormal|].
  destruct (Braces.is_type "comma" (Braces.attr child) && Braces.is_type "brace" a);
    [apply IH|].
  destruct (Braces.is_type "close" (Braces.attr child)).
  { destruct (Braces.pop (Braces.outer st)). apply IH. }
  destruct (Braces.truthy_value (Braces.attr child)) as [v|],
    (Braces.is_type "open" (Braces.attr child)); try apply IH.
  all: destruct (Braces.nodes child) eqn:Hn; try apply IH.
  all: assert (Hq := Hc ltac:(discriminate) (Braces.block_queue st));
    destruct (walk child (Braces.block_queue st)) as [[q' ?]|e];
    [apply IH | apply Hthrow; exact Hq].
Qed.

Lemma Node_nested_ind (Q : Braces.Node -> Prop) :
  (forall a, Q (Braces.mkNode a None)) ->
  (forall a l, Forall Q l -> Q (Braces.mkNode a (Some l))) ->
  forall n, Q n.
Proof.
  intros Hleaf Hnode. fix IH 1. intros [a [l|]]; [apply Hnode | apply Hleaf].
  induction l as [|x l IHl]; constructor; [apply IH | exact IHl].
Qed.

Lemma all_children (f : Braces.Node -> bool) (l : list Braces.Node) :
  (fix all (l : list Braces.Node) : bool :=
     match l with
     | [] => true
     | child :: l' => f child && all l'
     end) l = true <->
  Forall (fun c => f c = true) l.
Proof.
  induction l as [|x l IH]; [split; constructor|].
  rewrite andb_true_iff, IH. split.
  - intros [Hx Hl]. constructor; assumption.
  - intros H. inversion H; subst. split; assumption.
Qed.

(** A tree all of whose ranges are within the limit never fails on it. *)
Lemma walk_ranges_within (node : Braces.Node) :
  ranges_all (fun args => negb (exceeds args)) node = true ->
  forall q, walk node q <> Throw "RangeError".
Proof.
  induction node as [a | a l IH] using Node_nested_ind; intros Hall q; cbn [Braces.walk].
  - destruct (Braces.invalid a || Braces.dollar a); [discriminate|].
    destruct (_ && _); discriminate.
  - destruct (Braces.invalid a || Braces.dollar a); [discriminate|].
    destruct (Braces.is_type "brace" a && negb (Braces.invalid a) &&
              bool_decide (length (default [] (Some l)) = 2%nat)); [discriminate|].
    cbn [ranges_all] in Hall.
    destruct (0 <? Braces.ranges a).
    + rewrite walk_range_throws. apply negb_true_iff in Hall. rewrite Hall. discriminate.
    + apply all_children in Hall.
      assert (Hch : Forall (fun c => Braces.nodes c <> None ->
                              forall q, walk c q <> Throw "RangeError") l).
      { rewrite Forall_forall in *. intros c Hc _. apply IH; [exact Hc | apply Hall; exact Hc]. }
      match goal with |- context [Braces.walk_children _ a ?e l ?i ?st] =>
        pose proof (walk_children_Forall (fun r => r <> Throw "RangeError")
                      (fun r => r <> Throw "RangeError") a e l
                      ltac:(discriminate) ltac:(intros x Hx; congruence) Hch i st) as Hnt;
        destruct (Braces.walk_children walk a e l i st) end; [discriminate | congruence].
Qed.

Lemma ranges_all_impl (ok1 ok2 : list string -> bool) (node : Braces.Node) :
  (forall args, ok1 args = true -> ok2 args = true) ->
  ranges_all ok1 node = true -> ranges_all ok2 node = true.
Proof.
  intros Himp. induction node as [a | a l IH] using Node_nested_ind; [reflexivity|].
  cbn [ranges_all]. destruct (0 <? Braces.ranges a); [apply Himp|].
  rewrite !all_children, !Forall_forall in *. intros Hall c Hc. apply IH; auto.
Qed.

Lemma no_range_ranges_all (ok : list string -> bool) (node : Braces.Node) :
  no_range node = true -> ranges_all ok node = true.
Proof.
  induction node as [a | a l IH] using Node_nested_ind; [reflexivity|].
  cbn [no_range ranges_all]. rewrite andb_true_iff, negb_true_iff. intros [-> Hall].
  rewrite all_children, Forall_forall in *. intros c Hc. apply IH; auto.
Qed.

(** [walk] completes on a tree without ranges. *)
Lemma walk_no_range_completes (node : Braces.Node) :
  no_range node = true -> Braces.nodes node <> None ->
  forall q, exists r, walk node q = Normal r.
Proof.
  induction node as [a | a l IH] using Node_nested_ind; intros Hnr Hn q;
    [contradiction|].
  cbn [Braces.walk].
  destruct (Braces.invalid a || Braces.dollar a); [eexists; reflexivity|].
  destruct (Braces.is_type "brace" a && negb (Braces.invalid a) &&
            bool_decide (length (default [] (Some l)) = 2%nat)); [eexists; reflexivity|].
  cbn [no_range] in Hnr. apply andb_true_iff in Hnr as [Hr Hall].
  apply negb_true_iff in Hr. rewrite Hr. apply all_children in Hall.
  assert (Hch : Forall (fun c => Braces.nodes c <> None ->
                          forall q, exists r, walk c q = Normal r) l).
  { rewrite Forall_forall in *. intros c Hc Hcn. apply IH; [exact Hc | apply Hall; exact Hc | exact Hcn]. }
  match goal with |- context [Braces.walk_children _ a ?e l ?i ?st] =>
    pose proof (walk_children_Forall (fun r => exists x, r = Normal x)
                  (fun r => exists x, r = Normal x) a e l
                  ltac:(intros; eexists; reflexivity)
                  ltac:(intros x [y Hy]; discriminate) Hch i st) as [st' ->] end.
  eexists; reflexivity.
Qed.

(** A range that exceeds the limit, at a place [walk] comes to, makes
    [walk] throw. *)
Lemma walk_reaches_range (later : Braces.Node -> bool) (a : Braces.Attr)
    (children : list Braces.Node) (ast : Braces.Node) :
  on_walk later (Braces.mkNode a (Some children)) ast ->
  takes_range a children = true ->
  exceeds (Braces.reduce children) = true ->
  forall q, walk ast q = Throw "RangeError".
Proof.
  intros Hon Htr Hex. induction Hon as [|pa pre post mid Hloop Hpre _ Hdesc Hon IH]; intros q.
  - rewrite walk_takes_range by exact Htr. apply walk_range_throws. exact Hex.
  - rewrite walk_loops_over by exact Hloop. rewrite walk_children_app.
    assert (Hch : Forall (fun c => Braces.nodes c <> None ->
                            forall q, exists r, walk c q = Normal r) pre).
    { eapply Forall_impl; [exact Hpre|]. intros c Hc Hcn. apply walk_no_range_completes; assumption. }
    match goal with |- context [Braces.walk_children _ pa ?e pre ?i ?st] =>
      pose proof (walk_children_Forall (fun r => exists x, r = Normal x)
                    (fun r => exists x, r = Normal x) pa e pre
                    ltac:(intros; eexists; reflexivity)
                    ltac:(intros x [y Hy]; discriminate) Hch i st) as [st' ->] end.
    cbn [Braces.walk_children].
    unfold descends in Hdesc. rewrite !andb_true_iff, !negb_true_iff in Hdesc.
    destruct Hdesc as [[Hcomma Hclose] Hval]. rewrite Hcomma, Hclose.
    assert (Hnodes : exists l, Braces.nodes mid = Some l).
    { inversion Hon; subst; eexists; reflexivity. }
    destruct Hnodes as [l Hl].
    destruct (Braces.truthy_value (Braces.attr mid)) as [v|];
      [rewrite Hval|]; rewrite Hl, IH; reflexivity.
Qed.

(** In a tree whose only range is at a place [walk] comes to, every range
    satisfies what that range satisfies. *)
Lemma sole_range_all (ok : list string -> bool) (a : Braces.Attr)
    (children : list Braces.Node) (ast : Braces.Node) :
  on_walk (fun n => no_range n) (Braces.mkNode a (Some children)) ast ->
  takes_range a children = true ->
  ok (Braces.reduce children) = true ->
  ranges_all ok ast = true.
Proof.
  intros Hon Htr Hok. induction Hon as [|pa pre post mid Hloop Hpre Hpost _ Hon IH].
  - cbn [ranges_all]. unfold takes_range in Htr. apply andb_true_iff in Htr as [_ ->].
    exact Hok.
  - cbn [ranges_all]. unfold loops_over in Hloop. apply andb_true_iff in Hloop as [_ Hr].
    apply negb_true_iff in Hr. rewrite Hr.
    apply all_children. apply Forall_app. split.
    + eapply Forall_impl; [exact Hpre|]. intros c. apply no_range_ranges_all.
    + constructor; [exact IH|].
      eapply Forall_impl; [exact Hpost|]. intros c. apply no_range_ranges_all.
Qed.

Lemma is_integer_reads (x : Braces.Num) (z : Z) : reads_as x z -> Braces.is_integer x = true.
Proof.
  destruct x as [| | |q]; cbn; try contradiction; [reflexivity|].
  intros [Hq _]. unfold Qeq in Hq. cbn in Hq. rewrite Z.mul_1_r in Hq. rewrite Hq.
  rewrite Z.mod_mul by lia. reflexivity.
Qed.

(** The test of [exceedsLimit] on a range of two integer endpoints. *)
Lemma exceeds_integer_range (smin smax : string) (a b k L : Z) :
  blank smin = false -> blank smax = false ->
  reads_as (Number_of_string smin) a ->
  reads_as (Number_of_string smax) b ->
  a <= b -> b - a <= 2 ^ 53 ->
  reads_as (Braces.to_number Number_of_string (effective_step o)) k -> 1 <= k ->
  Braces.effective_rangeLimit o <> Braces.JBool false ->
  reads_as (Braces.to_number Number_of_string (Braces.effective_rangeLimit o)) L ->
  L * k <= 2 ^ 52 ->
  (exceeds [smin; smax] = true <-> L * k <= b - a).
Proof.
  intros Hbmin Hbmax Hmin Hmax Hle Hsafe Hstep Hk Hnf Hlim HLk.
  unfold Braces.exceedsLimit_spread.
  set (limit := Braces.effective_rangeLimit o) in *.
  change (default Braces.JUndefined
            (((Braces.JString <$> [smin; smax]) ++ [Braces.step o; limit]) !! 0%nat))
    with (Braces.JString smin).
  change (default Braces.JUndefined
            (((Braces.JString <$> [smin; smax]) ++ [Braces.step o; limit]) !! 1%nat))
    with (Braces.JString smax).
  change (default Braces.JUndefined
            (((Braces.JString <$> [smin; smax]) ++ [Braces.step o; limit]) !! 2%nat))
    with (Braces.step o).
  change (default Braces.JUndefined
            (((Braces.JString <$> [smin; smax]) ++ [Braces.step o; limit]) !! 3%nat))
    with limit.
  unfold Braces.exceedsLimit.
  replace (match Braces.step o with
           | Braces.JUndefined => Braces.JNumber (Braces.Fin 1)
           | _ => Braces.step o
           end) with (effective_step o)
    by (unfold effective_step; destruct (Braces.step o); reflexivity).
  cbn [Braces.isInteger Braces.to_number]. rewrite Hbmin, Hbmax.
  rewrite (is_integer_reads _ _ Hmin), (is_integer_reads _ _ Hmax). cbn [negb andb orb].
  pose proof (sub_reads _ _ a b Hmin Hmax Hle Hsafe) as Hsub.
  pose proof (div_geb _ _ _ (b - a) k L Hsub ltac:(lia) Hstep Hk Hlim HLk) as Hgeb.
  assert (Hres : Braces.num_geb
            (Braces.num_div
               (Braces.num_sub (Number_of_string smax) (Number_of_string smin))
               (Braces.to_number Number_of_string (effective_step o)))
            (Braces.to_number Number_of_string limit) = true <-> L * k <= b - a).
  { rewrite Hgeb. apply Z.leb_le. }
  destruct limit as [|[]| |]; try exact Hres. exfalso. apply Hnf. reflexivity.
Qed.

End BracesFacts.

(** C9, as the code has it: the limit bounds each numeric range on its own,
    not the unrolled set. (1) For a pattern whose only range is [{min..max}]
    at a place the walk comes to, with integer endpoints [min <= max] at
    most [2^53] apart, expansion fails with a [RangeError] if and only if
    [(max - min) / step] reaches the limit; the step is [options.step], 1 by
    default, here a positive integer [k], the limit is an integer [L], and
    [L * k] is at most [2^52]. (2) The limit is 1000 when
    [options.rangeLimit] is undefined. (3) With [options.rangeLimit] set to
    [false] a pattern whose ranges have two endpoints never fails on the
    limit. (4) A pattern all of whose ranges are within the limit (one
    without ranges, for instance) never fails on the limit, however many
    strings it expands to. (5) A range that reaches the limit, at a place the
    walk comes to, makes the expansion fail with a [RangeError]. *)
Theorem C9_range_limit_per_range (Number_of_string : string -> Braces.Num)
    (blank : string -> bool) (fill : list string -> option (list Braces.QV))
    (o : Braces.Options) :
  let expand := Braces.expand Number_of_string blank fill o in
  let exceeds := fun args =>
    Braces.exceedsLimit_spread Number_of_string blank args
      (Braces.step o) (Braces.effective_rangeLimit o) in
  (forall ast a children smin smax min max k L,
      on_walk (fun n => no_range n) (Braces.mkNode a (Some children)) ast ->
      takes_range a children = true ->
      Braces.reduce children = [smin; smax] ->
      blank smin = false -> blank smax = false ->
      reads_as (Number_of_string smin) min ->
      reads_as (Number_of_string smax) max ->
      min <= max -> max - min <= 2 ^ 53 ->
      reads_as (Braces.to_number Number_of_string (effective_step o)) k -> 1 <= k ->
      Braces.effective_rangeLimit o <> Braces.JBool false ->
      reads_as (Braces.to_number Number_of_string (Braces.effective_rangeLimit o)) L ->
      L * k <= 2 ^ 52 ->
      (expand ast = Throw "RangeError" <-> L * k <= max - min)) /\
  (Braces.rangeLimit o = Braces.JUndefined ->
   Braces.effective_rangeLimit o = Braces.JNumber (Braces.Fin (inject_Z 1000))) /\
  (Braces.rangeLimit o = Braces.JBool false ->
   forall ast,
     ranges_all (fun args => bool_decide (length args = 2%nat)) ast = true ->
     expand ast <> Throw "RangeError") /\
  (forall ast,
      ranges_all (fun args => negb (exceeds args)) ast = true ->
      expand ast <> Throw "RangeError") /\
  (forall ast a children,
      on_walk (fun _ => true) (Braces.mkNode a (Some children)) ast ->
      takes_range a children = true ->
      exceeds (Braces.reduce children) = true ->
      expand ast = Throw "RangeError").
Proof.
  cbn zeta.
  assert (Hwithin : forall ast,
            ranges_all (fun args =>
              negb (Braces.exceedsLimit_spread Number_of_string blank args
                      (Braces.step o) (Braces.effective_rangeLimit o))) ast = true ->
            Braces.expand Number_of_string blank fill o ast <> Throw "RangeError").
  { intros ast Hall. rewrite expand_RangeError. apply walk_ranges_within. exact Hall. }
  split; [|split; [|split; [|split]]].
  - intros ast a children smin smax min max k L Hon Htr Hargs Hb1 Hb2 Hn1 Hn2 Hle Hsafe
      Hstep Hk Hnf Hlim HLk.
    pose proof (exceeds_integer_range Number_of_string blank o smin smax min max k L
                  Hb1 Hb2 Hn1 Hn2 Hle Hsafe Hstep Hk Hnf Hlim HLk) as Hex.
    cbv beta in Hex. rewrite <- Hex, <- Hargs. split.
    + intros Hthrow.
      destruct (Braces.exceedsLimit_spread Number_of_string blank (Braces.reduce children)
                  (Braces.step o) (Braces.effective_rangeLimit o)) eqn:E; [reflexivity|].
      exfalso. apply (Hwithin ast); [|exact Hthrow].
      apply (sole_range_all _ a children ast Hon Htr). rewrite E. reflexivity.
    + intros E. rewrite expand_RangeError.
      apply (walk_reaches_range Number_of_string blank fill o _ a children ast Hon Htr E).
  - intros Hu. unfold Braces.effective_rangeLimit. rewrite Hu. reflexivity.
  - intros Hf ast Hall. apply Hwithin.
    apply (ranges_all_impl (fun args => bool_decide (length args = 2%nat))); [|exact Hall].
    intros args Hlen. apply bool_decide_eq_true in Hlen.
    destruct args as [|x [|y [|z args]]]; try discriminate Hlen.
    unfold Braces.effective_rangeLimit. rewrite Hf.
    unfold Braces.exceedsLimit_spread, Braces.exceedsLimit. cbn.
    destruct (Braces.step o); reflexivity.
  - exact Hwithin.
  - intros ast a children Hon Htr E. rewrite expand_RangeError.
    apply (walk_reaches_range Number_of_string blank fill o _ a children ast Hon Htr E).
Qed.

(** C9, an instance: in the pattern [x{1..1001}] under the default options
    the range fails, since [1001 - 1] reaches 1000. *)
Lemma C9_range_limit_per_range_witness :
  Braces.expand Scenarios.decimal_Number Scenarios.blank Scenarios.fill_unused
    Scenarios.default_options
    (Scenarios.root [Scenarios.text "x";
                     Braces.mkNode Scenarios.range_attr
                       (Some (Scenarios.range_children "1" "1001"))]) =
  Throw "RangeError".
Proof.
  apply (proj1 (C9_range_limit_per_range Scenarios.decimal_Number Scenarios.blank
                  Scenarios.fill_unused Scenarios.default_options)
           _ Scenarios.range_attr (Scenarios.range_children "1" "1001")
           "1" "1001" 1 1001 1 1000).
  - apply (on_walk_child _ _ _ [Scenarios.leaf "bos" None; Scenarios.text "x"]
             [Scenarios.leaf "eos" None]).
    + reflexivity.
    + repeat constructor.
    + repeat constructor.
    + reflexivity.
    + apply on_walk_here.
  - reflexivity.
  - reflexivity.
  - reflexivity.
  - reflexivity.
  - vm_compute. split; [reflexivity | discriminate].
  - vm_compute. split; [reflexivity | discriminate].
  - lia.
  - lia.
  - vm_compute. split; [reflexivity | discriminate].
  - lia.
  - discriminate.
  - vm_compute. split; [reflexivity | discriminate].
  - lia.
  - lia.
Defined.

(** C9, counterexample to the claim as stated: under the default bound of
    1000 the ten alternations [{a,b}...{a,b}] expand, without any error, to
    1024 strings. *)
Lemma C9_counterexample :
  exists l,
    Braces.expand Scenarios.decimal_Number Scenarios.blank Scenarios.fill_unused
      Scenarios.default_options Scenarios.ten_alternations = Normal l /\
    length l = 1024%nat.
Proof.
  eexists. split; [vm_compute; reflexivity | vm_compute; reflexivity].
Qed.

(** * Further properties of the code *)

(** ** Path strings *)

Lemma flip_backslashes_get (s : string) (i : nat) :
  String.get i (Paths.flip_backslashes s) <> Some "\"%char.
Proof.
  revert i. induction s as [|c s IH]; intros i; simpl; [destruct i; discriminate|].
  destruct i as [|i]; [|apply IH].
  destruct (Ascii.eqb c "\") eqn:E; [discriminate|].
  intros [= ->]. discriminate.
Qed.

Lemma replace_double_slash_get (s s' : string) :
  Paths.replace_double_slash s = Some s' ->
  (forall i, String.get i s <> Some "\"%char) ->
  forall i, String.get i s' <> Some "\"%char.
Proof.
  revert s'. induction s as [|c s IH]; intros s'; simpl; [discriminate|].
  destruct (_ && _).
  - intros [= <-] H i. apply (H (S i)).
  - destruct (Paths.replace_double_slash s) as [r|]; [|discriminate].
    intros [= <-] H [|i]; [apply (H 0%nat)|].
    simpl. apply (IH r eq_refl). intros j. apply (H (S j)).
Qed.

Lemma replace_double_slash_length (s s' : string) :
  Paths.replace_double_slash s = Some s' -> String.length s = S (String.length s').
Proof.
  revert s'. induction s as [|c s IH]; intros s'; simpl; [discriminate|].
  destruct (_ && _).
  - intros [= <-]. reflexivity.
  - destruct (Paths.replace_double_slash s) as [r|]; [|discriminate].
    intros [= <-]. simpl. rewrite (IH r eq_refl). reflexivity.
Qed.

(** The loop of [toUnix] runs to its exit: within [String.length s] rounds no
    doubled slash is left. *)
Lemma collapse_slashes_done (n : nat) (s : string) :
  (String.length s <= n)%nat ->
  Paths.replace_double_slash (Paths.collapse_slashes n s) = None.
Proof.
  revert s. induction n as [|n IH]; intros s Hn; simpl.
  - destruct s; [reflexivity | simpl in Hn; lia].
  - destruct (Paths.replace_double_slash s) as [s'|] eqn:E; [|exact E].
    apply IH. apply replace_double_slash_length in E. lia.
Qed.

Lemma collapse_slashes_fixed (n : nat) (s : string) :
  Paths.replace_double_slash s = None -> Paths.collapse_slashes n s = s.
Proof. destruct n; simpl; [reflexivity|]. intros ->. reflexivity. Qed.

Lemma collapse_slashes_get (n : nat) (s : string) :
  (forall i, String.get i s <> Some "\"%char) ->
  forall i, String.get i (Paths.collapse_slashes n s) <> Some "\"%char.
Proof.
  revert s. induction n as [|n IH]; intros s H; simpl; [exact H|].
  destruct (Paths.replace_double_slash s) as [s'|] eqn:E; [|exact H].
  apply IH. exact (replace_double_slash_get _ _ E H).
Qed.

Lemma collapse_slashes_head (n : nat) (c : ascii) (s : string) :
  exists r, Paths.collapse_slashes n (String c s) = String c r.
Proof.
  revert s. induction n as [|n IH]; intros s; simpl; [eauto|].
  destruct (Ascii.eqb c "/" && _) eqn:E.
  - apply andb_true_iff in E as [Ec E]. apply Ascii.eqb_eq in Ec. subst c.
    destruct s as [|c' s]; [discriminate|]. apply Ascii.eqb_eq in E. subst c'.
    apply IH.
  - destruct (Paths.replace_double_slash s); simpl; [apply IH | eauto].
Qed.

Lemma no_double_slash_get (s : string) :
  Paths.replace_double_slash s = None ->
  forall i, String.get i s = Some "/"%char -> String.get (S i) s <> Some "/"%char.
Proof.
  induction s as [|c s IH]; simpl; [intros _ [|i]; discriminate|].
  destruct (Ascii.eqb c "/" && _) eqn:E; [discriminate|].
  destruct (Paths.replace_double_slash s) eqn:Es; [discriminate|]. intros _.
  intros [|i].
  - intros [= ->]. simpl in E. destruct s as [|c' s]; simpl; [discriminate|].
    intros [= ->]. discriminate.
  - apply (IH eq_refl).
Qed.

Lemma flip_backslashes_fixed (s : string) :
  (forall i, String.get i s <> Some "\"%char) -> Paths.flip_backslashes s = s.
Proof.
  induction s as [|c s IH]; intros H; simpl; [reflexivity|].
  rewrite IH by (intros i; apply (H (S i))).
  destruct (Ascii.eqb c "\") eqn:E; [|reflexivity].
  apply Ascii.eqb_eq in E. subst c. destruct (H 0%nat). reflexivity.
Qed.

Lemma no_double_slash_start (s : string) :
  Paths.replace_double_slash s = None -> Paths.starts_with_slashes s = false.
Proof.
  destruct s as [|c1 [|c2 s]]; simpl; try reflexivity.
  destruct (Ascii.eqb c1 "/"), (Ascii.eqb c2 "/"); simpl; try reflexivity.
  discriminate.
Qed.

Lemma toUnix_no_backslash (input : string) (i : nat) :
  String.get i (Paths.toUnix input) <> Some "\"%char.
Proof.
  unfold Paths.toUnix.
  pose proof (collapse_slashes_get (String.length (Paths.flip_backslashes input))
                _ (flip_backslashes_get input)) as H.
  destruct (Paths.starts_with_slashes _); [|apply H].
  destruct i as [|i]; [discriminate | apply H].
Qed.

(** X11: [toUnix] returns a path without backslashes in which no slash
    follows another one, except for a doubled slash at the very start, and
    applying it again changes nothing. *)
Theorem X11_toUnix_canonical (input : string) :
  (forall i, String.get i (Paths.toUnix input) <> Some "\"%char) /\
  (forall i, (1 <= i)%nat ->
     String.get i (Paths.toUnix input) = Some "/"%char ->
     String.get (S i) (Paths.toUnix input) <> Some "/"%char) /\
  Paths.toUnix (Paths.toUnix input) = Paths.toUnix input.
Proof.
  split; [apply toUnix_no_backslash|].
  pose proof (toUnix_no_backslash input) as Hb.
  unfold Paths.toUnix in *.
  set (s := Paths.flip_backslashes input) in *.
  pose proof (collapse_slashes_done (String.length s) s (le_n _)) as Hdone.
  set (c := Paths.collapse_slashes (String.length s) s) in *.
  destruct (Paths.starts_with_slashes s) eqn:Hs.
  - split.
    + intros [|i] Hi; [lia|]. simpl. apply (no_double_slash_get c Hdone).
    + rewrite (flip_backslashes_fixed _ Hb).
      destruct s as [|c1 [|c2 s']]; try discriminate.
      simpl in Hs. apply andb_true_iff in Hs as [H1 H2].
      apply Ascii.eqb_eq in H1, H2. subst c1 c2.
      destruct (collapse_slashes_head (String.length (String "/" (String "/" s')))
                  "/" (String "/" s')) as [r Hr].
      fold c in Hr. rewrite Hr in *.
      assert (Paths.replace_double_slash (String "/" (String "/" r)) = Some (String "/" r))
        as Hstep by reflexivity.
      simpl Paths.starts_with_slashes. cbv iota.
      change (String.length (String "/" (String "/" r))) with (S (String.length (String "/" r))).
      cbn [Paths.collapse_slashes]. rewrite Hstep.
      rewrite (collapse_slashes_fixed _ _ Hdone). reflexivity.
  - split.
    + intros i _. apply (no_double_slash_get c Hdone).
    + rewrite (flip_backslashes_fixed _ Hb).
      rewrite (no_double_slash_start _ Hdone).
      rewrite (collapse_slashes_fixed _ _ Hdone). reflexivity.
Qed.

(** *** [normalizePath] *)

Lemma split_separators_free (s : string) :
  Terms.separator_free s -> forall after, Paths.split_separators after s = [s].
Proof.
  induction s as [|c s IH]; simpl; [reflexivity|].
  intros [Hc Hs] after. rewrite Hc, (IH Hs). reflexivity.
Qed.

Lemma split_separators_shape (s : string) :
  Terms.inner_pieces (Paths.split_separators true s) /\
  Paths.split_separators true s <> [] /\
  exists f r, Paths.split_separators false s = f :: r /\
              Terms.separator_free f /\ Terms.inner_pieces r.
Proof.
  induction s as [|c s (IHt & IHn & f & r & IHf & Hf & Hr)]; simpl.
  - split; [exact I|]. split; [discriminate|]. exists EmptyString, [].
    repeat split.
  - destruct (Paths.is_separator c) eqn:Hc.
    + split; [exact IHt|]. split; [exact IHn|].
      exists EmptyString, (Paths.split_separators true s). repeat split. exact IHt.
    + rewrite IHf. split; [|split; [discriminate|]].
      * destruct r as [|x r]; simpl; [auto|].
        split; [auto|]. split; [discriminate|exact Hr].
      * exists (String c f), r. repeat split; assumption.
Qed.

Lemma split_separators_append (seg t : string) (after : bool) :
  Terms.separator_free seg ->
  seg <> EmptyString \/ after = false ->
  Paths.split_separators after (String.append seg (String "/" t)) =
  seg :: Paths.split_separators true t.
Proof.
  revert after. induction seg as [|c seg IH]; intros after Hfree Hne.
  - destruct Hne as [Hne | ->]; [congruence|]. reflexivity.
  - destruct Hfree as [Hc Hfree]. simpl. rewrite Hc.
    rewrite (IH false Hfree) by auto. reflexivity.
Qed.

Lemma split_separators_join_inner (l : list string) :
  l <> [] -> Terms.inner_pieces l ->
  Paths.split_separators true (Paths.join_slash l) = l.
Proof.
  induction l as [|x l IH]; [congruence|]. intros _ H.
  destruct l as [|y l].
  - simpl. apply split_separators_free. exact H.
  - destruct H as (Hx & Hne & H).
    change (Paths.join_slash (x :: y :: l))
      with (String.append x (String "/" (Paths.join_slash (y :: l)))).
    rewrite split_separators_append by auto.
    rewrite IH by (auto; discriminate). reflexivity.
Qed.

Lemma split_separators_join (f : string) (r : list string) :
  Terms.separator_free f -> Terms.inner_pieces r ->
  Paths.split_separators false (Paths.join_slash (f :: r)) = f :: r.
Proof.
  intros Hf Hr. destruct r as [|y r].
  - simpl. apply split_separators_free. exact Hf.
  - change (Paths.join_slash (f :: y :: r))
      with (String.append f (String "/" (Paths.join_slash (y :: r)))).
    rewrite split_separators_append by auto.
    rewrite split_separators_join_inner by (auto; discriminate). reflexivity.
Qed.

Lemma every_char_get (Q : ascii -> Prop) (s : string) (i : nat) (c : ascii) :
  Terms.every_char Q s -> String.get i s = Some c -> Q c.
Proof.
  revert i. induction s as [|c' s IH]; intros i H; simpl; [discriminate|].
  destruct H as [Hc Hs]. destruct i as [|i]; [intros [= <-]; exact Hc | eauto].
Qed.

Lemma every_char_append (Q : ascii -> Prop) (a b : string) :
  Terms.every_char Q a -> Terms.every_char Q b -> Terms.every_char Q (String.append a b).
Proof.
  induction a as [|c a IH]; simpl; [auto|]. intros [Hc Ha] Hb. auto.
Qed.

Lemma separator_free_every (s : string) :
  Terms.separator_free s -> Terms.every_char (fun c => c <> "\"%char) s.
Proof.
  induction s as [|c s IH]; simpl; [auto|]. intros [Hc Hs]. split; [|auto].
  intros ->. discriminate.
Qed.

Lemma inner_pieces_free (l : list string) :
  Terms.inner_pieces l -> Forall Terms.separator_free l.
Proof.
  induction l as [|x l IH]; [constructor|]. intros H.
  destruct l as [|y l]; [repeat constructor; exact H|].
  destruct H as (Hx & _ & H). constructor; auto.
Qed.

Lemma join_slash_every (l : list string) :
  Forall Terms.separator_free l ->
  Terms.every_char (fun c => c <> "\"%char) (Paths.join_slash l).
Proof.
  induction 1 as [|x l Hx Hl IH]; [exact I|].
  destruct l as [|y l]; [apply separator_free_every, Hx|].
  change (Paths.join_slash (x :: y :: l))
    with (String.append x (String "/" (Paths.join_slash (y :: l)))).
  apply every_char_append; [apply separator_free_every, Hx|].
  split; [discriminate | exact IH].
Qed.

Lemma Forall_removelast {A : Type} (Q : A -> Prop) (l : list A) :
  Forall Q l -> Forall Q (removelast l).
Proof.
  induction 1 as [|x l Hx Hl IH]; [constructor|].
  destruct l as [|y l]; [constructor|]. simpl. constructor; assumption.
Qed.

(** No doubled slash in a joined list of pieces. *)
Lemma no_double_append (seg t : string) :
  Terms.separator_free seg ->
  Paths.replace_double_slash t = None ->
  Paths.replace_double_slash (String.append seg t) = None.
Proof.
  induction seg as [|c seg IH]; simpl; [auto|]. intros [Hc Hseg] Ht.
  unfold Paths.is_separator in Hc. apply orb_false_iff in Hc as [Hc _].
  rewrite Hc. simpl. rewrite (IH Hseg Ht). reflexivity.
Qed.

Lemma no_double_slash_cons (t : string) :
  Terms.head_not_slash t ->
  Paths.replace_double_slash t = None ->
  Paths.replace_double_slash (String "/" t) = None.
Proof.
  intros Hh Ht. simpl. rewrite Ht.
  destruct t as [|c t]; [reflexivity|]. simpl in Hh.
  destruct (Ascii.eqb c "/") eqn:E; [apply Ascii.eqb_eq in E; congruence|].
  reflexivity.
Qed.

Lemma separator_free_head (x t : string) :
  Terms.separator_free x -> x <> EmptyString ->
  Terms.head_not_slash (String.append x t).
Proof.
  destruct x as [|c x]; [congruence|]. intros [Hc _] _. simpl.
  intros ->. discriminate.
Qed.

Lemma separator_free_head_alone (x : string) :
  Terms.separator_free x -> Terms.head_not_slash x.
Proof.
  destruct x as [|c x]; [auto|]. intros [Hc _]. simpl. intros ->. discriminate.
Qed.

Lemma separator_free_no_double (x : string) :
  Terms.separator_free x -> Paths.replace_double_slash x = None.
Proof.
  induction x as [|c x IH]; [reflexivity|]. intros [Hc Hx]. simpl.
  unfold Paths.is_separator in Hc. apply orb_false_iff in Hc as [Hc _].
  rewrite Hc, (IH Hx). reflexivity.
Qed.

Lemma join_inner_head (l : list string) :
  Terms.inner_pieces l -> Terms.head_not_slash (Paths.join_slash l).
Proof.
  destruct l as [|x [|y l]]; [exact (fun _ => I) | apply separator_free_head_alone |].
  intros (Hx & Hne & _).
  change (Paths.join_slash (x :: y :: l))
    with (String.append x (String "/" (Paths.join_slash (y :: l)))).
  apply separator_free_head; assumption.
Qed.

Lemma join_inner_no_double (l : list string) :
  Terms.inner_pieces l -> Paths.replace_double_slash (Paths.join_slash l) = None.
Proof.
  induction l as [|x l IH]; [reflexivity|]. intros H.
  destruct l as [|y l]; [apply separator_free_no_double, H|].
  destruct H as (Hx & Hne & H).
  change (Paths.join_slash (x :: y :: l))
    with (String.append x (String "/" (Paths.join_slash (y :: l)))).
  apply no_double_append; [exact Hx|].
  apply no_double_slash_cons; [apply join_inner_head, H | apply IH, H].
Qed.

Lemma join_no_double (f : string) (r : list string) :
  Terms.separator_free f -> Terms.inner_pieces r ->
  Paths.replace_double_slash (Paths.join_slash (f :: r)) = None.
Proof.
  intros Hf Hr. destruct r as [|y r]; [apply separator_free_no_double, Hf|].
  change (Paths.join_slash (f :: y :: r))
    with (String.append f (String "/" (Paths.join_slash (y :: r)))).
  apply no_double_append; [exact Hf|].
  apply no_double_slash_cons; [apply join_inner_head, Hr | apply join_inner_no_double, Hr].
Qed.

Lemma inner_pieces_removelast (l : list string) :
  Terms.inner_pieces l -> Terms.inner_pieces (removelast l).
Proof.
  induction l as [|x l IH]; [auto|]. intros H.
  destruct l as [|y l]; [exact I|].
  destruct H as (Hx & Hne & H). specialize (IH H).
  change (removelast (x :: y :: l)) with (x :: removelast (y :: l)).
  destruct (removelast (y :: l)) as [|z l'] eqn:E; [exact Hx|].
  repeat split; assumption.
Qed.

Lemma device_path_slice (path : string) :
  Paths.device_path path = true ->
  exists c rest, Paths.slice_from 2 path = String c rest /\ Paths.is_separator c = false.
Proof.
  unfold Paths.device_path. intros H.
  destruct path as [|c0 [|c1 [|c2 rest]]]; try discriminate.
  exists c2, rest. split; [reflexivity|].
  simpl in H. repeat rewrite andb_true_iff in H.
  destruct H as [[[_ Hc] _] _]. apply orb_true_iff in Hc.
  destruct Hc as [Hc | Hc]; apply bool_decide_eq_true_1 in Hc;
    injection Hc as ->; reflexivity.
Qed.

(** The pieces [normalizePath] joins. *)
Lemma normalizePath_form (path : string) (stripTrailing : bool) :
  Paths.normalizePath path stripTrailing = "/" \/
  (Paths.normalizePath path stripTrailing = path /\
   (String.length path <= 1)%nat /\ path <> "\" /\ path <> "/") \/
  exists (pre : string) (f : string) (r : list string),
    Terms.separator_free f /\ Terms.inner_pieces r /\
    ((pre = "" /\ Paths.device_path path = false) \/
     (pre = "//" /\ f <> "" /\ Paths.device_path path = true)) /\
    Paths.normalizePath path stripTrailing =
    String.append pre
      (Paths.join_slash
         (if stripTrailing && String.eqb (List.last (f :: r) "") ""
          then removelast (f :: r) else f :: r)).
Proof.
  unfold Paths.normalizePath.
  destruct (String.eqb path "\") eqn:E1; [left; reflexivity|].
  destruct (String.eqb path "/") eqn:E2; [left; reflexivity|].
  apply String.eqb_neq in E1, E2. cbn [orb].
  destruct (String.length path <=? 1)%nat eqn:E3.
  { right; left. apply Nat.leb_le in E3. auto. }
  right; right.
  destruct (Paths.device_path path) eqn:Ed.
  - destruct (device_path_slice path Ed) as (c & rest & -> & Hc).
    destruct (split_separators_shape (String c rest)) as (_ & _ & f & r & Hs & Hf & Hr).
    exists "//", f, r. rewrite Hs. repeat split; try assumption.
    right. split; [reflexivity|]. split; [|reflexivity].
    simpl in Hs. rewrite Hc in Hs.
    destruct (Paths.split_separators false rest); injection Hs as <- _; discriminate.
  - destruct (split_separators_shape path) as (_ & _ & f & r & Hs & Hf & Hr).
    exists "", f, r. rewrite Hs. repeat split; try assumption. left. auto.
Qed.

Lemma last_char_append (a b : string) :
  b <> EmptyString -> Terms.last_char (String.append a b) = Terms.last_char b.
Proof.
  intros Hb. induction a as [|c a IH]; [reflexivity|].
  change (String.append (String c a) b) with (String c (String.append a b)).
  destruct (String.append a b) as [|c' s] eqn:E.
  - destruct a as [|c0 a]; [change (b = "") in E; congruence|].
    change (String c0 (String.append a b) = "") in E. discriminate.
  - simpl. simpl in IH. exact IH.
Qed.

Lemma last_char_slash (r : string) :
  Terms.last_char (String.append r "/") = Some "/"%char.
Proof. rewrite last_char_append by discriminate. reflexivity. Qed.

Lemma separator_free_last_char (s : string) :
  Terms.separator_free s -> Terms.last_char s <> Some "/"%char.
Proof.
  induction s as [|c s IH]; [discriminate|]. intros [Hc Hs].
  destruct s as [|c' s]; [|exact (IH Hs)].
  simpl. intros [= ->]. discriminate.
Qed.

Lemma join_slash_last (l : list string) :
  List.last l "" <> "" ->
  Paths.join_slash l <> "" /\
  Terms.last_char (Paths.join_slash l) = Terms.last_char (List.last l "").
Proof.
  induction l as [|x l IH]; [simpl; congruence|]. intros H.
  destruct l as [|y l]; [simpl in *; auto|].
  change (List.last (x :: y :: l) "") with (List.last (y :: l) "") in *.
  destruct (IH H) as [Hne Hl].
  change (Paths.join_slash (x :: y :: l))
    with (String.append x (String "/" (Paths.join_slash (y :: l)))).
  split.
  - destruct x; discriminate.
  - rewrite last_char_append by discriminate. rewrite <- Hl.
    destruct (Paths.join_slash (y :: l)); [congruence | reflexivity].
Qed.

Lemma Forall_last (Q : string -> Prop) (l : list string) :
  Forall Q l -> Q "" -> Q (List.last l "").
Proof.
  induction 1 as [|x l Hx Hl IH]; [auto|]. intros H0.
  destruct l as [|y l]; [exact Hx | exact (IH H0)].
Qed.

Lemma inner_pieces_before_last (l : list string) :
  Terms.inner_pieces l -> removelast l <> [] -> List.last (removelast l) "" <> "".
Proof.
  induction l as [|x l IH]; [simpl; congruence|]. intros H Hne.
  destruct l as [|y l]; [simpl in Hne; congruence|].
  destruct H as (Hx & Hx' & H).
  change (removelast (x :: y :: l)) with (x :: removelast (y :: l)) in *.
  destruct (removelast (y :: l)) as [|z l'] eqn:E; [exact Hx'|].
  change (List.last (x :: z :: l') "") with (List.last (z :: l') "").
  apply IH; [exact H | discriminate].
Qed.

(** The pieces left after the trailing empty piece has been dropped. *)
Lemma stripped_pieces (f : string) (r : list string) :
  Terms.inner_pieces r ->
  let S := if String.eqb (List.last (f :: r) "") "" then removelast (f :: r) else f :: r in
  S = [] \/ S = [""] \/ List.last S "" <> "".
Proof.
  intros Hr. destruct (String.eqb (List.last (f :: r) "") "") eqn:E; simpl.
  - destruct r as [|y r]; [left; reflexivity|].
    change (removelast (f :: y :: r)) with (f :: removelast (y :: r)).
    destruct (removelast (y :: r)) as [|z l'] eqn:El.
    + destruct f; [right; left; reflexivity | right; right; discriminate].
    + right; right. change (List.last (f :: z :: l') "") with (List.last (z :: l') "").
      rewrite <- El. apply inner_pieces_before_last; [exact Hr | congruence].
  - right; right. apply String.eqb_neq in E. exact E.
Qed.

Lemma joined_last_char (S : list string) :
  Forall Terms.separator_free S ->
  S = [] \/ S = [""] \/ List.last S "" <> "" ->
  Terms.last_char (Paths.join_slash S) <> Some "/"%char.
Proof.
  intros Hfree [-> | [-> | Hl]]; [discriminate | discriminate |].
  destruct (join_slash_last S Hl) as [_ ->].
  apply separator_free_last_char. apply Forall_last; [exact Hfree | exact I].
Qed.

Lemma kept_pieces (b : bool) (f : string) (r : list string) :
  Terms.inner_pieces r ->
  let S := if b && String.eqb (List.last (f :: r) "") "" then removelast (f :: r) else f :: r in
  (S = [] /\ f = "") \/ exists r', S = f :: r' /\ Terms.inner_pieces r'.
Proof.
  intros Hr. destruct (b && String.eqb (List.last (f :: r) "") "") eqn:E; simpl.
  - apply andb_true_iff in E as [_ E]. apply String.eqb_eq in E.
    destruct r as [|y r]; [left; simpl in E; auto|].
    right. exists (removelast (y :: r)). split; [reflexivity|].
    apply inner_pieces_removelast, Hr.
  - right. exists r. auto.
Qed.

Lemma get_append_prefix2 (c1 c2 : ascii) (J : string) (i : nat) :
  String.get (S (S i)) (String.append (String c1 (String c2 "")) J) = String.get i J.
Proof. reflexivity. Qed.

Lemma append_slash_inv (c : ascii) (r : string) :
  String c "" = String.append r "/" -> r = "".
Proof.
  destruct r as [|c' r]; [reflexivity|].
  change (String.append (String c' r) "/") with (String c' (String.append r "/")).
  intros [= _ H]. destruct r; discriminate.
Qed.

(** X12: [normalizePath] returns a path without backslashes in which no
    slash follows another one, except for the doubled slash that starts a
    device path, and which, unless trailing separators are kept, ends in a
    slash only when it is the root [/]. *)
Theorem X12_normalizePath_canonical (path : string) (stripTrailing : bool) :
  (forall i, String.get i (Paths.normalizePath path stripTrailing) <> Some "\"%char) /\
  (forall i, (1 <= i)%nat ->
     String.get i (Paths.normalizePath path stripTrailing) = Some "/"%char ->
     String.get (S i) (Paths.normalizePath path stripTrailing) <> Some "/"%char) /\
  (forall r, Paths.normalizePath path true = String.append r "/" -> r = "").
Proof.
  split; [|split].
  - destruct (normalizePath_form path stripTrailing)
      as [-> | [(-> & Hlen & Hb & Hs) | (pre & f & r & Hf & Hr & Hpre & ->)]].
    + intros [|[|i]]; discriminate.
    + destruct path as [|c [|c' p]]; [intros [|i]; discriminate | | simpl in Hlen; lia].
      intros [|[|i]]; try discriminate. intros [= ->]. congruence.
    + intros i Hi.
      assert (Terms.every_char (fun c => c <> "\"%char)
                (String.append pre
                   (Paths.join_slash
                      (if stripTrailing && String.eqb (List.last (f :: r) "") ""
                       then removelast (f :: r) else f :: r)))) as Hall.
      { apply every_char_append.
        - destruct Hpre as [[-> _] | [-> _]]; simpl; auto.
        - apply join_slash_every.
          assert (Forall Terms.separator_free (f :: r)) as Hall
            by (constructor; [exact Hf | apply inner_pieces_free, Hr]).
          destruct (_ && _); [apply Forall_removelast|]; exact Hall. }
      exact (every_char_get _ _ _ _ Hall Hi eq_refl).
  - destruct (normalizePath_form path stripTrailing)
      as [-> | [(-> & Hlen & Hb & Hs) | (pre & f & r & Hf & Hr & Hpre & ->)]].
    + intros [|[|i]]; discriminate.
    + destruct path as [|c [|c' p]]; [intros [|i]; discriminate | | simpl in Hlen; lia].
      intros [|[|i]]; discriminate.
    + destruct (kept_pieces stripTrailing f r Hr) as [[-> ->] | (r' & -> & Hr')].
      * destruct Hpre as [[-> _] | [_ [Hne _]]]; [intros [|i]; discriminate | congruence].
      * pose proof (join_no_double f r' Hf Hr') as Hnd.
        destruct Hpre as [[-> _] | [-> [Hne _]]].
        -- intros i _. apply (no_double_slash_get _ Hnd).
        -- assert (Terms.head_not_slash (Paths.join_slash (f :: r'))) as Hh.
           { destruct r' as [|y r']; [apply separator_free_head_alone, Hf|].
             change (Paths.join_slash (f :: y :: r'))
               with (String.append f (String "/" (Paths.join_slash (y :: r')))).
             apply separator_free_head; assumption. }
           pose proof (no_double_slash_cons _ Hh Hnd) as Hnd'.
           intros [|i] Hi; [lia|].
           apply (no_double_slash_get _ Hnd' i).
  - intros r0 Heq.
    destruct (normalizePath_form path true)
      as [H | [(H & Hlen & Hb & Hs) | (pre & f & r & Hf & Hr & Hpre & H)]];
      rewrite H in Heq.
    + apply (append_slash_inv "/"). exact Heq.
    + destruct path as [|c [|c' p]]; [| | simpl in Hlen; lia].
      * destruct r0; discriminate.
      * exact (append_slash_inv c r0 Heq).
    + exfalso. cbn [andb] in Heq. clear H.
      pose proof (last_char_slash r0) as Hlast. rewrite <- Heq in Hlast.
      pose proof (stripped_pieces f r Hr) as Hshape. cbv zeta in Hshape.
      assert (Forall Terms.separator_free
                (if String.eqb (List.last (f :: r) "") "" then removelast (f :: r) else f :: r))
        as Hall.
      { assert (Forall Terms.separator_free (f :: r)) as Hall
          by (constructor; [exact Hf | apply inner_pieces_free, Hr]).
        destruct (String.eqb _ _); [apply Forall_removelast|]; exact Hall. }
      pose proof (joined_last_char _ Hall Hshape) as Hj.
      destruct (Paths.join_slash _) as [|c J] eqn:EJ.
      * destruct Hpre as [[-> _] | [-> [Hne _]]]; [discriminate|].
        destruct Hshape as [Hs | [Hs | Hs]].
        -- destruct (String.eqb (List.last (f :: r) "") "") eqn:E; [|discriminate].
           destruct r; [simpl in E; apply String.eqb_eq in E; congruence | discriminate].
        -- destruct (String.eqb (List.last (f :: r) "") "") eqn:E.
           ++ destruct r as [|y [|z r]]; try discriminate. injection Hs as ->. congruence.
           ++ injection Hs as -> _. congruence.
        -- destruct (join_slash_last _ Hs) as [Hne' _]. congruence.
      * rewrite last_char_append in Hlast by discriminate. congruence.
Qed.

Lemma normalizePath_short (p : string) (b : bool) :
  (String.length p <= 1)%nat -> p <> "\" -> Paths.normalizePath p b = p.
Proof.
  intros Hlen Hb. unfold Paths.normalizePath.
  destruct (String.eqb p "\") eqn:E1; [apply String.eqb_eq in E1; congruence|].
  destruct (String.eqb p "/") eqn:E2; [apply String.eqb_eq in E2; subst; reflexivity|].
  cbn [orb]. apply Nat.leb_le in Hlen. rewrite Hlen. reflexivity.
Qed.

Lemma normalizePath_joined (f : string) (r : list string) (b : bool) :
  Terms.separator_free f -> Terms.inner_pieces r ->
  (b = true -> List.last (f :: r) "" <> "") ->
  Paths.normalizePath (Paths.join_slash (f :: r)) b = Paths.join_slash (f :: r).
Proof.
  intros Hf Hr Hlast.
  assert (Terms.every_char (fun c => c <> "\"%char) (Paths.join_slash (f :: r))) as Hall.
  { apply join_slash_every. constructor; [exact Hf | apply inner_pieces_free, Hr]. }
  assert (forall i, String.get i (Paths.join_slash (f :: r)) <> Some "\"%char) as Hget.
  { intros i Hi. exact (every_char_get _ _ _ _ Hall Hi eq_refl). }
  pose proof (split_separators_join f r Hf Hr) as Hsplit.
  set (R := Paths.join_slash (f :: r)) in *.
  unfold Paths.normalizePath.
  destruct (String.eqb R "\") eqn:E1.
  { apply String.eqb_eq in E1. destruct (Hget 0%nat). rewrite E1. reflexivity. }
  destruct (String.eqb R "/") eqn:E2; [apply String.eqb_eq in E2; auto|].
  cbn [orb]. destruct (String.length R <=? 1)%nat; [reflexivity|].
  assert (Paths.device_path R = false) as ->.
  { unfold Paths.device_path.
    rewrite (bool_decide_eq_false_2 (String.get 3 R = Some "\"%char)) by apply Hget.
    rewrite andb_false_r. reflexivity. }
  rewrite Hsplit.
  destruct b; cbn [andb]; [|reflexivity].
  destruct (String.eqb (List.last (f :: r) "") "") eqn:E; [|reflexivity].
  apply String.eqb_eq in E. destruct (Hlast eq_refl E).
Qed.

(** X13: on a path that is not a device path, [normalizePath] is idempotent. *)
Theorem X13_normalizePath_idempotent (path : string) (stripTrailing : bool) :
  Paths.device_path path = false ->
  Paths.normalizePath (Paths.normalizePath path stripTrailing) stripTrailing =
  Paths.normalizePath path stripTrailing.
Proof.
  intros Hdev.
  destruct (normalizePath_form path stripTrailing)
    as [-> | [(H & Hlen & Hb & Hs) | (pre & f & r & Hf & Hr & Hpre & ->)]].
  - reflexivity.
  - rewrite H. exact H.
  - destruct Hpre as [[-> _] | (_ & _ & Hd)]; [|congruence].
    change (String.append "" ?x) with x.
    destruct stripTrailing; cbn [andb].
    + pose proof (stripped_pieces f r Hr) as Hshape. cbv zeta in Hshape.
      destruct (kept_pieces true f r Hr) as [[HS _] | (r' & HS & Hr')];
        cbn [andb] in HS; rewrite HS in *.
      * reflexivity.
      * destruct Hshape as [Hs | [Hs | Hs]]; [discriminate | rewrite Hs; reflexivity |].
        apply normalizePath_joined; auto.
    + apply normalizePath_joined; [assumption | assumption | discriminate].
Qed.

Lemma X13_normalizePath_idempotent_witness :
  Paths.normalizePath (Paths.normalizePath "C:\dir\\sub/" true) true =
  Paths.normalizePath "C:\dir\\sub/" true.
Proof. apply (X13_normalizePath_idempotent "C:\dir\\sub/" true). reflexivity. Defined.

(** ** Read permissions *)

Lemma nine_bits_checked :
  forallb (fun n => Bool.eqb (Terms.leading_digit_reads (Z.of_nat n))
                      (Terms.first_class_reads (Z.of_nat n))) (seq 0 512) = true.
Proof. vm_compute. reflexivity. Qed.

Lemma leading_digit_first_class (st : Z) :
  0 <= st < 512 -> Terms.leading_digit_reads st = Terms.first_class_reads st.
Proof.
  intros Hst. pose proof nine_bits_checked as H.
  rewrite forallb_forall in H. specialize (H (Z.to_nat st)).
  rewrite Z2Nat.id in H by lia. apply Bool.eqb_prop, H.
  apply in_seq. lia.
Qed.

Lemma land_511_bounds (m : Z) : 0 <= Z.land m 511 < 512.
Proof.
  change 511 with (Z.ones 9). rewrite Z.land_ones by lia.
  apply Z.mod_pos_bound. reflexivity.
Qed.

Lemma land_511_mask (m k : Z) : Z.land k 511 = k -> Z.land (Z.land m 511) k = Z.land m k.
Proof.
  intros Hk. rewrite <- Z.land_assoc, (Z.land_comm 511 k), Hk. reflexivity.
Qed.

Lemma land_511_testbit (m i : Z) : 0 <= i < 9 -> Z.testbit (Z.land m 511) i = Z.testbit m i.
Proof.
  intros Hi. rewrite Z.land_spec. change 511 with (Z.ones 9).
  rewrite Z.ones_spec_low by lia. apply andb_true_r.
Qed.

(** X14: [_hasReadPermissions] answers [true] whenever permission errors are
    ignored. Otherwise it reads the leading octal digit of [mode & 0o777]:
    the owner's read bit when the owner has any permission, else the group's
    read bit when the group has any, else the read bit of the others; and
    without a mode it answers [false]. *)
Theorem X14_read_permission_digit (o : Options) (mode : Z) :
  0 <= mode < 2 ^ 32 ->
  Permissions._hasReadPermissions o (Some mode) =
    (ignorePermissionErrors o ||
     (if Z.land mode 448 =? 0
      then (if Z.land mode 56 =? 0 then Z.testbit mode 2 else Z.testbit mode 5)
      else Z.testbit mode 8)) /\
  Permissions._hasReadPermissions o None = ignorePermissionErrors o.
Proof.
  intros _. unfold Permissions._hasReadPermissions.
  destruct (ignorePermissionErrors o); [split; reflexivity|].
  split; [|reflexivity]. cbn [default orb].
  change (negb _) with (Terms.leading_digit_reads (Z.land mode 511)).
  rewrite leading_digit_first_class by apply land_511_bounds.
  unfold Terms.first_class_reads.
  rewrite !land_511_mask by reflexivity.
  rewrite !land_511_testbit by lia. reflexivity.
Qed.

(** X14, an instance: a file of mode [0o044], which its owner may not read,
    is taken to be readable, the leading octal digit being the group's. *)
Lemma X14_read_permission_digit_witness :
  Permissions._hasReadPermissions Scenarios.plain (Some 36) = true.
Proof.
  assert (H : 0 <= 36 < 2 ^ 32) by (split; [discriminate | reflexivity]).
  exact (proj1 (X14_read_permission_digit Scenarios.plain 36 H)).
Defined.

(** ** The registry of closers and of watched directories *)

Lemma addPathCloser_fold (path : string) (cs : list nat) (s : FSWatcher) :
  let s1 := foldl (fun acc c => _addPathCloser path (Some c) acc) s cs in
  released s1 = released s /\
  _closers s1 =
    (if decide (cs = []) then _closers s
     else <[path := default [] (_closers s !! path) ++ cs]> (_closers s)).
Proof.
  revert s. induction cs as [|c cs IH]; intros s; [split; reflexivity|].
  cbn [foldl]. destruct (IH (_addPathCloser path (Some c) s)) as [Hr Hc].
  cbv zeta. rewrite Hr, Hc. split; [reflexivity|].
  destruct (decide (c :: cs = [])) as [|_]; [discriminate|].
  unfold _addPathCloser. cbn [_closers set_closers].
  rewrite lookup_insert_eq. cbn [default].
  destruct (decide (cs = [])) as [-> | _].
  - reflexivity.
  - unfold id. rewrite insert_insert_eq, <- app_assoc. reflexivity.
Qed.

(** X15: closers registered for a path are invoked by [_closeFile] once
    each, in the order of their registration, and are then forgotten: the
    table of closers is as it was before they were registered, and closing
    the path again does nothing. *)
Theorem X15_closers_released_in_order (path : string) (cs : list nat) (s : FSWatcher) :
  _closers s !! path = None ->
  released (Registry._closeFile path
              (foldl (fun acc c => _addPathCloser path (Some c) acc) s cs)) =
    released s ++ cs /\
  _closers (Registry._closeFile path
              (foldl (fun acc c => _addPathCloser path (Some c) acc) s cs)) =
    _closers s /\
  Registry._closeFile path
    (Registry._closeFile path
       (foldl (fun acc c => _addPathCloser path (Some c) acc) s cs)) =
  Registry._closeFile path
    (foldl (fun acc c => _addPathCloser path (Some c) acc) s cs).
Proof.
  intros Hnone.
  destruct (addPathCloser_fold path cs s) as [Hr Hc]. cbv zeta in Hr, Hc.
  set (s1 := foldl _ s cs) in *.
  assert (Registry._closeFile path s1 =
          if decide (cs = []) then s1
          else set_closers (_closers s) (set_released (released s ++ cs) s1)) as Heq.
  { unfold Registry._closeFile. rewrite Hc.
    destruct (decide (cs = [])) as [-> | Hne]; [rewrite Hnone; reflexivity|].
    rewrite lookup_insert_eq, delete_insert_eq, Hr, Hnone.
    rewrite delete_id by exact Hnone. reflexivity. }
  rewrite Heq. destruct (decide (cs = [])) as [-> | Hne].
  - rewrite Hr, Hc, app_nil_r. auto.
  - repeat split. unfold Registry._closeFile. cbn [_closers set_closers].
    rewrite Hnone. reflexivity.
Qed.

Lemma X15_closers_released_in_order_witness :
  released (Registry._closeFile "/t/a"
              (foldl (fun acc c => _addPathCloser "/t/a" (Some c) acc)
                 (new_FSWatcher Scenarios.plain) [7%nat; 8%nat])) =
    released (new_FSWatcher Scenarios.plain) ++ [7%nat; 8%nat].
Proof.
  apply (X15_closers_released_in_order "/t/a" [7%nat; 8%nat] (new_FSWatcher Scenarios.plain)).
  reflexivity.
Defined.

Section UnwatchFacts.
Variable P : Platform.
Variables resolve dirname basename : string -> string.




End UnwatchFacts.









(** Projections of a watcher out of the field updates. *)
(** ** The paths argument of [add] and [unwatch] *)




Lemma flatten_cons (x : PathsArg) (l : list PathsArg) :
  flatten (x :: l) = flatten_item x ++ flatten l.
Proof. reflexivity. Qed.


Lemma flatten_strings (l : list string) : flatten (PString <$> l) = PString <$> l.
Proof.
  induction l as [|p l IH]; [reflexivity|].
  cbn [fmap list_fmap]. rewrite flatten_cons. cbn [flatten_item app].
  f_equal. exact IH.
Qed.


(** ** The throttle: what [clear] returns *)

Lemma filter_keeps_all {A : Type} (Q : A -> Prop) `{!forall x, Decision (Q x)} (l : list A) :
  Forall Q l -> filter Q l = l.
Proof.
  induction 1 as [|x l Hx Hl IH]; [reflexivity|].
  rewrite filter_cons, decide_True by exact Hx. rewrite IH. reflexivity.
Qed.

(** Further acquisitions while a slot is held only count. *)
Lemma throttle_refusals (kind path : string) (m tid0 : nat) (calls : list (Z * Z))
    (s : FSWatcher) (c : Z) :
  _throttled s !! kind = Some m ->
  actionMap_of m s !! path = Some (mkThrottle tid0 c) ->
  let s' := foldl (fun acc call => snd (_throttle (fst call) kind path (snd call) acc)) s calls in
  _throttled s' !! kind = Some m /\
  actionMap_of m s' !! path = Some (mkThrottle tid0 (c + Z.of_nat (length calls))) /\
  timers s' = timers s /\ emitted s' = emitted s /\
  Forall (fun call => fst (_throttle (fst call) kind path (snd call) s') = None) calls.
Proof.
  revert s c. induction calls as [|[now w] calls IH]; intros s c Hk Hslot.
  - cbn. rewrite Z.add_0_r. auto.
  - cbn [foldl fst snd].
    assert (Hstep : _throttle now kind path w s =
                    (None, set_throttleMaps
                             (<[m := <[path := mkThrottle tid0 (c + 1)]> (actionMap_of m s)]>
                                (throttleMaps s)) s)).
    { unfold _throttle. rewrite Hk, Hslot. reflexivity. }
    rewrite Hstep. cbn [snd].
    set (s1 := set_throttleMaps _ s).
    assert (Hslot1 : actionMap_of m s1 !! path = Some (mkThrottle tid0 (c + 1))).
    { unfold actionMap_of, s1. cbn. rewrite lookup_insert_eq. cbn. apply lookup_insert_eq. }
    destruct (IH s1 (c + 1) Hk Hslot1) as (Hk' & Hs' & Ht' & He' & Hall).
    cbv zeta in *. rewrite Hk', Hs', Ht', He'.
    replace (c + 1 + Z.of_nat (length calls)) with (c + Z.of_nat (length ((now, w) :: calls)))
      by (cbn [length]; lia).
    repeat split; try reflexivity.
    constructor; [|exact Hall]. cbn [fst snd].
    set (s2 := foldl _ s1 calls) in *.
    assert (Hheld : throttle_slot kind path s2 =
                    Some (mkThrottle tid0 (c + 1 + Z.of_nat (length calls))))
      by (unfold throttle_slot; rewrite Hk'; exact Hs').
    destruct (throttle_held now kind path w s2 _ Hheld) as (s3 & -> & _).
    reflexivity.
Qed.

(** X2: the [clear] function of a throttle slot returns the number of
    acquisitions that were refused since the slot was taken, releases the slot
    and cancels its timer; the refused acquisitions themselves arm no timer
    and emit nothing. *)
Theorem X2_throttle_clear_counts (now : Z) (kind path : string) (window : Z)
    (calls : list (Z * Z)) (s : FSWatcher) :
  throttle_slot kind path s = None ->
  handles_allocated s ->
  exists m thr s0,
    _throttle now kind path window s = (Some (m, thr), s0) /\
    let s1 := foldl (fun acc call => snd (_throttle (fst call) kind path (snd call) acc))
                s0 calls in
    timers s1 = timers s0 /\
    emitted s1 = emitted s /\
    fst (throttle_clear m path (timeoutObject thr) s1) = Z.of_nat (length calls) /\
    throttle_slot kind path (snd (throttle_clear m path (timeoutObject thr) s1)) = None /\
    timers (snd (throttle_clear m path (timeoutObject thr) s1)) = timers s.
Proof.
  intros Hnone Hids.
  destruct (throttle_fresh now kind path window s Hnone)
    as (m & thr & s0 & Heq & Hc & Hk & Hslot & Ht & He & _).
  exists m, thr, s0. split; [exact Heq|].
  assert (Hslot0 : actionMap_of m s0 !! path = Some (mkThrottle (timeoutObject thr) 0)).
  { unfold throttle_slot in Hslot. rewrite Hk in Hslot. rewrite Hslot.
    destruct thr as [t c]. cbn in Hc. subst c. reflexivity. }
  destruct (throttle_refusals kind path m (timeoutObject thr) calls s0 0 Hk Hslot0)
    as (Hk1 & Hs1 & Ht1 & He1 & _).
  cbv zeta in *. set (s1 := foldl _ s0 calls) in *.
  split; [exact Ht1|]. split; [congruence|].
  unfold throttle_clear. rewrite Hs1. cbn [fst snd count timeoutObject].
  split; [lia|]. split.
  - unfold throttle_slot. cbn [_throttled clearTimeout set_timers set_throttleMaps].
    rewrite Hk1. unfold actionMap_of. cbn [throttleMaps clearTimeout set_timers set_throttleMaps].
    rewrite lookup_insert_eq. cbn [default]. apply lookup_delete_eq.
  - cbn [timers clearTimeout set_timers set_throttleMaps]. rewrite Ht1, Ht.
    rewrite !list.filter_app. cbn [filter list.list_filter].
    rewrite !decide_False by (cbn; congruence).
    cbn [filter list.list_filter]. rewrite !app_nil_r.
    assert (Hlt : Forall (fun t => tid t <> timeoutObject thr) (timers s)).
    { unfold throttle_slot in Hnone. unfold _throttle in Heq.
      destruct (_throttled s !! kind) as [m0|] eqn:Hk0.
      - rewrite Hnone in Heq. cbn in Heq. inversion Heq; subst. cbn.
        eapply Forall_impl; [exact Hids|]. cbn. intros. lia.
      - unfold actionMap_of at 1 in Heq. cbn in Heq. rewrite lookup_insert_eq in Heq.
        cbn in Heq. rewrite lookup_empty in Heq. cbn in Heq. inversion Heq; subst. cbn.
        eapply Forall_impl; [exact Hids|]. cbn. intros. lia. }
    rewrite (filter_keeps_all _ _ Hlt). apply (filter_keeps_all _ _ Hlt).
Qed.

Lemma X2_throttle_clear_counts_witness :
  exists m thr s0,
    _throttle 0 "readdir" "/t" 1000 (new_FSWatcher Scenarios.plain) = (Some (m, thr), s0) /\
    fst (throttle_clear m "/t" (timeoutObject thr)
           (foldl (fun acc call => snd (_throttle (fst call) "readdir" "/t" (snd call) acc))
              s0 [(5, 1000); (9, 1000)])) = 2.
Proof.
  destruct (X2_throttle_clear_counts 0 "readdir" "/t" 1000 [(5, 1000); (9, 1000)]
              (new_FSWatcher Scenarios.plain) eq_refl (List.Forall_nil _))
    as (m & thr & s0 & Heq & _ & _ & Hcount & _).
  exists m, thr, s0. split; [exact Heq | exact Hcount].
Defined.

(** ** Pending unlinks *)

Lemma spread_throws_other (event : string) (rest : list Val) (s : FSWatcher) :
  event <> EV_ERROR -> spread_throws (VStr event :: rest) s = false.
Proof.
  intros Hne. unfold spread_throws, emit_throws.
  destruct (String.eqb_spec event EV_ERROR); [contradiction | reflexivity].
Qed.

Lemma omap_delete_head {V : Type} (k : string) (v : V) (m : list (string * V)) :
  omap_delete k ((k, v) :: m) = m.
Proof. cbn. rewrite String.eqb_refl. reflexivity. Qed.

Lemma drain_entries_effect (entries : list (string * list Val)) :
  Forall (fun kv => headed EV_UNLINK (snd kv)) entries ->
  forall s : FSWatcher,
  let s' := drain_entries entries s in
  emitted s' = emitted s ++ concat (Terms.unlink_pair s <$> entries) /\
  _pendingUnlinks s' = foldl (fun m kv => omap_delete (fst kv) m) (_pendingUnlinks s) entries /\
  timers s' = timers s /\ inflight s' = inflight s /\ listeners s' = listeners s /\
  _pendingWrites s' = _pendingWrites s /\ closed s' = closed s.
Proof.
  induction 1 as [|[k entry] entries [rest Hh] _ IH]; intros s.
  - cbn. rewrite app_nil_r. auto 10.
  - cbn [snd] in Hh. subst entry. cbn [drain_entries].
    change (spread_throws (VStr EV_UNLINK :: rest) s) with false. cbv iota.
    set (s1 := set_pendingUnlinks _ _).
    destruct (IH s1) as (He & Hu & Ht & Hi & Hl & Hw & Hc). cbv zeta in *.
    rewrite He, Hu, Ht, Hi, Hl, Hw, Hc.
    cbn [fmap list_fmap concat foldl fst].
    repeat split.
    change (emitted s1)
      with ((emitted s ++ [mkEmission EV_UNLINK rest (bool_decide (EV_UNLINK ∈ listeners s))])
            ++ [mkEmission EV_ALL (VStr EV_UNLINK :: rest) (bool_decide (EV_ALL ∈ listeners s))]).
    rewrite <- !app_assoc. reflexivity.
Qed.

Lemma omap_drained {V : Type} (m : list (string * V)) :
  NoDup (fst <$> m) ->
  foldl (fun acc kv => omap_delete (fst kv) acc) m m = [].
Proof.
  intros Hnd.
  assert (forall (l pre : list (string * V)),
             NoDup (fst <$> l) ->
             foldl (fun acc kv => omap_delete (fst kv) acc) l l = []) as Hgen.
  { clear. induction l as [|[k v] l IH]; intros _ Hnd; [reflexivity|].
    cbn [foldl fst]. rewrite omap_delete_head. apply IH; [exact []|].
    cbn in Hnd. apply NoDup_cons in Hnd as [_ Hnd]. exact Hnd. }
  apply (Hgen m []). exact Hnd.
Qed.

(** X4: when the timer armed by an [unlink] under [atomic] fires, every
    pending unlink is emitted on [unlink] and then on [all], in the order in
    which the unlinks arrived, and no pending unlink is left. *)
Theorem X4_drain_emits_all_in_order (s : FSWatcher) :
  NoDup (fst <$> _pendingUnlinks s) ->
  Forall (fun kv => headed EV_UNLINK (snd kv)) (_pendingUnlinks s) ->
  emitted (drain_unlinks s) =
    emitted s ++ concat (Terms.unlink_pair s <$> _pendingUnlinks s) /\
  _pendingUnlinks (drain_unlinks s) = [] /\
  timers (drain_unlinks s) = timers s /\
  _pendingWrites (drain_unlinks s) = _pendingWrites s.
Proof.
  intros Hnd Hh. unfold drain_unlinks.
  destruct (drain_entries_effect _ Hh s) as (He & Hu & Ht & _ & _ & Hw & _).
  cbv zeta in *. rewrite He, Hu, Ht, Hw, omap_drained by exact Hnd. auto.
Qed.

Lemma X4_drain_emits_all_in_order_witness :
  _pendingUnlinks (drain_unlinks Scenarios.save_after_change) = [].
Proof.
  apply (X4_drain_emits_all_in_order Scenarios.save_after_change).
  - vm_compute. constructor; [|constructor]. intros H. inversion H.
  - vm_compute. constructor; [|constructor]. eexists. reflexivity.
Defined.

(** X3: under [atomic], an [unlink] on an open watcher is not emitted at
    once: its arguments wait in the pending-unlink slot of the path, and a
    timer is armed after [atomic] milliseconds (100 when [atomic] is [true]).
    When no other unlink is pending and that timer fires, the [unlink] is
    emitted on its channel and on [all], and the slot is gone. *)
Theorem X3_atomic_unlink_deferred (P : Platform) (now : Z) (path : string)
    (val1 val2 val3 : Val) (s : FSWatcher) :
  atomic_truthy (atomic (options s)) = true ->
  closed s = false ->
  (awaitWriteFinish (options s) = None \/
   _pendingWrites s !! user_path P (options s) path = None) ->
  handles_allocated s ->
  _pendingUnlinks s = [] ->
  let p := user_path P (options s) path in
  let s1 := _emit P now EV_UNLINK path val1 val2 val3 s in
  emitted s1 = emitted s /\
  _pendingUnlinks s1 = [(p, build_args EV_UNLINK p val1 val2 val3)] /\
  timers s1 =
    timers s ++ [mkTimer (nextId s) (now + atomic_delay (atomic (options s))) DrainUnlinks] /\
  emitted (fire (nextId s) s1) =
    emitted s ++ event_pair s EV_UNLINK p (extra_args val1 val2 val3) /\
  _pendingUnlinks (fire (nextId s) s1) = [].
Proof.
  intros Hatomic Hopen Hpw Hids Hempty. cbv zeta.
  rewrite emit_open; [|exact Hopen|exact Hpw].
  set (p := user_path P (options s) path).
  unfold _emit_atomic. rewrite Hatomic.
  change (String.eqb EV_UNLINK EV_UNLINK) with true. cbv iota.
  rewrite Hempty. cbn [omap_set setTimeout snd].
  cbn [emitted _pendingUnlinks timers set_nextId set_timers set_pendingUnlinks].
  repeat split.
  - unfold fire. cbn [timers set_nextId set_timers set_pendingUnlinks].
    rewrite (find_fresh_timer _ _ _ _ Hids). cbn [task].
    unfold drain_unlinks.
    cbn [_pendingUnlinks clearTimeout set_timers set_nextId set_pendingUnlinks drain_entries].
    unfold build_args. cbn [app emit_spread].
    rewrite spread_throws_other by discriminate. fields.
    rewrite <- app_assoc. reflexivity.
  - unfold fire. cbn [timers set_nextId set_timers set_pendingUnlinks].
    rewrite (find_fresh_timer _ _ _ _ Hids). cbn [task].
    unfold drain_unlinks.
    cbn [_pendingUnlinks clearTimeout set_timers set_nextId set_pendingUnlinks drain_entries].
    unfold build_args. cbn [app emit_spread].
    rewrite spread_throws_other by discriminate. fields.
    apply omap_delete_head.
Qed.

Lemma X3_atomic_unlink_deferred_witness :
  emitted (fire 0 (_emit Scenarios.posix 0 EV_UNLINK "T/a" VUndef VUndef VUndef
                     (new_FSWatcher Scenarios.with_atomic))) =
  event_pair (new_FSWatcher Scenarios.with_atomic) EV_UNLINK "T/a" [].
Proof.
  apply (X3_atomic_unlink_deferred Scenarios.posix 0 "T/a" VUndef VUndef VUndef
           (new_FSWatcher Scenarios.with_atomic));
    [reflexivity | reflexivity | left; reflexivity | constructor | reflexivity].
Defined.

(** ** Events that wait for a stat *)





(** ** The write-settle tracker: cancellation *)


(** ** Readiness through the field *)

Lemma ready_calls_counted (target : Z) (k : nat) (s : FSWatcher) :
  _emitReady s = ReadyClosure ->
  _readyCount s = Some target ->
  readyCalls s < target ->
  let s' := Nat.iter k call_emitReady s in
  emitted s' = emitted s /\ _readyCount s' = Some target /\
  if target <=? readyCalls s + Z.of_nat k
  then _emitReady s' = EMPTY_FN /\ ticks s' = ticks s ++ [TickEmitReady] /\
       _readyEmitted s' = true
  else _emitReady s' = ReadyClosure /\ ticks s' = ticks s /\
       _readyEmitted s' = _readyEmitted s /\ readyCalls s' = readyCalls s + Z.of_nat k.
Proof.
  intros Hf Hc Hlt. induction k as [|k IH].
  - cbn. rewrite Z.add_0_r.
    destruct (Z.leb_spec target (readyCalls s)); [lia|]. auto 10.
  - cbv zeta in *. rewrite Nat.iter_succ.
    set (sk := Nat.iter k call_emitReady s) in *.
    destruct IH as (He & Hc' & IH).
    destruct (Z.leb_spec target (readyCalls s + Z.of_nat k)) as [Hle | Hgt].
    + destruct IH as (Hf' & Ht & Hr).
      rewrite (call_emitReady_after_ready sk Hf').
      destruct (Z.leb_spec target (readyCalls s + Z.of_nat (S k))); [auto | lia].
    + destruct IH as (Hf' & Ht & Hr & Hn).
      unfold call_emitReady. rewrite Hf'. cbn [call_ready]. unfold readyClosure.
      fields. rewrite Hc', Hn.
      replace (readyCalls s + Z.of_nat k + 1) with (readyCalls s + Z.of_nat (S k)) by lia.
      destruct (Z.leb_spec target (readyCalls s + Z.of_nat (S k))); fields;
        rewrite ?He, ?Ht, ?Hr; auto 10.
Qed.

(** X7: while every call goes through the field [_emitReady], [ready] is
    scheduled exactly once, by the call that makes the number of calls reach
    [_readyCount]; the calls before it schedule nothing and the calls after
    it do nothing. Calls of [_emitReady] never emit by themselves. *)
Theorem X7_ready_scheduled_once (target : Z) (k : nat) (s : FSWatcher) :
  _emitReady s = ReadyClosure ->
  _readyCount s = Some target ->
  readyCalls s < target ->
  ticks (Nat.iter k call_emitReady s) =
    ticks s ++ (if target <=? readyCalls s + Z.of_nat k then [TickEmitReady] else []) /\
  _readyEmitted (Nat.iter k call_emitReady s) =
    (if target <=? readyCalls s + Z.of_nat k then true else _readyEmitted s) /\
  emitted (Nat.iter k call_emitReady s) = emitted s.
Proof.
  intros Hf Hc Hlt.
  destruct (ready_calls_counted target k s Hf Hc Hlt) as (He & _ & H). cbv zeta in *.
  destruct (target <=? readyCalls s + Z.of_nat k).
  - destruct H as (_ & -> & ->). auto.
  - destruct H as (_ & -> & -> & _). rewrite app_nil_r. auto.
Qed.

Lemma X7_ready_scheduled_once_witness :
  ticks (Nat.iter 5 call_emitReady
           (set_readyCount (Some 3) (new_FSWatcher Scenarios.plain))) = [TickEmitReady].
Proof.
  apply (X7_ready_scheduled_once 3 5 (set_readyCount (Some 3) (new_FSWatcher Scenarios.plain)));
    [reflexivity | reflexivity | reflexivity].
Defined.

(** ** Negated paths *)

Lemma filter_negated_all (paths : list string) (s : FSWatcher) :
  Forall (fun p => is_Some (negated p)) paths ->
  filter_negated paths s =
  ([], set_ignoredPaths (list_to_set (omap negated paths) ∪ _ignoredPaths s) s).
Proof.
  intros H. revert s. induction H as [|p paths [q Hq] _ IH]; intros s.
  - cbn. rewrite (left_id_L ∅ (∪)). destruct s; reflexivity.
  - cbn [filter_negated omap list_omap]. rewrite Hq, IH. f_equal. fields.
    replace (list_to_set (q :: omap negated paths) ∪ _ignoredPaths s)
      with (list_to_set (omap negated paths) ∪ ({[q]} ∪ _ignoredPaths s))
      by (rewrite list_to_set_cons, (assoc_L (∪)),
            (comm_L (∪) (list_to_set (omap negated paths)) {[q]}); reflexivity).
    destruct s; reflexivity.
Qed.

Lemma unifyPaths_strings (P : Platform) (ps : list string) :
  unifyPaths P (PArray (PString <$> ps)) = Normal (normalizePathToUnix P <$> ps).
Proof.
  unfold unifyPaths. cbn [arrify]. rewrite flatten_strings.
  assert (forallb (fun p => bool_decide (is_Some (string_of p))) (PString <$> ps) = true) as ->.
  { induction ps as [|p l IH]; [reflexivity|]. cbn. exact IH. }
  f_equal. f_equal. induction ps as [|p l IH]; [reflexivity|]. cbn. f_equal. exact IH.
Qed.

(** X10: [add] called with negated paths only (each [!target], no working
    directory being configured) puts the targets on the ignore set, starts no
    watch and emits nothing; it does not reset the cached ignore matcher, so
    that [_isIgnored] goes on answering from the matcher built before the
    call. *)
Theorem X10_add_negated_only (P : Platform) (ps : list string) (s : FSWatcher) :
  cwd_truthy (options s) = None ->
  Forall (fun p => is_Some (negated (normalizePathToUnix P p))) ps ->
  fst (add P (PArray (PString <$> ps)) s) = Normal [] /\
  _ignoredPaths (snd (add P (PArray (PString <$> ps)) s)) =
    list_to_set (omap (fun p => negated (normalizePathToUnix P p)) ps) ∪ _ignoredPaths s /\
  _userIgnored (snd (add P (PArray (PString <$> ps)) s)) = _userIgnored s /\
  inflight (snd (add P (PArray (PString <$> ps)) s)) = inflight s /\
  emitted (snd (add P (PArray (PString <$> ps)) s)) = emitted s /\
  forall snapshot q,
    _userIgnored s = Some snapshot ->
    atomic_truthy (atomic (options s)) && dotfile P q = false ->
    fst (_isIgnored P q (snd (add P (PArray (PString <$> ps)) s))) = anymatch P snapshot q.
Proof.
  intros Hcwd Hneg. unfold add. rewrite unifyPaths_strings. fields. rewrite Hcwd.
  rewrite filter_negated_all
    by (apply Forall_fmap; eapply Forall_impl; [exact Hneg | auto]).
  assert (omap negated (normalizePathToUnix P <$> ps) =
          omap (fun p => negated (normalizePathToUnix P p)) ps) as ->.
  { clear. induction ps as [|p l IH]; [reflexivity|]. cbn.
    destruct (negated (normalizePathToUnix P p)); rewrite IH; reflexivity. }
  cbn [length Z.of_nat]. fields.
  destruct (useFsEvents (options s)); fields; cbn [foldl]; fields;
    (repeat split; try reflexivity);
    intros snapshot q Hsnap Hdot; unfold _isIgnored; fields;
    rewrite Hdot, Hsnap; reflexivity.
Qed.

Lemma X10_add_negated_only_witness :
  _userIgnored
    (snd (add Scenarios.posix (PArray (PString <$> ["!/t/b"]))
            (set_userIgnored (Some ∅) Settings.tracking))) = Some ∅.
Proof.
  apply (X10_add_negated_only Scenarios.posix ["!/t/b"]
           (set_userIgnored (Some ∅) Settings.tracking)).
  - reflexivity.
  - constructor; [|constructor]. eexists. reflexivity.
Defined.

(** ** Closers at [close] *)

Lemma elem_of_concat {A : Type} (x : A) (ls : list (list A)) :
  x ∈ concat ls <-> exists l, x ∈ l /\ l ∈ ls.
Proof.
  rewrite list_elem_of_In, in_concat.
  split; intros (l & H1 & H2); exists l; rewrite ?list_elem_of_In in *; tauto.
Qed.

(** X18: [close] on an open watcher invokes every closer still registered,
    and only those, and forgets them all; a second [close] changes nothing. *)
Theorem X18_close_releases_every_closer (s : FSWatcher) (c : nat) :
  closed s = false ->
  (c ∈ released (close s) <->
   c ∈ released s \/ exists path cs, _closers s !! path = Some cs /\ c ∈ cs) /\
  _closers (close s) = ∅ /\
  close (close s) = close s.
Proof.
  intros Hopen. unfold close at 1 2. rewrite Hopen. fields.
  split; [|split; [reflexivity|]].
  - rewrite elem_of_app. apply or_iff_compat_l.
    rewrite elem_of_concat. split.
    + intros (cs & Hc & Hcs). apply list_elem_of_fmap in Hcs as ([path cs'] & -> & Hin).
      apply elem_of_map_to_list in Hin. eauto.
    + intros (path & cs & Hl & Hc). exists cs. split; [exact Hc|].
      apply list_elem_of_fmap. exists (path, cs). split; [reflexivity|].
      apply elem_of_map_to_list. exact Hl.
  - assert (Hc : closed (close s) = true) by (unfold close; rewrite Hopen; reflexivity).
    unfold close at 1. rewrite Hc. reflexivity.
Qed.

Lemma X18_close_releases_every_closer_witness :
  8%nat ∈ released (close Settings.tracking).
Proof.
  apply (X18_close_releases_every_closer Settings.tracking 8%nat eq_refl).
  right. exists "/t/a", [7%nat; 8%nat]. split; [reflexivity|].
  apply list_elem_of_In. right. left. reflexivity.
Defined.

(** ** The table of polled files *)

Lemma polled_app (full : string) (l1 l2 : list WatchFile.FsCall) (acc : list nat) :
  WatchFile.polled full (l1 ++ l2) acc = WatchFile.polled full l2 (WatchFile.polled full l1 acc).
Proof.
  revert acc. induction l1 as [|[f o c | f] l1 IH]; intros acc; cbn; [reflexivity | apply IH | apply IH].
Qed.

(** The first registration for a file. *)
Lemma watchFile_first (path full : string) (opts : Polling.WatchOptions)
    (listener rawEmitter : nat) (st : WatchFile.Store) :
  WatchFile.FsWatchFileInstances st !! full = None ->
  WatchFile.setFsWatchFileListener path full opts listener rawEmitter st =
  (Normal (WatchFile.mkCloser (WatchFile.next st) full listener rawEmitter),
   WatchFile.mkStore
     (<[WatchFile.next st :=
          WatchFile.mkContainer (WatchFile.HValue listener) (WatchFile.HValue rawEmitter)
            (Some opts) true path full false]> (WatchFile.heap st))
     (<[full := WatchFile.next st]> (WatchFile.FsWatchFileInstances st))
     (WatchFile.fs_calls st ++ [WatchFile.WatchFileCall full opts (WatchFile.next st)])
     (S (WatchFile.next st))).
Proof. intros Hnone. unfold WatchFile.setFsWatchFileListener. rewrite Hnone. reflexivity. Qed.

(** X20: a second registration for a polled file whose options ask neither
    for persistence the first lacks nor for a shorter interval joins the
    first one's container: [fs.watchFile] is not called again, so the file
    goes on being polled with the first options. On a change every listener
    is called once, in the order of registration, a function registered
    twice being called once, and each with the path the first registration
    was made with; every raw emitter is called on every poll. *)
Theorem X20_polling_listener_joins (p1 p2 full : string) (o1 o2 : Polling.WatchOptions)
    (l1 r1 l2 r2 : nat) (curr prev : Stats.t) (st : WatchFile.Store) :
  WatchFile.FsWatchFileInstances st !! full = None ->
  Polling.lower (Polling.persistent o1) (Polling.persistent o2) = false ->
  Polling.interval o1 <= Polling.interval o2 ->
  let st1 := snd (WatchFile.setFsWatchFileListener p1 full o1 l1 r1 st) in
  let st2 := snd (WatchFile.setFsWatchFileListener p2 full o2 l2 r2 st1) in
  fst (WatchFile.setFsWatchFileListener p2 full o2 l2 r2 st1) =
    Normal (WatchFile.mkCloser (WatchFile.next st) full l2 r2) /\
  WatchFile.fs_calls st2 =
    WatchFile.fs_calls st ++ [WatchFile.WatchFileCall full o1 (WatchFile.next st)] /\
  WatchFile.FsWatchFileInstances st2 !! full = Some (WatchFile.next st) /\
  WatchFile.callback (WatchFile.next st) curr prev st2 =
    ((Polling.RawCall r1 EV_CHANGE full curr prev ::
      (if Nat.eqb r2 r1 then [] else [Polling.RawCall r2 EV_CHANGE full curr prev])) ++
     (if Polling.changed curr prev
      then Polling.ListenerCall l1 p1 curr ::
           (if Nat.eqb l2 l1 then [] else [Polling.ListenerCall l2 p1 curr])
      else []),
     None).
Proof.
  intros Hnone Hp Hi. cbv zeta. rewrite (watchFile_first _ _ _ _ _ _ Hnone). cbn [snd].
  unfold WatchFile.setFsWatchFileListener.
  cbn [WatchFile.FsWatchFileInstances WatchFile.heap WatchFile.next WatchFile.fs_calls].
  rewrite !lookup_insert_eq. cbn [option_map WatchFile.options].
  rewrite Hp. destruct (Z.ltb_spec (Polling.interval o2) (Polling.interval o1)); [lia|].
  cbn [orb WatchFile.addAsSet WatchFile.listeners WatchFile.rawEmitters WatchFile.frozen
       WatchFile.element_of fst snd].
  unfold WatchFile.update, WatchFile.callback.
  cbn [WatchFile.FsWatchFileInstances WatchFile.heap WatchFile.next WatchFile.fs_calls].
  rewrite !lookup_insert_eq.
  cbn [WatchFile.listeners WatchFile.rawEmitters WatchFile.pathArg WatchFile.fullPath
       WatchFile.forEachSetOrValue].
  repeat split.
  unfold WatchFile.set_add.
  assert (Hin : forall a b : nat,
             bool_decide (Some a ∈ [Some b]) = Nat.eqb a b).
  { intros a b. destruct (Nat.eqb_spec a b) as [-> | Hne].
    - apply bool_decide_eq_true_2. apply list_elem_of_In. left. reflexivity.
    - apply bool_decide_eq_false_2. intros Hx. apply list_elem_of_In in Hx.
      destruct Hx as [[= ->] | []]. congruence. }
  rewrite !Hin.
  destruct (Nat.eqb r2 r1), (Nat.eqb l2 l1), (Polling.changed curr prev); reflexivity.
Qed.

Lemma X20_polling_listener_joins_witness :
  WatchFile.fs_calls
    (snd (WatchFile.setFsWatchFileListener "b" "/t/f" (Polling.mkWatchOptions true 300) 3 4
            (snd (WatchFile.setFsWatchFileListener "a" "/t/f"
                    (Polling.mkWatchOptions true 100) 1 2 WatchFile.empty)))) =
  [WatchFile.WatchFileCall "/t/f" (Polling.mkWatchOptions true 100) 0].
Proof.
  apply (X20_polling_listener_joins "a" "b" "/t/f" (Polling.mkWatchOptions true 100)
           (Polling.mkWatchOptions true 300) 1 2 3 4 (Stats.mk 0 0) (Stats.mk 0 0)
           WatchFile.empty); [reflexivity | reflexivity | cbn; lia].
Defined.

(** X21: a registration for a polled file that asks for persistence the
    existing container lacks, or for a shorter interval, replaces the
    container: the file is unwatched and watched again with the new options,
    and the new container holds the new listener alone, so that a change is
    no longer reported to the listeners registered before. *)
Theorem X21_polling_upgrade_replaces (p1 p2 full : string) (o1 o2 : Polling.WatchOptions)
    (l1 r1 l2 r2 : nat) (curr prev : Stats.t) (st : WatchFile.Store) :
  WatchFile.FsWatchFileInstances st !! full = None ->
  Polling.lower (Polling.persistent o1) (Polling.persistent o2) = true \/
    Polling.interval o2 < Polling.interval o1 ->
  let st1 := snd (WatchFile.setFsWatchFileListener p1 full o1 l1 r1 st) in
  let st2 := snd (WatchFile.setFsWatchFileListener p2 full o2 l2 r2 st1) in
  WatchFile.fs_calls st2 =
    WatchFile.fs_calls st ++
    [WatchFile.WatchFileCall full o1 (WatchFile.next st);
     WatchFile.UnwatchFileCall full;
     WatchFile.WatchFileCall full o2 (S (WatchFile.next st))] /\
  WatchFile.FsWatchFileInstances st2 !! full = Some (S (WatchFile.next st)) /\
  WatchFile.polling full st2 = [S (WatchFile.next st)] /\
  WatchFile.callback (S (WatchFile.next st)) curr prev st2 =
    (Polling.RawCall r2 EV_CHANGE full curr prev ::
     (if Polling.changed curr prev then [Polling.ListenerCall l2 p2 curr] else []),
     None).
Proof.
  intros Hnone Hup. cbv zeta. rewrite (watchFile_first _ _ _ _ _ _ Hnone). cbn [snd].
  unfold WatchFile.setFsWatchFileListener. store_fields.
  rewrite !lookup_insert_eq. store_fields.
  assert (Polling.lower (Polling.persistent o1) (Polling.persistent o2) ||
          (Polling.interval o2 <? Polling.interval o1) = true) as ->.
  { destruct Hup as [-> | Hlt]; [reflexivity|].
    apply orb_true_iff. right. apply Z.ltb_lt. exact Hlt. }
  store_fields. rewrite <- !app_assoc. cbn [app].
  split; [reflexivity|]. split; [apply lookup_insert_eq|]. split.
  - unfold WatchFile.polling. store_fields. rewrite polled_app.
    cbn [WatchFile.polled]. rewrite String.eqb_refl. reflexivity.
  - unfold WatchFile.callback. store_fields. rewrite lookup_insert_eq.
    store_fields. cbn [WatchFile.forEachSetOrValue].
    destruct (Polling.changed curr prev); reflexivity.
Qed.

Lemma X21_polling_upgrade_replaces_witness :
  WatchFile.polling "/t/f"
    (snd (WatchFile.setFsWatchFileListener "b" "/t/f" (Polling.mkWatchOptions true 100) 3 4
            (snd (WatchFile.setFsWatchFileListener "a" "/t/f"
                    (Polling.mkWatchOptions true 300) 1 2 WatchFile.empty)))) = [1%nat].
Proof.
  apply (X21_polling_upgrade_replaces "a" "b" "/t/f" (Polling.mkWatchOptions true 300)
           (Polling.mkWatchOptions true 100) 1 2 3 4 (Stats.mk 0 0) (Stats.mk 0 0)
           WatchFile.empty); [reflexivity | right; cbn; lia].
Defined.

Lemma set_delete_first (a b : nat) :
  a <> b -> WatchFile.set_delete (Some a) [Some a; Some b] = [Some b].
Proof.
  intros Hne. unfold WatchFile.set_delete.
  rewrite !filter_cons, filter_nil.
  rewrite decide_False by (intros Hx; apply Hx; reflexivity).
  rewrite decide_True by congruence. reflexivity.
Qed.

Lemma set_delete_last (b : nat) : WatchFile.set_delete (Some b) [Some b] = [].
Proof.
  unfold WatchFile.set_delete. rewrite filter_cons, filter_nil.
  rewrite decide_False by (intros Hx; apply Hx; reflexivity). reflexivity.
Qed.

(** X22: the closer returned for the only registration of a polled file
    takes the file out of the table and calls [fs.unwatchFile], after which
    no callback is polled for the file. When two listeners share the
    container, the closer of the first leaves the file polled and the second
    listener called; the closer of the second then releases the file. *)
Theorem X22_polling_closer_releases (p1 p2 full : string) (o1 o2 : Polling.WatchOptions)
    (l1 r1 l2 r2 : nat) (curr prev : Stats.t) (st : WatchFile.Store) :
  WatchFile.FsWatchFileInstances st !! full = None ->
  WatchFile.heap st !! WatchFile.next st = None ->
  let k1 := WatchFile.mkCloser (WatchFile.next st) full l1 r1 in
  let k2 := WatchFile.mkCloser (WatchFile.next st) full l2 r2 in
  let st1 := snd (WatchFile.setFsWatchFileListener p1 full o1 l1 r1 st) in
  (fst (WatchFile.close k1 st1) = Normal tt /\
   WatchFile.FsWatchFileInstances (snd (WatchFile.close k1 st1)) =
     WatchFile.FsWatchFileInstances st /\
   WatchFile.polling full (snd (WatchFile.close k1 st1)) = []) /\
  (Polling.lower (Polling.persistent o1) (Polling.persistent o2) = false ->
   Polling.interval o1 <= Polling.interval o2 ->
   l1 <> l2 -> r1 <> r2 ->
   let st2 := snd (WatchFile.setFsWatchFileListener p2 full o2 l2 r2 st1) in
   let st3 := snd (WatchFile.close k1 st2) in
   WatchFile.FsWatchFileInstances st3 !! full = Some (WatchFile.next st) /\
   WatchFile.fs_calls st3 = WatchFile.fs_calls st2 /\
   WatchFile.callback (WatchFile.next st) curr prev st3 =
     (Polling.RawCall r2 EV_CHANGE full curr prev ::
      (if Polling.changed curr prev then [Polling.ListenerCall l2 p1 curr] else []),
      None) /\
   fst (WatchFile.close k2 st3) = Normal tt /\
   WatchFile.FsWatchFileInstances (snd (WatchFile.close k2 st3)) !! full = None /\
   WatchFile.polling full (snd (WatchFile.close k2 st3)) = []).
Proof.
  intros Hnone Hfresh. cbv zeta. rewrite (watchFile_first _ _ _ _ _ _ Hnone). cbn [snd].
  split.
  - unfold WatchFile.close. store_fields. rewrite lookup_insert_eq. store_fields.
    cbn [WatchFile.deleteFromSet]. rewrite !Nat.eqb_refl. store_fields.
    cbn [WatchFile.isSetEmpty]. store_fields.
    split; [reflexivity|]. split.
    + rewrite delete_insert_eq. apply delete_id. exact Hnone.
    + unfold WatchFile.polling. store_fields. rewrite !polled_app.
      cbn [WatchFile.polled]. rewrite String.eqb_refl. reflexivity.
  - intros Hp Hi Hl Hr.
    unfold WatchFile.setFsWatchFileListener. store_fields.
    rewrite !lookup_insert_eq. store_fields.
    rewrite Hp. destruct (Z.ltb_spec (Polling.interval o2) (Polling.interval o1)); [lia|].
    cbn [orb WatchFile.addAsSet WatchFile.element_of WatchFile.listeners
         WatchFile.rawEmitters WatchFile.frozen fst snd]. store_fields.
    unfold WatchFile.set_add.
    rewrite !bool_decide_eq_false_2
      by (intros Hx; apply list_elem_of_In in Hx; destruct Hx as [[= ->] | []]; congruence).
    cbn [app].
    unfold WatchFile.close. store_fields. rewrite !lookup_insert_eq. store_fields.
    cbn [WatchFile.deleteFromSet]. store_fields.
    rewrite (set_delete_first l1 l2 Hl), (set_delete_first r1 r2 Hr).
    cbn [WatchFile.isSetEmpty]. rewrite bool_decide_eq_false_2 by discriminate. store_fields.
    rewrite !lookup_insert_eq. store_fields.
    cbn [WatchFile.deleteFromSet]. rewrite !set_delete_last.
    cbn [WatchFile.isSetEmpty]. rewrite bool_decide_eq_true_2 by reflexivity. store_fields.
    split; [first [reflexivity | apply lookup_insert_eq]|]. split; [reflexivity|]. split.
    + unfold WatchFile.callback. store_fields. rewrite lookup_insert_eq. store_fields.
      cbn [WatchFile.forEachSetOrValue WatchFile.call_each].
      destruct (Polling.changed curr prev); reflexivity.
    + split; [reflexivity|]. split; [apply lookup_delete_eq|].
      unfold WatchFile.polling. store_fields. rewrite !polled_app.
      cbn [WatchFile.polled]. rewrite String.eqb_refl. reflexivity.
Qed.

Lemma X22_polling_closer_releases_witness :
  WatchFile.polling "/t/f"
    (snd (WatchFile.close (WatchFile.mkCloser 0 "/t/f" 1 2)
            (snd (WatchFile.setFsWatchFileListener "a" "/t/f"
                    (Polling.mkWatchOptions true 100) 1 2 WatchFile.empty)))) = [].
Proof.
  exact (proj2 (proj2 (proj1
    (X22_polling_closer_releases "a" "b" "/t/f" (Polling.mkWatchOptions true 100)
       (Polling.mkWatchOptions true 100) 1 2 3 4 (Stats.mk 0 0) (Stats.mk 0 0)
       WatchFile.empty eq_refl eq_refl)))).
Defined.

(** X23: a closer keeps a reference to the container it was made for. When
    a later registration has replaced that container, the closer of the
    earlier registration still deletes the file's entry in the table and
    calls [fs.unwatchFile]: the file is no longer polled and the later
    listener, whose closer was not called, gets no further change. *)
Theorem X23_stale_closer_unwatches (p1 p2 full : string) (o1 o2 : Polling.WatchOptions)
    (l1 r1 l2 r2 : nat) (st : WatchFile.Store) :
  WatchFile.FsWatchFileInstances st !! full = None ->
  Polling.lower (Polling.persistent o1) (Polling.persistent o2) = true \/
    Polling.interval o2 < Polling.interval o1 ->
  let k1 := WatchFile.mkCloser (WatchFile.next st) full l1 r1 in
  let st1 := snd (WatchFile.setFsWatchFileListener p1 full o1 l1 r1 st) in
  let st2 := snd (WatchFile.setFsWatchFileListener p2 full o2 l2 r2 st1) in
  fst (WatchFile.setFsWatchFileListener p1 full o1 l1 r1 st) = Normal k1 /\
  WatchFile.FsWatchFileInstances st2 !! full = Some (S (WatchFile.next st)) /\
  WatchFile.polling full st2 = [S (WatchFile.next st)] /\
  fst (WatchFile.close k1 st2) = Normal tt /\
  WatchFile.FsWatchFileInstances (snd (WatchFile.close k1 st2)) !! full = None /\
  WatchFile.polling full (snd (WatchFile.close k1 st2)) = [] /\
  option_map WatchFile.listeners
    (WatchFile.heap (snd (WatchFile.close k1 st2)) !! S (WatchFile.next st)) =
    Some (WatchFile.HValue l2).
Proof.
  intros Hnone Hup. cbv zeta. rewrite (watchFile_first _ _ _ _ _ _ Hnone). cbn [fst snd].
  split; [reflexivity|].
  unfold WatchFile.setFsWatchFileListener. store_fields.
  rewrite !lookup_insert_eq. store_fields.
  assert (Polling.lower (Polling.persistent o1) (Polling.persistent o2) ||
          (Polling.interval o2 <? Polling.interval o1) = true) as ->.
  { destruct Hup as [-> | Hlt]; [reflexivity|].
    apply orb_true_iff. right. apply Z.ltb_lt. exact Hlt. }
  store_fields. split; [apply lookup_insert_eq|]. split.
  { unfold WatchFile.polling. store_fields. rewrite !polled_app.
    cbn [WatchFile.polled]. rewrite String.eqb_refl. reflexivity. }
  unfold WatchFile.close. store_fields.
  rewrite lookup_insert_ne by lia. rewrite lookup_insert_eq. store_fields.
  cbn [WatchFile.deleteFromSet]. rewrite !Nat.eqb_refl. store_fields.
  cbn [WatchFile.isSetEmpty]. store_fields.
  split; [reflexivity|]. split; [apply lookup_delete_eq|]. split.
  - unfold WatchFile.polling. store_fields. rewrite !polled_app.
    cbn [WatchFile.polled]. rewrite String.eqb_refl. reflexivity.
  - rewrite lookup_insert_ne by lia. rewrite lookup_insert_ne by lia.
    rewrite lookup_insert_eq. reflexivity.
Qed.

Lemma X23_stale_closer_unwatches_witness :
  WatchFile.polling "/t/f"
    (snd (WatchFile.close (WatchFile.mkCloser 0 "/t/f" 1 2)
            (snd (WatchFile.setFsWatchFileListener "b" "/t/f"
                    (Polling.mkWatchOptions true 100) 3 4
                    (snd (WatchFile.setFsWatchFileListener "a" "/t/f"
                            (Polling.mkWatchOptions true 300) 1 2 WatchFile.empty)))))) = [].
Proof.
  apply (X23_stale_closer_unwatches "a" "b" "/t/f" (Polling.mkWatchOptions true 300)
           (Polling.mkWatchOptions true 100) 1 2 3 4 WatchFile.empty);
    [reflexivity | right; cbn; lia].
Defined.
